(** * selfextract: the self-scanner, the archive builder and the extraction
      lifecycle, embedded from [main.go] and [extract.go].

    Bytes are [Byte.byte], Go's [int]/[int64]/[uint64] are [Z] (with the
    wrap-around written out where the code converts), files are byte lists
    with a cursor, the file system is a finite map from paths to nodes. *)

From Stdlib Require Import ZArith List Lia String Ascii.
From Stdlib.Strings Require Import Byte.
From stdpp Require Import base list gmap strings.

Local Open Scope Z_scope.

(** ** Constants of [main.go] *)

(** [generateBoundary]: the SHA-512 digest of the string "boundary"
    (the value of [sha512.Sum512([]byte("boundary"))], 64 bytes). *)
Definition generateBoundary : list byte :=
  [x29; xa0; x2e; xd9; xe7; xd8; x23; x52; x58; x2a; x95; xd0; x47; xcc; x25; x11;
   x13; x13; x0d; x37; x69; x29; xf6; xbc; x70; x93; x7a; x84; xc4; x99; x3a; x99;
   x52; x75; x05; xf5; x24; xdf; x76; x6c; x34; x5d; xa5; x09; x34; x00; xd9; x5a;
   xf9; x6d; x4a; x56; x32; xe1; x40; x66; x26; x0f; x12; xa9; x7a; xa6; x7a; x43].

Definition keyLength : Z := 16.

(** [const maxBoundaryOffset = 100e6] *)
Definition maxBoundaryOffset : Z := 100000000.

(** [const scanBlockSize = 128*1024] *)
Definition scanBlockSize : Z := 128 * 1024.

(** The placeholder [create] writes for the length, as [parseSelf] tests it. *)
Definition sentinelSize : Z := 0xdeadbeefdeadbeef.

(** ** Byte-level library functions *)

(** [bytes.bytes_HasPrefix] *)
Fixpoint bytes_HasPrefix (s sep : list byte) {struct sep} : bool :=
  match sep, s with
  | [], _ => true
  | _ :: _, [] => false
  | b :: sep', c :: s' => if Byte.eqb b c then bytes_HasPrefix s' sep' else false
  end.

(** [bytes.bytes_Index]: the offset of the first occurrence of [sep] in [s],
    [-1] when there is none. *)
Fixpoint bytes_Index (s sep : list byte) : Z :=
  if bytes_HasPrefix s sep then 0
  else match s with
       | [] => -1
       | _ :: s' => let r := bytes_Index s' sep in if r <? 0 then -1 else r + 1
       end.

(** [binary.LittleEndian.Uint64] on the first eight bytes of [b];
    a missing byte counts as zero (the callers pass eight). *)
Fixpoint leValue (b : list byte) : Z :=
  match b with
  | [] => 0
  | x :: b' => Z.of_N (Byte.to_N x) + 256 * leValue b'
  end.

Definition Uint64 (b : list byte) : Z :=
  match b with
  | b0 :: b1 :: b2 :: b3 :: b4 :: b5 :: b6 :: b7 :: _ =>
      leValue [b0; b1; b2; b3; b4; b5; b6; b7]
  | _ => leValue b
  end.

Definition byteOfZ (v : Z) : byte :=
  match Byte.of_N (Z.to_N (v mod 256)) with
  | Some b => b
  | None => x00
  end.

Fixpoint leBytes (n : nat) (v : Z) : list byte :=
  match n with
  | O => []
  | S n' => byteOfZ v :: leBytes n' (v / 256)
  end.

(** [binary.LittleEndian.PutUint64] into a fresh eight-byte buffer;
    [uint64(v)] is [v mod 2^64]. *)
Definition PutUint64 (v : Z) : list byte := leBytes 8 (v mod 2 ^ 64).

(** [int64(x)] for a [uint64] [x]. *)
Definition int64 (x : Z) : Z := if x <? 2 ^ 63 then x else x - 2 ^ 64.

(** ** Slices with Go's [int] indices *)

(** [len(l)] *)
Fixpoint lenZ {A} (l : list A) : Z :=
  match l with
  | [] => 0
  | _ :: l' => 1 + lenZ l'
  end.

(** [l[:n]], clipped to the length of [l] *)
Fixpoint takeZ {A} (n : Z) (l : list A) : list A :=
  match l with
  | [] => []
  | x :: l' => if n <=? 0 then [] else x :: takeZ (n - 1) l'
  end.

(** [l[n:]], clipped to the length of [l] *)
Fixpoint dropZ {A} (n : Z) (l : list A) : list A :=
  match l with
  | [] => []
  | _ :: l' => if n <=? 0 then l else dropZ (n - 1) l'
  end.

(** ** Files: [io.ReadSeeker] on a regular file *)

(** A regular file opened for reading: its bytes, the cursor, and, to make
    the I/O error paths reachable, an offset from which the medium cannot be
    read ([None]: every read succeeds). *)
Record File := mkFile {
  content : list byte;
  offset : Z;
  fault : option Z
}.

Definition openFile (data : list byte) : File :=
  {| content := data; offset := 0; fault := None |}.

Inductive ReadResult :=
| ReadOk (buf : list byte) (self : File)   (* n > 0, err == nil; buf is buf[:n] *)
| ReadEOF                                 (* n == 0, err == io.EOF *)
| ReadErr.                                (* any other error *)

Definition unreadable (f : File) (len : Z) : bool :=
  match fault f with
  | Some e => e <? offset f + len
  | None => false
  end.

(** [f.Read(buf)] with [len(buf) = len]: a regular file delivers
    [min(len, remaining)] bytes, and [io.EOF] once nothing remains. *)
Definition Read (f : File) (len : Z) : ReadResult :=
  if offset f <? 0 then ReadErr
  else if lenZ (content f) <=? offset f then ReadEOF
  else if unreadable f len then ReadErr
  else
    let buf := takeZ len (dropZ (offset f) (content f)) in
    ReadOk buf {| content := content f;
                  offset := offset f + lenZ buf;
                  fault := fault f |}.

(** [f.Seek(off, os.SEEK_SET)]; a negative offset is an error, which the
    callers ignore, and leaves the cursor where it was. *)
Definition Seek (f : File) (off : Z) : File :=
  if off <? 0 then f
  else {| content := content f; offset := off; fault := fault f |}.

(** [io.LimitReader(r, n)] *)
Record LimitedReader := LimitReader { R : File; N : Z }.

(** [io.ReadAll] on a limited reader over a readable file: at most [N]
    bytes from the cursor on, none when [N <= 0]. *)
Definition ReadAllLimited (l : LimitedReader) : list byte :=
  takeZ (N l) (dropZ (offset (R l)) (content (R l))).

(** ** [parseSelf] *)

(** How the [for] loop of [parseSelf] is left. *)
Inductive LoopExit :=
| LoopBreak (self : File) (bdyOff : Z) (bufFull : bool)
| LoopDie (self : File)
| LoopFuel.

(** The scanning loop.  [fuel] bounds the number of iterations; an
    iteration that continues has read a block, so one iteration per block
    of the file and two more are always enough ([scanLoop_total]). *)
Fixpoint scanLoop (fuel : nat) (self : File) (bdyOff : Z) : LoopExit :=
  match fuel with
  | O => LoopFuel
  | S fuel' =>
      match Read self scanBlockSize with
      | ReadEOF => LoopBreak self bdyOff true
      | ReadErr => LoopDie self
      | ReadOk buf self' =>
          let bOff := bytes_Index buf generateBoundary in
          if 0 <=? bOff then LoopBreak self' (bdyOff + bOff) false
          else scanLoop fuel' self' (bdyOff + scanBlockSize)
      end
  end.

Definition scanFuel (self : File) : nat :=
  S (S (Z.to_nat (lenZ (content self) / scanBlockSize))).

Inductive SelfResult :=
| NoPayload (self : File)                         (* return nil, nil *)
| Payload (reader : LimitedReader) (key : list byte)
| Died (msg : string) (self : File)               (* die(...) *)
| Diverged.

(** The buffer of a fresh [make([]byte, n)] after a read delivered [got]. *)
Definition filled (n : Z) (got : list byte) : list byte :=
  takeZ n (got ++ replicate (Z.to_nat (n - lenZ got)) x00).

Definition parseSelf (self : File) : SelfResult :=
  match scanLoop (scanFuel self) self 0 with
  | LoopFuel => Diverged
  | LoopDie self' => Died "reading itself:" self'
  | LoopBreak self' bdyOff bufFull =>
      if bufFull then NoPayload self'
      else
        let self2 := Seek self' (bdyOff + lenZ generateBoundary) in
        match Read self2 (keyLength + 8) with
        | ReadOk got self3 =>
            let buf := filled (keyLength + 8) got in
            let key := takeZ keyLength buf in
            let rawValue := Uint64 (takeZ 8 (dropZ keyLength buf)) in
            if rawValue =? sentinelSize then Died "Invalid archive size." self3
            else
              let payloadSize := int64 rawValue in
              Payload (LimitReader self3 payloadSize) key
        | _ => Died "failed to read additional data from executable" self2
        end
  end.

(** ** Notions used in the statements about the scanner *)

(** A readable file with contents [c] and its cursor at [o]. *)
Definition fileAt (c : list byte) (o : Z) : File :=
  {| content := c; offset := o; fault := None |}.

(** [n] zero bytes. *)
Definition zeros (n : Z) : list byte := replicate (Z.to_nat n) x00.

(** No proper suffix of [sep] is a prefix of [sep]: two occurrences of
    [sep] cannot overlap. *)
Definition borderFree (sep : list byte) : bool :=
  forallb (fun j => negb (bytes_HasPrefix sep (drop j sep)))
          (seq 1 (length sep - 1)).

(** A sixteen-byte key and a three-byte payload for the examples. *)
Definition sampleKey : list byte := replicate 16 x01.
Definition samplePayload : list byte := [x0a; x0b; x0c].

(** The archive envelope: stub, marker, key, length, payload. *)
Definition envelope (stub key : list byte) (len : Z) (payload : list byte) : list byte :=
  stub ++ generateBoundary ++ key ++ PutUint64 len ++ payload.

(** An archive whose stub ends 32 bytes before the end of the first read
    block, so that the marker lies across the first two blocks. *)
Definition straddleArchive : list byte :=
  envelope (zeros (scanBlockSize - 32)) sampleKey 3 samplePayload.

(** A stub of 764 full read blocks: the marker starts at offset
    100139008, past [maxBoundaryOffset]. *)
Definition farArchive : list byte :=
  envelope (zeros (764 * scanBlockSize)) sampleKey 3 samplePayload.

(** The eight bytes [create] writes where the length will go:
    ["\xef\xbe\xad\xde\xef\xbe\xad\xde"]. *)
Definition sizePlaceholder : list byte :=
  [xef; xbe; xad; xde; xef; xbe; xad; xde].


(** ** Strings *)

(** [strings.Split(s, sep)] for a one-character separator. *)
Fixpoint strings_Split (s : string) (sep : ascii) : list string :=
  match s with
  | EmptyString => [""%string]
  | String c s' =>
      if Ascii.eqb c sep then ""%string :: strings_Split s' sep
      else match strings_Split s' sep with
           | h :: t => String c h :: t
           | [] => [String c ""]
           end
  end.

(** [strings.HasPrefix(s, prefix)] *)
Definition strings_HasPrefix (s pre : string) : bool := String.prefix pre s.

(** [strings.HasSuffix(s, suffix)] *)
Definition strings_HasSuffix (s suf : string) : bool :=
  let n := String.length s in
  let m := String.length suf in
  (m <=? n)%nat && String.eqb (String.substring (n - m) m s) suf.

(** [slices.Contains] on strings *)
Definition slices_Contains (l : list string) (x : string) : bool :=
  existsb (String.eqb x) l.

(** [len(s)] of a string, in bytes. *)
Definition lenS (s : string) : Z := Z.of_nat (String.length s).

(** ** Paths and the file system *)

(** A path is resolved to the list of its components below the root.
    The working directory is the root, and resolution is lexical, as
    [filepath.Clean] does it on a rooted path: empty components and ["."]
    are dropped, [".."] removes the component before it and is dropped at
    the root.  Symbolic links are nodes of their own and are not followed. *)
Definition cleanStep (stack : list string) (c : string) : list string :=
  if String.eqb c "" || String.eqb c "." then stack
  else if String.eqb c ".." then tail stack
  else c :: stack.

Definition resolve (name : string) : list string :=
  rev (fold_left cleanStep (strings_Split name "/") []).

(** [filepath.Join(a, b)], without the lexical cleaning of the result:
    every use of the result goes through [resolve], which cleans. *)
Definition filepath_Join (a b : string) : string :=
  if String.eqb a "" then b
  else if String.eqb b "" then a
  else (a ++ "/" ++ b)%string.

Fixpoint joinSlash (l : list string) : string :=
  match l with
  | [] => ""%string
  | [c] => c
  | c :: l' => (c ++ "/" ++ joinSlash l')%string
  end.

(** One step of [filepath.Clean] proper: on a relative path the leading
    [".."] components stay. *)
Definition cleanRelStep (rooted : bool) (stack : list string) (c : string) : list string :=
  if String.eqb c "" || String.eqb c "." then stack
  else if String.eqb c ".." then
    match stack with
    | top :: rest => if String.eqb top ".." then c :: stack else rest
    | [] => if rooted then [] else [c]
    end
  else c :: stack.

(** [filepath.Clean(name)] *)
Definition filepath_Clean (name : string) : string :=
  let rooted := strings_HasPrefix name "/" in
  let comps := rev (fold_left (cleanRelStep rooted) (strings_Split name "/") []) in
  if rooted then ("/" ++ joinSlash comps)%string
  else match comps with
       | [] => "."%string
       | _ => joinSlash comps
       end.

(** The permission bits [0666] and [0755]. *)
Definition mode0666 : Z := 438.
Definition mode0755 : Z := 493.

Inductive node :=
| Dir
| Reg (data : list byte) (mode : Z)
| Symlink (target : string).

(** The file system: the nodes below the root, by resolved path.  The root
    itself is always a directory.  Permissions are recorded, not enforced. *)
Abbreviation FS := (gmap (list string) node).

Definition lookupNode (fs : FS) (p : list string) : option node :=
  match p with
  | [] => Some Dir
  | _ => fs !! p
  end.

Definition parentOf (p : list string) : list string := removelast p.

Definition parentIsDir (fs : FS) (p : list string) : bool :=
  match lookupNode fs (parentOf p) with
  | Some Dir => true
  | _ => false
  end.

(** [os.Stat(name)]: the node, [None] for the error. *)
Definition os_Stat (fs : FS) (name : string) : option node :=
  lookupNode fs (resolve name).

(** [os.MkdirAll] on a resolved path: the file system it leaves, and
    whether it succeeded (it fails at a component that is not a directory,
    keeping the directories made so far). *)
Fixpoint mkdirAll (fs : FS) (done todo : list string) : FS * bool :=
  match todo with
  | [] => (fs, true)
  | c :: todo' =>
      let p := (done ++ [c])%list in
      match lookupNode fs p with
      | None => mkdirAll (<[p := Dir]> fs) p todo'
      | Some Dir => mkdirAll fs p todo'
      | Some _ => (fs, false)
      end
  end.

(** [os.MkdirAll(name, 0755)] *)
Definition os_MkdirAll (fs : FS) (name : string) : FS * bool :=
  mkdirAll fs [] (resolve name).

(** The names of the entries of the directory at [p]. *)
Definition entryNames (fs : FS) (p : list string) : list string :=
  omap (fun '(q, _) =>
          if bool_decide (q <> [] /\ parentOf q = p) then last q else None)
       (map_to_list fs).

(** [os.ReadDir(name)] *)
Definition os_ReadDir (fs : FS) (name : string) : option (list string) :=
  match lookupNode fs (resolve name) with
  | Some Dir => Some (entryNames fs (resolve name))
  | _ => None
  end.

Inductive FileData :=
| Data (data : list byte)   (* os.Open and io.ReadAll succeed *)
| OpenError                 (* os.Open fails *)
| ReadError.                (* os.Open succeeds, io.ReadAll fails: a directory *)

(** [os.Open(name)] followed by [io.ReadAll] *)
Definition readFile (fs : FS) (name : string) : FileData :=
  match lookupNode fs (resolve name) with
  | Some (Reg data _) => Data data
  | Some Dir => ReadError
  | _ => OpenError
  end.

(** [os.RemoveAll(name)]: the node and everything below it; never fails
    here. *)
Definition os_RemoveAll (fs : FS) (name : string) : FS :=
  filter (fun '(q, _) => ~ resolve name `prefix_of` q) fs.

(** [os.Create(name)], and [os.OpenFile(name, O_WRONLY|O_CREATE|O_TRUNC,
    0666)]: an existing regular file is emptied and keeps its mode, a new
    one needs its directory to exist. *)
Definition os_Create (fs : FS) (name : string) : option FS :=
  let p := resolve name in
  if parentIsDir fs p then
    match lookupNode fs p with
    | Some (Reg _ mode) => Some (<[p := Reg [] mode]> fs)
    | Some _ => None
    | None => Some (<[p := Reg [] mode0666]> fs)
    end
  else None.

(** [os.Mkdir(name, 0755)] *)
Definition os_Mkdir (fs : FS) (name : string) : option FS :=
  let p := resolve name in
  match lookupNode fs p with
  | Some _ => None
  | None => if parentIsDir fs p then Some (<[p := Dir]> fs) else None
  end.

(** [os.Symlink(target, name)] *)
Definition os_Symlink (fs : FS) (target name : string) : option FS :=
  let p := resolve name in
  match lookupNode fs p with
  | Some _ => None
  | None => if parentIsDir fs p then Some (<[p := Symlink target]> fs) else None
  end.

(** Writing [data] at offset [pos] of a file with contents [c]. *)
Definition writeAt (c : list byte) (pos : Z) (data : list byte) : list byte :=
  (takeZ pos c ++ replicate (Z.to_nat (pos - lenZ c)) x00 ++ data
   ++ dropZ (pos + lenZ data) c)%list.

(** An open, writable file: its resolved path and its cursor. *)
Record Handle := mkHandle { hpath : list string; hpos : Z }.

(** [f.Write(data)] *)
Definition f_Write (fs : FS) (f : Handle) (data : list byte) : FS * Handle :=
  match fs !! hpath f with
  | Some (Reg c mode) =>
      (<[hpath f := Reg (writeAt c (hpos f) data) mode]> fs,
       {| hpath := hpath f; hpos := hpos f + lenZ data |})
  | _ => (fs, f)
  end.

(** [f.Chmod(mode)] *)
Definition f_Chmod (fs : FS) (f : Handle) (mode : Z) : FS :=
  match fs !! hpath f with
  | Some (Reg c _) => <[hpath f := Reg c mode]> fs
  | _ => fs
  end.

(** What a step that may [die] or panic leaves: a value, or the file
    system as it was when the process went down. *)
Inductive Result (A : Type) :=
| Ok (a : A)
| Fatal (msg : string) (fs : FS)     (* die(...): log.Fatalln *)
| Panicked (fs : FS).                (* a run-time panic *)
Arguments Ok {A} a.
Arguments Fatal {A} msg fs.
Arguments Panicked {A} fs.

(** ** [create]: the archive builder *)

(** [io.Copy(f, self)] reads [self] from its cursor to the end: the bytes,
    or [None] for a read error. *)
Definition readRest (self : File) : option (list byte) :=
  if offset self <? 0 then None
  else if unreadable self (lenZ (content self) - offset self) then None
  else Some (dropZ (offset self) (content self)).

Section Builder.

(** The tar writer on top of the zstd writer, fed by [fs.WalkDir] over
    the input paths, is an external codec: [tarZstd fs cd files] is what
    it sends to the output file, and the message of the [die] that cut
    the walk short, when one did. *)
Variable tarZstd : FS -> string -> list string -> list byte * option string.

(** [rand.Read]: the bytes delivered, [None] when the entropy source
    fails. *)
Variable entropy : option (list byte).

(** [generateRandomKey]: a buffer of [keyLength] bytes filled by
    [rand.Read]; [None] stands for its [die]. *)
Definition generateRandomKey : option (list byte) :=
  match entropy with
  | Some got => Some (filled keyLength got)
  | None => None
  end.

Definition create (fs : FS) (self : File) (key : list byte) (out : string)
    (files : list string) (cd : string) : Result FS :=
  if lenZ files =? 0 then Fatal "no files to archive" fs
  else
    match os_Create fs out with
    | None => Fatal "opening output file:" fs
    | Some fs1 =>
        let f := {| hpath := resolve out; hpos := 0 |} in
        match readRest self with
        | None => Fatal "writing stub to output file:" fs1
        | Some stub =>
            let '(fs2, f) := f_Write fs1 f stub in
            let '(fs3, f) := f_Write fs2 f generateBoundary in
            match generateRandomKey with
            | None => Fatal "generating random key:" fs3
            | Some rkey =>
                let '(fs4, f) := f_Write fs3 f rkey in
                let '(fs5, f) := f_Write fs4 f sizePlaceholder in
                let offset := hpos f in
                let '(zbytes, died) := tarZstd fs5 cd files in
                let '(fs6, f) := f_Write fs5 f zbytes in
                match died with
                | Some msg => Fatal msg fs6
                | None =>
                    let payload_end := hpos f in
                    (* f.Seek(offset-8, io.SeekStart) *)
                    let f := {| hpath := hpath f; hpos := offset - 8 |} in
                    let buffer := PutUint64 (payload_end - offset) in
                    let '(fs7, f) := f_Write fs6 f buffer in
                    Ok (f_Chmod fs7 f mode0755)
                end
            end
        end
    end.

End Builder.

(** A codec and an entropy source for the examples. *)
Definition sampleCodec (fs : FS) (cd : string) (files : list string)
  : list byte * option string := (samplePayload, None).

(** ** [checkExecutable]: the mount probe *)

(** What reading [/proc/mounts] gives. *)
Inductive ProcMounts :=
| ProcOpenError                (* os.Open fails *)
| ProcReadError                (* io.ReadAll fails *)
| ProcData (data : string).

(** A run of the probe: the boolean it returns, or the run-time panic of an
    index out of range. *)
Inductive Probe :=
| Verdict (executable : bool)
| IndexPanic.

(** One turn of the [for ... range] loop over the lines. *)
Inductive Turn :=
| Continue (mntp : string) (noexec : bool)
| Break (mntp : string) (noexec : bool)
| TurnPanic.

Definition withSeparator (mountpoint : string) : string :=
  if strings_HasSuffix mountpoint "/" then mountpoint
  else (mountpoint ++ "/")%string.

Definition probeEntry (path mntp : string) (noexec : bool) (entry : string) : Turn :=
  let fields := strings_Split entry " " in
  if lenZ fields <? 2 then Continue mntp noexec
  else
    match fields !! 1%nat, fields !! 3%nat with
    | Some mountpoint, Some options =>
        if lenS path <? lenS mountpoint then Continue mntp noexec
        else if String.eqb mountpoint path then
          Break mountpoint (slices_Contains (strings_Split options ",") "noexec")
        else
          let mountpoint := withSeparator mountpoint in
          if strings_HasPrefix path mountpoint then
            if lenS mntp <? lenS mountpoint then
              Continue mountpoint (slices_Contains (strings_Split options ",") "noexec")
            else Continue mntp noexec
          else Continue mntp noexec
    | _, _ => TurnPanic
    end.

Fixpoint probeLoop (path : string) (entries : list string) (mntp : string)
    (noexec : bool) : option (string * bool) :=
  match entries with
  | [] => Some (mntp, noexec)
  | entry :: rest =>
      match probeEntry path mntp noexec entry with
      | Continue mntp' noexec' => probeLoop path rest mntp' noexec'
      | Break mntp' noexec' => Some (mntp', noexec')
      | TurnPanic => None
      end
  end.

Definition newline : ascii := Ascii.ascii_of_nat 10.

Definition checkExecutable (proc : ProcMounts) (path : string) : Probe :=
  match proc with
  | ProcOpenError => Verdict false
  | ProcReadError => Verdict false
  | ProcData data =>
      match probeLoop path (strings_Split data newline) "" false with
      | Some (_, noexec) => Verdict (negb noexec)
      | None => IndexPanic
      end
  end.

(** *** The claim's words about the probe *)

(** The mount point and the options of a line of the mount table. *)
Definition entryMount (entry : string) : option (string * string) :=
  let fields := strings_Split entry " " in
  match fields !! 1%nat, fields !! 3%nat with
  | Some mountpoint, Some options => Some (mountpoint, options)
  | _, _ => None
  end.

(** A line of the table is usable when it has no second field (an empty
    line) or, like every line the kernel writes, at least four. *)
Definition usableLine (entry : string) : Prop :=
  lenZ (strings_Split entry " ") < 2 \/ 4 <= lenZ (strings_Split entry " ").

(** The entry's mount point is a path prefix of the candidate: it is the
    candidate, or, with the separator appended where it is missing, a
    prefix of it. *)
Definition entryMatches (path entry : string) : bool :=
  match entryMount entry with
  | Some (mountpoint, _) =>
      String.eqb mountpoint path || strings_HasPrefix path (withSeparator mountpoint)
  | None => false
  end.

(** The length of the entry's mount point, separator included. *)
Definition mountLength (entry : string) : Z :=
  match entryMount entry with
  | Some (mountpoint, _) => lenS (withSeparator mountpoint)
  | None => 0
  end.

Definition entryNoexec (entry : string) : bool :=
  match entryMount entry with
  | Some (_, options) => slices_Contains (strings_Split options ",") "noexec"
  | None => false
  end.

(** The synthetic table of the specification: [/] and [/tmp], only [/tmp]
    mounted [noexec]. *)
Definition sampleMounts : string :=
  String.concat (String newline "")
    ["/dev/sda1 / ext4 rw,relatime 0 0";
     "tmpfs /tmp tmpfs rw,nosuid,nodev,noexec 0 0";
     ""]%string.

(** The length of the entry's mount point as the table has it. *)
Definition mountPointLength (entry : string) : Z :=
  match entryMount entry with
  | Some (mountpoint, _) => lenS mountpoint
  | None => 0
  end.

(** Mount points as the kernel writes them: the root, or a non-empty path
    without a trailing separator. *)
Definition cleanMountPoint (entry : string) : Prop :=
  forall mountpoint options,
    entryMount entry = Some (mountpoint, options) ->
    mountpoint = "/"%string
    \/ (mountpoint <> ""%string /\ strings_HasSuffix mountpoint "/" = false).

(** ** The extraction directory: [prepareExtractDir] *)

Definition keyFileName : string := ".selfextract.key".

Definition hexDigit (n : BinNums.N) : ascii :=
  match String.get (N.to_nat n) "0123456789abcdef" with
  | Some c => c
  | None => "0"%char
  end.

(** [hex.EncodeToString] *)
Fixpoint hex_EncodeToString (src : list byte) : string :=
  match src with
  | [] => ""%string
  | b :: src' =>
      String (hexDigit (Byte.to_N b / 16))
        (String (hexDigit (Byte.to_N b mod 16)) (hex_EncodeToString src'))
  end.

(** White space for [strings.TrimSpace], within ASCII: tab, line feed,
    vertical tab, form feed, carriage return, space. *)
Definition isSpace (c : ascii) : bool :=
  let n := nat_of_ascii c in
  ((9 <=? n)%nat && (n <=? 13)%nat) || (n =? 32)%nat.

Fixpoint trimLeft (s : string) : string :=
  match s with
  | EmptyString => EmptyString
  | String c s' => if isSpace c then trimLeft s' else s
  end.

Fixpoint trimRight (s : string) : string :=
  match s with
  | EmptyString => EmptyString
  | String c s' =>
      match trimRight s' with
      | EmptyString => if isSpace c then EmptyString else String c EmptyString
      | r => String c r
      end
  end.

(** [strings.TrimSpace] *)
Definition strings_TrimSpace (s : string) : string := trimRight (trimLeft s).

(** What the process finds around it. *)
Record Env := mkEnv {
  envDir : string;                   (* os.Getenv(EnvDir) *)
  envExtractOnly : string;           (* os.Getenv(EnvExtractOnly) *)
  tempDirName : string;              (* os.TempDir() *)
  executableDir : option string;     (* filepath.Dir of os.Executable(), None: error *)
  procMounts : ProcMounts;           (* /proc/mounts *)
  tempSuffix : string;               (* the random part of an os.MkdirTemp name *)
  Args : list string                 (* os.Args *)
}.

Record selfExtractor := mkExtractor {
  extractDir : string;
  skipExtract : bool;
  tempDir : bool;
  payload : LimitedReader;
  key : list byte
}.

(** The [selfExtractor] literal of [extract(payload, key)]. *)
Definition newExtractor (payload : LimitedReader) (key : list byte) : selfExtractor :=
  {| extractDir := ""; skipExtract := false; tempDir := false;
     payload := payload; key := key |}.

(** [os.MkdirTemp(dir, pattern)], one attempt with the suffix of the
    environment. *)
Definition os_MkdirTemp (env : Env) (fs : FS) (dir pattern : string)
  : option (string * FS) :=
  let dir := if String.eqb dir "" then tempDirName env else dir in
  let name := filepath_Join dir (pattern ++ tempSuffix env) in
  match os_Mkdir fs name with
  | Some fs' => Some (name, fs')
  | None => None
  end.

(** [generateExtractDir], with the [die] of its caller on an error. *)
Definition generateExtractDir (env : Env) (fs : FS) : Result (string * FS) :=
  let tmp := tempDirName env in
  match executableDir env with
  | None => Fatal "Failed to retrieve current executable, refuse to continue." fs
  | Some pwd =>
      match checkExecutable (procMounts env) tmp with
      | IndexPanic => Panicked fs
      | Verdict true =>
          match os_MkdirTemp env fs "" "selfextract" with
          | Some r => Ok r
          | None => Fatal "creating temporary extraction directory:" fs
          end
      | Verdict false =>
          match checkExecutable (procMounts env) pwd with
          | IndexPanic => Panicked fs
          | Verdict true =>
              match os_MkdirTemp env fs pwd "selfextract" with
              | Some r => Ok r
              | None => Fatal "creating temporary extraction directory:" fs
              end
          | Verdict false =>
              Fatal "cannot find suitable directory for execution, please assign one manually." fs
          end
      end
  end.

(** [cleanupDir]: [None] for the error of [os.ReadDir]. *)
Definition cleanupDir (fs : FS) (dir : string) : option FS :=
  match os_ReadDir fs dir with
  | None => None
  | Some entries =>
      Some (fold_left (fun fs entry => os_RemoveAll fs (filepath_Join dir entry))
                      entries fs)
  end.

Definition withExtractDir (se : selfExtractor) (dir : string) (temp skip : bool)
  : selfExtractor :=
  {| extractDir := dir; skipExtract := skip; tempDir := temp;
     payload := payload se; key := key se |}.

Definition prepareExtractDir (env : Env) (se : selfExtractor) (fs : FS)
  : Result (selfExtractor * FS) :=
  let extractDir := envDir env in
  if String.eqb extractDir "" then
    match generateExtractDir env fs with
    | Ok (dir, fs') => Ok (withExtractDir se dir true (skipExtract se), fs')
    | Fatal msg fs' => Fatal msg fs'
    | Panicked fs' => Panicked fs'
    end
  else
    let se := withExtractDir se extractDir (tempDir se) (skipExtract se) in
    match os_Stat fs extractDir with
    | None =>
        match os_MkdirAll fs extractDir with
        | (fs', true) => Ok (se, fs')
        | (fs', false) => Fatal "creating extraction directory:" fs'
        end
    | Some stat =>
        match stat with
        | Dir =>
            match os_ReadDir fs extractDir with
            | None => Fatal "listing extraction dir:" fs
            | Some entries =>
                if lenZ entries =? 0 then Ok (se, fs)
                else
                  match readFile fs (filepath_Join extractDir keyFileName) with
                  | OpenError =>
                      Fatal "opening key file (extraction dir must be empty or contain a valid key file):" fs
                  | ReadError =>
                      Fatal "reading key file (extraction dir must be empty or contain a valid key file):" fs
                  | Data keyData =>
                      if String.eqb (hex_EncodeToString (key se))
                                    (strings_TrimSpace (string_of_list_byte keyData))
                      then Ok (withExtractDir se extractDir (tempDir se) true, fs)
                      else
                        match cleanupDir fs extractDir with
                        | None => Fatal "cleaning extraction dir:" fs
                        | Some fs' => Ok (se, fs')
                        end
                  end
            end
        | _ => Fatal "extraction directory not a directory" fs
        end
    end.

(** ** The extraction engine: [extract] *)

Record Header := mkHeader {
  Name : string;
  Typeflag : ascii;
  Mode : Z;
  Size : Z;
  Linkname : string
}.

Definition TypeReg : ascii := "0"%char.
Definition TypeDir : ascii := "5"%char.
Definition TypeSymlink : ascii := "2"%char.

(** What [tarRdr.Next()] delivers, with the contents that follow a
    header; the end of the list is [io.EOF]. *)
Inductive TarItem :=
| Entry (hdr : Header) (data : list byte)
| Corrupt.                                  (* any other error *)

(** [createFile]: the file system it leaves, and whether it succeeded.
    [path] comes from [filepath.Join], so that its [filepath.Dir] is the
    parent of the resolved path. *)
Definition createFile (fs : FS) (path : string) : FS * bool :=
  match mkdirAll fs [] (parentOf (resolve path)) with
  | (fs1, false) => (fs1, false)
  | (fs1, true) =>
      match os_Create fs1 path with
      | Some fs2 => (fs2, true)
      | None => (fs1, false)
      end
  end.

(** [cleanupAndDie] *)
Definition cleanupAndDie {A : Type} (fs : FS) (dir msg : string) : Result A :=
  match cleanupDir fs dir with
  | None => Fatal "got error: while cleaning up after:" fs
  | Some fs' => Fatal msg fs'
  end.

(** The loop of [extract] over the tar entries. *)
Fixpoint extractEntries (dir : string) (items : list TarItem) (fs : FS) : Result FS :=
  match items with
  | [] => Ok fs
  | Corrupt :: _ => Fatal "reading embedded tar:" fs
  | Entry hdr data :: rest =>
      let name := filepath_Clean (Name hdr) in
      if String.eqb name "." then extractEntries dir rest fs
      else
        let pathName := filepath_Join dir name in
        if Ascii.eqb (Typeflag hdr) TypeReg then
          match createFile fs pathName with
          | (fs1, false) => cleanupAndDie fs1 dir "creating file:"
          | (fs1, true) =>
              let f := {| hpath := resolve pathName; hpos := 0 |} in
              let '(fs2, f) := f_Write fs1 f data in    (* io.Copy(f, tarRdr) *)
              extractEntries dir rest (f_Chmod fs2 f (Mode hdr))
          end
        else if Ascii.eqb (Typeflag hdr) TypeDir then
          match os_Mkdir fs pathName with
          | None => cleanupAndDie fs dir "creating directory"
          | Some fs1 => extractEntries dir rest fs1
          end
        else if Ascii.eqb (Typeflag hdr) TypeSymlink then
          match os_Symlink fs (Linkname hdr) pathName with
          | None => cleanupAndDie fs dir "creating symlink"
          | Some fs1 => extractEntries dir rest fs1
          end
        else cleanupAndDie fs dir "unsupported file type in tar"
  end.

Definition createKeyFile (se : selfExtractor) (fs : FS) : Result FS :=
  let name := filepath_Join (extractDir se) keyFileName in
  match os_Create fs name with
  | None => Fatal "creating key file:" fs
  | Some fs1 =>
      let f := {| hpath := resolve name; hpos := 0 |} in
      Ok (fst (f_Write fs1 f (list_byte_of_string (hex_EncodeToString (key se)))))
  end.

Section Extraction.

(** The zstd reader under the tar reader is an external codec:
    [zstdTar bytes] is the sequence of calls of [tarRdr.Next()] on the
    payload [bytes], [None] when [zstd.NewReader] fails. *)
Variable zstdTar : list byte -> option (list TarItem).

(** The file-writing pass of [extract]: everything after the test of
    [skipExtract]. *)
Definition extractAll (se : selfExtractor) (fs : FS) : Result FS :=
  match zstdTar (ReadAllLimited (payload se)) with
  | None => Fatal "creating zstd reader:" fs
  | Some items =>
      match extractEntries (extractDir se) items fs with
      | Ok fs' => createKeyFile se fs'
      | r => r
      end
  end.

Definition extract (se : selfExtractor) (fs : FS) : Result FS :=
  if skipExtract se then Ok fs
  else extractAll se fs.

End Extraction.

(** ** Notions used in the statements about the extraction directory *)

(** A proper entry name: one path component, not empty, not ["."], not
    [".."]. *)
Definition validName (n : string) : Prop :=
  strings_Split n "/" = [n] /\ n <> ""%string /\ n <> "."%string /\ n <> ".."%string.

(** Every node of the file system sits at a path of proper names. *)
Definition properNames (fs : FS) : Prop :=
  forall q nd, fs !! q = Some nd -> Forall validName q.

Fixpoint noSpace (s : string) : bool :=
  match s with
  | EmptyString => true
  | String c s' => negb (isSpace c) && noSpace s'
  end.

(** An environment, a payload reader and a decoded payload for the
    examples: the directory [cache] is configured, the archive holds one
    regular file. *)
Definition sampleEnv : Env :=
  {| envDir := "cache"; envExtractOnly := ""; tempDirName := "/tmp";
     executableDir := Some "/opt"%string; procMounts := ProcData sampleMounts;
     tempSuffix := "1"; Args := ["app"%string] |}.

Definition sampleReader : LimitedReader :=
  LimitReader (fileAt (envelope (zeros 100) sampleKey 3 samplePayload) 188) 3.

Definition sampleTar (bytes : list byte) : option (list TarItem) :=
  Some [Entry {| Name := "run.sh"; Typeflag := TypeReg; Mode := mode0755;
                 Size := 2; Linkname := "" |} [x68; x69]].

(** The file system after the first run of the example. *)
Definition sampleExtracted : gmap (list string) node :=
  <[ ["cache"; ".selfextract.key"]%string :=
       Reg (list_byte_of_string (hex_EncodeToString sampleKey)) mode0666 ]>
  (<[ ["cache"; "run.sh"]%string := Reg [x68; x69] mode0755 ]>
   (<[ ["cache"%string] := Dir ]> ∅)).

(** The extraction of another archive, with another key, in [cache]. *)
Definition staleExtracted : gmap (list string) node :=
  <[ ["cache"; ".selfextract.key"]%string :=
       Reg (list_byte_of_string (hex_EncodeToString (replicate 16 x02))) mode0666 ]>
  (<[ ["cache"; "old.txt"]%string := Reg [x6f] mode0666 ]>
   (<[ ["cache"%string] := Dir ]> ∅)).

(** ** The lifecycle controller: [startup] and [runCmdline] *)

(** [strings.ToLower], within ASCII. *)
Definition lowerAscii (c : ascii) : ascii :=
  let n := nat_of_ascii c in
  if (65 <=? n)%nat && (n <=? 90)%nat then ascii_of_nat (n + 32) else c.

Fixpoint strings_ToLower (s : string) : string :=
  match s with
  | EmptyString => EmptyString
  | String c s' => String (lowerAscii c) (strings_ToLower s')
  end.

Definition isTruthy (s : string) : bool :=
  let l := strings_ToLower s in
  String.eqb l "y" || String.eqb l "yes" || String.eqb l "true" || String.eqb l "1".

(** [strings.ReplaceAll(s, old, new)] for a non-empty [old]: [skip]
    counts the characters of a replaced occurrence still to pass. *)
Fixpoint replaceFrom (old new : string) (skip : nat) (s : string) : string :=
  match s with
  | EmptyString => EmptyString
  | String c s' =>
      match skip with
      | S k => replaceFrom old new k s'
      | O =>
          if String.prefix old s
          then (new ++ replaceFrom old new (String.length old - 1) s')%string
          else String c (replaceFrom old new 0 s')
      end
  end.

Definition strings_ReplaceAll (s old new : string) : string :=
  if String.eqb old "" then s else replaceFrom old new 0 s.

(** *** [shlex.Split]

    The tokenizer of github.com/google/shlex, a library outside the
    repository, after its state machine: words are separated by blanks,
    single quotes quote literally, double quotes quote with backslash
    escapes, a backslash escapes the next character, [#] at the start of a
    token opens a comment that runs to the end of the line.  The text is
    taken character by character, as the library takes valid UTF-8. *)
Inductive LexState :=
| startState | inWordState | escapingState | escapingQuotedState
| quotingEscapingState | quotingState | commentState.

(** The double quote character. *)
Definition doubleQuote : ascii := Ascii.ascii_of_nat 34.

Definition isBlank (c : ascii) : bool :=
  let n := nat_of_ascii c in
  (n =? 32)%nat || (n =? 9)%nat || (n =? 13)%nat || (n =? 10)%nat.

Definition snoc (value : string) (c : ascii) : string :=
  (value ++ String c EmptyString)%string.

(** [lex s state value words]: [value] is the token under way, [words] the
    words delivered so far; [None] is the error of an unfinished quote or
    escape. *)
Fixpoint lex (s : string) (state : LexState) (value : string) (words : list string)
  : option (list string) :=
  match s with
  | EmptyString =>
      match state with
      | startState => Some words
      | inWordState => Some (words ++ [value])%list
      | commentState => Some words
      | _ => None
      end
  | String c s' =>
      match state with
      | startState =>
          if isBlank c then lex s' startState value words
          else if Ascii.eqb c doubleQuote then lex s' quotingEscapingState EmptyString words
          else if Ascii.eqb c "'" then lex s' quotingState EmptyString words
          else if Ascii.eqb c "\" then lex s' escapingState EmptyString words
          else if Ascii.eqb c "#" then lex s' commentState EmptyString words
          else lex s' inWordState (String c EmptyString) words
      | inWordState =>
          if isBlank c then lex s' startState EmptyString (words ++ [value])%list
          else if Ascii.eqb c doubleQuote then lex s' quotingEscapingState value words
          else if Ascii.eqb c "'" then lex s' quotingState value words
          else if Ascii.eqb c "\" then lex s' escapingState value words
          else lex s' inWordState (snoc value c) words
      | escapingState => lex s' inWordState (snoc value c) words
      | escapingQuotedState => lex s' quotingEscapingState (snoc value c) words
      | quotingEscapingState =>
          if Ascii.eqb c doubleQuote then lex s' inWordState value words
          else if Ascii.eqb c "\" then lex s' escapingQuotedState value words
          else lex s' quotingEscapingState (snoc value c) words
      | quotingState =>
          if Ascii.eqb c "'" then lex s' inWordState value words
          else lex s' quotingState (snoc value c) words
      | commentState =>
          if Ascii.eqb c newline then lex s' startState EmptyString words
          else lex s' commentState (snoc value c) words
      end
  end.

Definition shlex_Split (s : string) : option (list string) :=
  lex s startState EmptyString [].

(** How [cmd.Run()] ends. *)
Inductive ChildResult :=
| Exited (code : Z)     (* the child ran and exited: nil for 0, else an ExitError *)
| Killed                (* an ExitError without exit status: ExitCode() is -1 *)
| StartError.           (* any other error: the child did not start *)

(** What the [startup] goroutine comes to. *)
Inductive Report :=
| Send (code : Z)       (* se.exitCode <- code *)
| Dies (msg : string)   (* die(...): the process exits with status 1 *)
| Panics.               (* a run-time panic: the process exits with status 2 *)

Definition cmdlineName : string := "selfextract_cmdline".
Definition placeholder : string := "__EXTRACT_DIR__".

Section Lifecycle.

(** [exec.Command(args[0], args[1:]...)] with the standard streams passed
    through, and [cmd.Run()]: the child is outside the program.  The first
    argument is the value of [EnvDir] that [startup] has exported. *)
Variable runChild : string -> list string -> ChildResult.

Definition runCmdline (env : Env) (se : selfExtractor) (fs : FS) (path : string) : Report :=
  match readFile fs path with
  | OpenError => Send 1
  | ReadError => Send 1
  | Data cmdbytes =>
      let cmdline := strings_TrimSpace (string_of_list_byte cmdbytes) in
      let cmdline := strings_ReplaceAll cmdline placeholder (extractDir se) in
      match shlex_Split cmdline with
      | None => Send 1
      | Some args =>
          match Args env with
          | [] => Panics                          (* os.Args[1:] *)
          | _ :: rest =>
              let args := (args ++ rest)%list in
              match args with
              | [] => Panics                      (* args[0] *)
              | arg0 :: args' =>
                  match runChild (extractDir se) (arg0 :: args') with
                  | Exited code => Send code
                  | Killed => Send (-1)
                  | StartError => Send 1
                  end
              end
          end
      end
  end.

Definition startup (env : Env) (se : selfExtractor) (fs : FS) : Report :=
  if isTruthy (envExtractOnly env) then Send 0
  else
    let cmdlinePath := filepath_Join (extractDir se) cmdlineName in
    match os_Stat fs cmdlinePath with
    | Some _ => runCmdline env se fs cmdlinePath
    | None => Dies "failed to find cmdline file, quitting..."
    end.

End Lifecycle.

(** An extracted directory whose command line file is empty, one whose
    command line names a program, and a child that exits with status 7. *)
Definition emptyCmdline : gmap (list string) node :=
  <[ ["cache"; "selfextract_cmdline"]%string := Reg [] mode0666 ]> sampleExtracted.

Definition sampleCmdline : gmap (list string) node :=
  <[ ["cache"; "selfextract_cmdline"]%string :=
       Reg (list_byte_of_string "__EXTRACT_DIR__/run.sh --fast") mode0666 ]>
  sampleExtracted.

Definition sampleExtractor : selfExtractor :=
  withExtractDir (newExtractor sampleReader sampleKey) "cache" false false.

Definition childExits7 (dir : string) (args : list string) : ChildResult := Exited 7.

(** ** The race for the exit code: [extract(payload, key)]

    Three tasks share the unbuffered channel [se.exitCode]: the goroutine
    of [setupSignals], the goroutine of [startup], and [main], its only
    receiver.  A sender blocks in the channel's queue until [main] takes
    its value; [main] receives once, runs [cleanup] and exits with what it
    received.  A [die] or a panic in any task ends the process at once. *)

Inductive Task := SignalTask | StartupTask.

(** The goroutine of [setupSignals]: blocked on [<-c], asleep for the
    grace period, about to send, blocked on the send. *)
Inductive SigState := SigWaiting | SigSleeping | SigReady | SigBlocked.

(** The goroutine of [startup]: not spawned yet, running, blocked on its
    send. *)
Inductive StartState := StartUnborn | StartRunning | StartBlocked.

(** [main]: in [prepareExtractDir] and [extract], blocked on the receive,
    in [cleanup] with the value received, exited. *)
Inductive MainState :=
| MainBusy
| MainReceiving
| MainCleaning (exit : Z)
| MainExited (code : Z).

Record Config := mkConfig {
  sigG : SigState;
  startG : StartState;
  sendq : list (Task * Z);
  mainG : MainState
}.

Inductive Event :=
| Signal                         (* a registered signal arrives *)
| GraceElapsed                   (* time.Sleep(grace) returns *)
| Spawn                          (* go se.startup() *)
| SendBy (who : Task) (v : Z)    (* a task reaches se.exitCode <- v *)
| Receive (who : Task) (v : Z)   (* exit := <-se.exitCode *)
| ExitWith (v : Z)               (* os.Exit(exit), after se.cleanup() *)
| Down (code : Z).               (* die or panic: the process exits at once *)

#[global] Instance Task_eq_dec : EqDecision Task.
Proof. solve_decision. Defined.

#[global] Instance Event_eq_dec : EqDecision Event.
Proof. solve_decision. Defined.

Definition exited (c : Config) : bool :=
  match mainG c with
  | MainExited _ => true
  | _ => false
  end.

Definition alive (c : Config) : Prop := exited c = false.

Definition withMain (c : Config) (m : MainState) : Config :=
  {| sigG := sigG c; startG := startG c; sendq := sendq c; mainG := m |}.

Definition withSig (c : Config) (g : SigState) : Config :=
  {| sigG := g; startG := startG c; sendq := sendq c; mainG := mainG c |}.

Definition initial : Config :=
  {| sigG := SigWaiting; startG := StartUnborn; sendq := []; mainG := MainBusy |}.

(** One step of the process; [grace] is the grace period, [report] what
    the [startup] goroutine comes to. *)
Inductive step (grace : Z) (report : Report) : Config -> Event -> Config -> Prop :=
| step_signal c :
    alive c -> sigG c = SigWaiting ->
    step grace report c Signal
      (withSig c (if grace =? 0 then SigReady else SigSleeping))
| step_grace c :
    alive c -> sigG c = SigSleeping ->
    step grace report c GraceElapsed (withSig c SigReady)
| step_signal_send c :
    alive c -> sigG c = SigReady ->
    step grace report c (SendBy SignalTask 2)
      {| sigG := SigBlocked; startG := startG c;
         sendq := (sendq c ++ [(SignalTask, 2)])%list; mainG := mainG c |}
| step_setup_dies c :
    mainG c = MainBusy ->
    step grace report c (Down 1) (withMain c (MainExited 1))
| step_spawn c :
    mainG c = MainBusy ->
    step grace report c Spawn
      {| sigG := sigG c; startG := StartRunning; sendq := sendq c;
         mainG := MainReceiving |}
| step_startup_send c v :
    alive c -> startG c = StartRunning -> report = Send v ->
    step grace report c (SendBy StartupTask v)
      {| sigG := sigG c; startG := StartBlocked;
         sendq := (sendq c ++ [(StartupTask, v)])%list; mainG := mainG c |}
| step_startup_dies c msg :
    alive c -> startG c = StartRunning -> report = Dies msg ->
    step grace report c (Down 1) (withMain c (MainExited 1))
| step_startup_panics c :
    alive c -> startG c = StartRunning -> report = Panics ->
    step grace report c (Down 2) (withMain c (MainExited 2))
| step_receive c who v q :
    mainG c = MainReceiving -> sendq c = (who, v) :: q ->
    step grace report c (Receive who v)
      {| sigG := sigG c; startG := startG c; sendq := q; mainG := MainCleaning v |}
| step_exit c v :
    mainG c = MainCleaning v ->
    step grace report c (ExitWith v) (withMain c (MainExited v)).

(** Runs, with the events in the order they happened. *)
Inductive exec (grace : Z) (report : Report) : Config -> list Event -> Config -> Prop :=
| exec_nil c : exec grace report c [] c
| exec_step c1 tr c2 e c3 :
    exec grace report c1 tr c2 -> step grace report c2 e c3 ->
    exec grace report c1 (tr ++ [e]) c3.

(** The reports of a run, in the order the tasks reached their sends. *)
Fixpoint sends (tr : list Event) : list (Task * Z) :=
  match tr with
  | [] => []
  | SendBy who v :: tr' => (who, v) :: sends tr'
  | _ :: tr' => sends tr'
  end.

(** [e1] happened before [e2]. *)
Definition before (e1 e2 : Event) (tr : list Event) : Prop :=
  exists a b c, tr = (a ++ e1 :: b ++ e2 :: c)%list.

(** What holds of every run from [initial]. *)
Definition raceInvariant (grace : Z) (report : Report) (tr : list Event) (c : Config)
  : Prop :=
  (mainG c = MainBusy \/ mainG c = MainReceiving ->
   sendq c = sends tr /\ (forall who v, ~ In (Receive who v) tr)) /\
  (forall who v, In (Receive who v) tr -> head (sends tr) = Some (who, v)) /\
  (forall v, mainG c = MainCleaning v -> exists who, In (Receive who v) tr) /\
  (forall v, In (ExitWith v) tr ->
     mainG c = MainExited v /\ exists who, In (Receive who v) tr) /\
  (sigG c = SigSleeping -> In Signal tr /\ grace <> 0) /\
  (sigG c = SigReady -> In Signal tr /\ (grace <> 0 -> In GraceElapsed tr)) /\
  (forall v, In (SendBy SignalTask v) tr ->
     v = 2 /\ before Signal (SendBy SignalTask 2) tr /\
     (grace <> 0 -> before GraceElapsed (SendBy SignalTask 2) tr)) /\
  (forall v, In (SendBy StartupTask v) tr -> report = Send v).

(** The path of the command line file of an extractor. *)
Definition cmdlinePath (se : selfExtractor) : string :=
  filepath_Join (extractDir se) cmdlineName.

(** The line of the command line file as it is tokenized. *)
Definition substituted (se : selfExtractor) (cmdbytes : list byte) : string :=
  strings_ReplaceAll (strings_TrimSpace (string_of_list_byte cmdbytes))
                     placeholder (extractDir se).


(** ** Notions used in the statements about occurrences of the marker *)

(** The marker lies in [data] at offset [p]. *)
Definition markerAt (data : list byte) (p : Z) : bool :=
  bytes_HasPrefix (dropZ p data) generateBoundary.

(** An occurrence at offset [p] lies within one read block: the marker
    has 64 bytes. *)
Definition inOneBlock (p : Z) : bool := p mod scanBlockSize + 64 <=? scanBlockSize.


(** ** [main]: the choice between the two modes *)

(** What [main] comes to: it runs the archive it found in itself, it
    builds one, or it dies while reading itself. *)
Inductive MainMode :=
| RunsArchive (payload : LimitedReader) (key : list byte)   (* extract(payload, key) *)
| Builds (r : Result (gmap (list string) node))             (* create(...) *)
| MainDied (msg : string) (self : File)
| MainDiverged.

Section Main.

Variable tarZstd : gmap (list string) node -> string -> list string -> list byte * option string.
Variable entropy : option (list byte).

(** [main], with the parsed command line: [createName] is the value of
    [-f], [changeDir] the value of [-C], [files] are [flag.Args()].  The
    key that [parseSelf] returns with no payload is [nil]. *)
Definition main (fs : gmap (list string) node) (self : File) (createName : string)
    (files : list string) (changeDir : string) : MainMode :=
  match parseSelf self with
  | Payload payload key => RunsArchive payload key
  | NoPayload self' =>
      (* self.Seek(0, os.SEEK_SET) *)
      Builds (create tarZstd entropy fs (Seek self' 0) [] createName files changeDir)
  | Died msg self' => MainDied msg self'
  | Diverged => MainDiverged
  end.

End Main.


(** The messages of [create]'s own calls of [die] before the walk. *)
Definition beforeWalk (msg : string) : bool :=
  String.eqb msg "no files to archive" || String.eqb msg "opening output file:"
  || String.eqb msg "writing stub to output file:" || String.eqb msg "generating random key:".

(** ** [cleanup], and notions used in the statements about the directory *)

(** [cleanup] *)
Definition cleanup (se : selfExtractor) (fs : gmap (list string) node)
  : gmap (list string) node :=
  if tempDir se then os_RemoveAll fs (extractDir se) else fs.

(** Only white space, in the sense of [strings.TrimSpace]. *)
Fixpoint allSpace (s : string) : bool :=
  match s with
  | EmptyString => true
  | String c s' => isSpace c && allSpace s'
  end.


(** An environment with no configured directory: the temporary directory
    is mounted [noexec], the directory of the executable is not. *)
Definition tempEnv : Env :=
  {| envDir := ""; envExtractOnly := ""; tempDirName := "/tmp";
     executableDir := Some "/opt"%string; procMounts := ProcData sampleMounts;
     tempSuffix := "1"; Args := ["app"%string] |}.

(** ** Notions used in the statements about the extraction engine *)

(** The path at which [extract] creates the entry of a header; [None] for
    the entry named ["."], which it passes over. *)
Definition entryTarget (dir : string) (hdr : Header) : option (list string) :=
  let name := filepath_Clean (Name hdr) in
  if String.eqb name "." then None
  else Some (resolve (filepath_Join dir name)).

Definition targets (dir : string) (items : list TarItem) : list (list string) :=
  omap (fun item => match item with
                    | Entry hdr _ => entryTarget dir hdr
                    | Corrupt => None
                    end) items.


(** Every directory above [p], and [p] itself, is a directory of [fs]. *)
Definition dirsDownTo (fs : gmap (list string) node) (p : list string) : Prop :=
  forall q, q `prefix_of` p -> lookupNode fs q = Some Dir.




(** ** The grace period: [setupSignals] *)

(** What [strconv.ParseFloat(graceStr, 32)] returns: an error, or a
    floating-point value; a finite value is the fraction [num / den]. *)
Inductive ParsedFloat :=
| ParseError
| NotANumber
| Infinite (negative : bool)
| Finite (num : Z) (den : positive).

(** [time.Second], in nanoseconds. *)
Definition Second : Z := 1000000000.

(** [time.Duration(graceFl)] for a finite value: the fraction is
    discarded.  [None] when the value is not within the range of [int64],
    where the result of the conversion depends on the implementation. *)
Definition durationOf (num : Z) (den : positive) : option Z :=
  let t := Z.quot num (Z.pos den) in
  if (- 2 ^ 63 <=? t) && (t <? 2 ^ 63) then Some t else None.

(** The multiplication of two [int64] values wraps around. *)
Definition mul64 (a b : Z) : Z := int64 ((a * b) mod 2 ^ 64).

(** The grace period that [setupSignals] computes from the value of
    [SELFEXTRACT_GRACE_TIMEOUT], in nanoseconds; [None] when it depends on
    the implementation. *)
Definition graceOf (graceStr : string) (parsed : ParsedFloat) : option Z :=
  let grace := 10 * Second in
  if String.eqb graceStr "" then Some grace
  else
    match parsed with
    | ParseError => Some grace                     (* err != nil *)
    | NotANumber => Some grace                     (* NaN >= 0 is false *)
    | Infinite true => Some grace                  (* -Inf >= 0 is false *)
    | Infinite false => None                       (* time.Duration(+Inf) *)
    | Finite num den =>
        if 0 <=? num then
          match durationOf num den with
          | Some d => Some (mul64 d Second)
          | None => None
          end
        else Some grace
    end.

(** ** Notions used in the statements about [isTruthy] and the command line *)

(** The other case of an ASCII letter; other characters stay. *)
Definition flipCase (c : ascii) : ascii :=
  let n := nat_of_ascii c in
  if (65 <=? n)%nat && (n <=? 90)%nat then ascii_of_nat (n + 32)
  else if (97 <=? n)%nat && (n <=? 122)%nat then ascii_of_nat (n - 32)
  else c.

(** [s] with the case of the characters that [mask] selects changed. *)
Fixpoint recase (mask : list bool) (s : string) : string :=
  match s, mask with
  | String c s', true :: mask' => String (flipCase c) (recase mask' s')
  | String c s', false :: mask' => String c (recase mask' s')
  | _, _ => s
  end.

(** A character with no meaning for the tokenizer. *)
Definition plainChar (c : ascii) : bool :=
  negb (isBlank c) && negb (Ascii.eqb c doubleQuote) && negb (Ascii.eqb c "'")
  && negb (Ascii.eqb c "\") && negb (Ascii.eqb c "#").

(** A non-empty word of such characters. *)
Fixpoint plainChars (s : string) : bool :=
  match s with
  | EmptyString => true
  | String c s' => plainChar c && plainChars s'
  end.

Definition plainWord (s : string) : bool :=
  negb (String.eqb s "") && plainChars s.

(* ================================================================== *)
(** * Properties *)

(** ** The self-scanner *)

Lemma boundary_length : length generateBoundary = 64%nat.
Proof. reflexivity. Qed.

Lemma lenZ_length {A} (l : list A) : lenZ l = Z.of_nat (length l).
Proof. induction l as [|x l IH]; simpl length; cbn [lenZ]; lia. Qed.

Lemma takeZ_take {A} (n : Z) (l : list A) : takeZ n l = take (Z.to_nat n) l.
Proof.
  revert n; induction l as [|x l IH]; intros n; cbn [takeZ].
  - by rewrite take_nil.
  - destruct (Z.leb_spec n 0) as [Hn|Hn].
    + replace (Z.to_nat n) with 0%nat by lia. reflexivity.
    + replace (Z.to_nat n) with (S (Z.to_nat (n - 1))) by lia.
      simpl. by rewrite IH.
Qed.

Lemma dropZ_drop {A} (n : Z) (l : list A) : dropZ n l = drop (Z.to_nat n) l.
Proof.
  revert n; induction l as [|x l IH]; intros n; cbn [dropZ].
  - by rewrite drop_nil.
  - destruct (Z.leb_spec n 0) as [Hn|Hn].
    + replace (Z.to_nat n) with 0%nat by lia. reflexivity.
    + replace (Z.to_nat n) with (S (Z.to_nat (n - 1))) by lia.
      simpl. by rewrite IH.
Qed.

Lemma HasPrefix_short s sep :
  (length s < length sep)%nat -> bytes_HasPrefix s sep = false.
Proof.
  revert s; induction sep as [|b sep IH]; intros [|c s] Hlen; simpl in *; try lia; auto.
  destruct (Byte.eqb b c); auto. apply IH. lia.
Qed.

Lemma HasPrefix_app s more sep :
  bytes_HasPrefix s sep = true -> bytes_HasPrefix (s ++ more) sep = true.
Proof.
  revert s; induction sep as [|b sep IH]; intros [|c s]; simpl; auto; try discriminate.
  destruct (Byte.eqb b c); auto.
Qed.

Lemma HasPrefix_self sep more : bytes_HasPrefix (sep ++ more) sep = true.
Proof.
  induction sep as [|b sep IH]; simpl; auto.
  rewrite (byte_dec_lb (eq_refl b)). exact IH.
Qed.

Lemma HasPrefix_true_iff s sep :
  bytes_HasPrefix s sep = true <-> exists more, s = sep ++ more.
Proof.
  split.
  - revert s; induction sep as [|b sep IH]; intros s H.
    + exists s. reflexivity.
    + destruct s as [|c s]; simpl in H; [discriminate|].
      destruct (Byte.eqb b c) eqn:E; [|discriminate].
      apply byte_dec_bl in E. subst c.
      destruct (IH _ H) as [more ->]. exists more. reflexivity.
  - intros [more ->]. apply HasPrefix_self.
Qed.

Lemma Index_range s sep : -1 <= bytes_Index s sep <= Z.of_nat (length s).
Proof.
  induction s as [|c s IH]; simpl.
  - destruct (bytes_HasPrefix [] sep); lia.
  - destruct (bytes_HasPrefix (c :: s) sep); [lia|].
    destruct (Z.ltb_spec (bytes_Index s sep) 0); lia.
Qed.

Lemma Index_short s sep :
  (length s < length sep)%nat -> bytes_Index s sep = -1.
Proof.
  induction s as [|c s IH]; intros Hlen; simpl.
  - rewrite HasPrefix_short by exact Hlen. reflexivity.
  - rewrite HasPrefix_short by exact Hlen.
    rewrite IH by (simpl in Hlen; lia). reflexivity.
Qed.

(** Where [bytes_Index] is not negative, the separator stands at that offset. *)
Lemma Index_found s sep i :
  bytes_Index s sep = i -> 0 <= i -> bytes_HasPrefix (drop (Z.to_nat i) s) sep = true.
Proof.
  revert i; induction s as [|c s IH]; intros i Hi Hpos; simpl in Hi.
  - destruct (bytes_HasPrefix [] sep) eqn:E; [|lia]. subst i. exact E.
  - destruct (bytes_HasPrefix (c :: s) sep) eqn:E.
    + subst i. exact E.
    + destruct (Z.ltb_spec (bytes_Index s sep) 0) as [Hn|Hn]; [lia|].
      subst i. replace (Z.to_nat (bytes_Index s sep + 1)) with (S (Z.to_nat (bytes_Index s sep))) by lia.
      simpl. apply (IH (bytes_Index s sep)); [reflexivity | lia].
Qed.

(** Where [bytes_Index] is negative, the separator stands nowhere. *)
Lemma Index_none s sep n :
  bytes_Index s sep = -1 -> bytes_HasPrefix (drop n s) sep = false.
Proof.
  revert n; induction s as [|c s IH]; intros n Hi; simpl in Hi.
  - destruct (bytes_HasPrefix [] sep) eqn:E; [lia|]. destruct n; exact E.
  - destruct (bytes_HasPrefix (c :: s) sep) eqn:E; [lia|].
    destruct (Z.ltb_spec (bytes_Index s sep) 0) as [Hn|Hn].
    + destruct n as [|n]; [exact E|]. simpl. apply IH.
      pose proof (Index_range s sep). lia.
    + pose proof (Index_range s sep). lia.
Qed.

Lemma Index_none_intro s sep :
  (forall n, bytes_HasPrefix (drop n s) sep = false) -> bytes_Index s sep = -1.
Proof.
  induction s as [|c s IH]; intros H; simpl.
  - pose proof (H 0%nat) as H0. simpl in H0. rewrite H0. reflexivity.
  - pose proof (H 0%nat) as H0. simpl in H0. rewrite H0.
    rewrite IH; [reflexivity|].
    intros n. exact (H (S n)).
Qed.

(** No block of zero bytes, followed by less than a marker, holds the marker. *)
Lemma Index_zeros n t :
  (length t < 64)%nat -> bytes_Index (replicate n x00 ++ t) generateBoundary = -1.
Proof.
  intros Ht. induction n as [|n IH].
  - apply Index_short. rewrite boundary_length. exact Ht.
  - change (replicate (S n) x00 ++ t) with (x00 :: (replicate n x00 ++ t)).
    cbn [bytes_Index]. rewrite IH.
    replace (bytes_HasPrefix (x00 :: replicate n x00 ++ t) generateBoundary) with false
      by reflexivity.
    reflexivity.
Qed.

Lemma lenZ_nonneg {A} (l : list A) : 0 <= lenZ l.
Proof. rewrite lenZ_length. lia. Qed.

Lemma lenZ_app {A} (l k : list A) : lenZ (l ++ k) = lenZ l + lenZ k.
Proof. rewrite !lenZ_length, length_app. lia. Qed.

Lemma lenZ_takeZ {A} (n : Z) (l : list A) :
  lenZ (takeZ n l) = Z.min (Z.max n 0) (lenZ l).
Proof. rewrite takeZ_take, !lenZ_length, length_take. lia. Qed.

Lemma lenZ_dropZ {A} (n : Z) (l : list A) :
  lenZ (dropZ n l) = lenZ l - Z.min (Z.max n 0) (lenZ l).
Proof. rewrite dropZ_drop, !lenZ_length, length_drop. lia. Qed.

Lemma scanBlockSize_val : scanBlockSize = 131072.
Proof. reflexivity. Qed.

(** *** One iteration of the loop on a readable file *)

Lemma Read_fileAt c o len :
  0 <= o < lenZ c ->
  Read (fileAt c o) len =
  ReadOk (takeZ len (dropZ o c)) (fileAt c (o + lenZ (takeZ len (dropZ o c)))).
Proof.
  intros Ho. unfold Read, fileAt, unreadable. cbn [offset content fault].
  destruct (Z.ltb_spec o 0); [lia|].
  destruct (Z.leb_spec (lenZ c) o); [lia|]. reflexivity.
Qed.

Lemma Read_fileAt_eof c o len :
  lenZ c <= o -> Read (fileAt c o) len = ReadEOF.
Proof.
  intros Ho. unfold Read, fileAt. cbn [offset content fault].
  pose proof (lenZ_nonneg c).
  destruct (Z.ltb_spec o 0); [lia|].
  destruct (Z.leb_spec (lenZ c) o); [reflexivity|lia].
Qed.

Lemma scan_step_eof fuel c o bdy :
  lenZ c <= o ->
  scanLoop (S fuel) (fileAt c o) bdy = LoopBreak (fileAt c o) bdy true.
Proof. intros Ho. cbn [scanLoop]. by rewrite Read_fileAt_eof. Qed.

Lemma scan_step_miss fuel c o bdy :
  0 <= o < lenZ c ->
  bytes_Index (takeZ scanBlockSize (dropZ o c)) generateBoundary = -1 ->
  scanLoop (S fuel) (fileAt c o) bdy =
  scanLoop fuel (fileAt c (o + lenZ (takeZ scanBlockSize (dropZ o c))))
           (bdy + scanBlockSize).
Proof.
  intros Ho Hi. cbn [scanLoop]. rewrite Read_fileAt by exact Ho.
  cbv zeta. rewrite Hi. reflexivity.
Qed.

Lemma scan_step_hit fuel c o bdy i :
  0 <= o < lenZ c ->
  bytes_Index (takeZ scanBlockSize (dropZ o c)) generateBoundary = i -> 0 <= i ->
  scanLoop (S fuel) (fileAt c o) bdy =
  LoopBreak (fileAt c (o + lenZ (takeZ scanBlockSize (dropZ o c)))) (bdy + i) false.
Proof.
  intros Ho Hi Hpos. cbn [scanLoop]. rewrite Read_fileAt by exact Ho.
  cbv zeta. rewrite Hi.
  destruct (Z.leb_spec 0 i); [reflexivity|lia].
Qed.

(** *** The loop always ends within its fuel *)

Lemma scanLoop_enough fuel : forall self bdy,
  (1 <= fuel)%nat ->
  lenZ (content self) - offset self <= (Z.of_nat fuel - 1) * scanBlockSize ->
  scanLoop fuel self bdy <> LoopFuel.
Proof.
  induction fuel as [|fuel IH]; intros self bdy Hf Hlen; [lia|].
  cbn [scanLoop]. unfold Read.
  destruct (Z.ltb_spec (offset self) 0); [discriminate|].
  destruct (Z.leb_spec (lenZ (content self)) (offset self)); [discriminate|].
  destruct (unreadable self scanBlockSize); [discriminate|].
  cbv zeta.
  destruct (0 <=? bytes_Index _ generateBoundary); [discriminate|].
  apply IH; cbn [content offset].
  - rewrite scanBlockSize_val in *. lia.
  - rewrite lenZ_takeZ, lenZ_dropZ. rewrite scanBlockSize_val in *. lia.
Qed.

Lemma scanLoop_total self bdy : scanLoop (scanFuel self) self bdy <> LoopFuel.
Proof.
  destruct (Z.ltb_spec (offset self) 0) as [Hneg|Hpos].
  - unfold scanFuel. cbn [scanLoop]. unfold Read.
    destruct (Z.ltb_spec (offset self) 0); [discriminate|lia].
  - apply scanLoop_enough; unfold scanFuel; [lia|].
    pose proof (lenZ_nonneg (content self)) as Hl.
    rewrite scanBlockSize_val.
    pose proof (Z.div_mod (lenZ (content self)) 131072 ltac:(lia)).
    pose proof (Z.mod_pos_bound (lenZ (content self)) 131072 ltac:(lia)).
    pose proof (Z.div_pos (lenZ (content self)) 131072 Hl ltac:(lia)).
    lia.
Qed.

(** [parseSelf] always returns or dies: the fuel never runs out. *)
Lemma parseSelf_total self : parseSelf self <> Diverged.
Proof.
  unfold parseSelf. pose proof (scanLoop_total self 0) as Ht.
  destruct (scanLoop (scanFuel self) self 0) as [s b [|]| |]; try discriminate; [|congruence].
  destruct (Read _ _); try discriminate.
  cbv zeta. destruct (_ =? sentinelSize); discriminate.
Qed.

(** More fuel does not change a finished loop. *)
Lemma scanLoop_more fuel : forall self bdy r extra,
  scanLoop fuel self bdy = r -> r <> LoopFuel ->
  scanLoop (fuel + extra) self bdy = r.
Proof.
  induction fuel as [|fuel IH]; intros self bdy r extra Hr Hne.
  - simpl in Hr. congruence.
  - cbn [scanLoop Nat.add] in *.
    destruct (Read self scanBlockSize); auto.
    cbv zeta in *. destruct (0 <=? bytes_Index buf generateBoundary); auto.
Qed.

Lemma scanLoop_fuel_irrelevant f1 f2 self bdy :
  scanLoop f1 self bdy <> LoopFuel -> scanLoop f2 self bdy <> LoopFuel ->
  scanLoop f1 self bdy = scanLoop f2 self bdy.
Proof.
  intros H1 H2. destruct (Nat.le_ge_cases f1 f2) as [Hle|Hle].
  - replace f2 with (f1 + (f2 - f1))%nat by lia.
    symmetry. by apply scanLoop_more.
  - replace f1 with (f2 + (f1 - f2))%nat by lia.
    by apply scanLoop_more.
Qed.

(** *** Occurrences of the marker *)

Lemma Index_hit0 s sep : bytes_HasPrefix s sep = true -> bytes_Index s sep = 0.
Proof. intros H. destruct s; simpl; rewrite H; reflexivity. Qed.

Lemma Index_cons_none a s sep :
  bytes_Index (a :: s) sep = -1 -> bytes_HasPrefix (a :: s) sep = false /\ bytes_Index s sep = -1.
Proof.
  cbn [bytes_Index]. destruct (bytes_HasPrefix (a :: s) sep); [lia|].
  pose proof (Index_range s sep).
  destruct (Z.ltb_spec (bytes_Index s sep) 0); intros; split; auto; lia.
Qed.

Lemma HasPrefix_app_split u : forall s sep,
  bytes_HasPrefix (u ++ s) sep = true -> (length u < length sep)%nat ->
  bytes_HasPrefix s (drop (length u) sep) = true.
Proof.
  induction u as [|a u IH]; intros s sep H Hlen; [exact H|].
  destruct sep as [|b sep]; [simpl in Hlen; lia|].
  simpl in H. destruct (Byte.eqb b a); [|discriminate].
  simpl. apply IH; [exact H | simpl in Hlen; lia].
Qed.

Lemma HasPrefix_app_short p : forall s more,
  bytes_HasPrefix (s ++ more) p = true -> (length p <= length s)%nat ->
  bytes_HasPrefix s p = true.
Proof.
  induction p as [|b p IH]; intros s more H Hlen; [reflexivity|].
  destruct s as [|c s]; [simpl in Hlen; lia|].
  simpl in *. destruct (Byte.eqb b c); [|discriminate].
  apply (IH s more); [exact H | lia].
Qed.

Lemma HasPrefix_long u : forall sep more,
  bytes_HasPrefix (u ++ more) sep = true -> (length sep <= length u)%nat ->
  bytes_HasPrefix u sep = true.
Proof. intros sep more H Hl. by apply (HasPrefix_app_short sep u more). Qed.

Lemma borderFree_spec sep j :
  borderFree sep = true -> (1 <= j < length sep)%nat ->
  bytes_HasPrefix sep (drop j sep) = false.
Proof.
  unfold borderFree. rewrite forallb_forall. intros H Hj.
  specialize (H j). rewrite in_seq in H.
  apply negb_true_iff, H. lia.
Qed.

Lemma boundary_borderFree : borderFree generateBoundary = true.
Proof. vm_compute. reflexivity. Qed.

(** A text without the marker, followed by the marker: the first
    occurrence is the one that was appended. *)
Lemma Index_app_found t sep more :
  borderFree sep = true -> (0 < length sep)%nat ->
  bytes_Index t sep = -1 -> bytes_Index (t ++ sep ++ more) sep = lenZ t.
Proof.
  intros Hbf Hne. induction t as [|a t IH]; intros Hi.
  - simpl. apply Index_hit0, HasPrefix_self.
  - apply Index_cons_none in Hi as [Hp Hi]. specialize (IH Hi).
    change ((a :: t) ++ sep ++ more) with (a :: (t ++ sep ++ more)).
    cbn [bytes_Index lenZ]. rewrite IH.
    assert (bytes_HasPrefix (a :: t ++ sep ++ more) sep = false) as ->.
    { destruct (bytes_HasPrefix (a :: t ++ sep ++ more) sep) eqn:E; [|reflexivity].
      exfalso. change (a :: t ++ sep ++ more) with ((a :: t) ++ sep ++ more) in E.
      destruct (Nat.le_gt_cases (length sep) (length (a :: t))) as [Hl|Hl].
      - apply HasPrefix_long in E; [congruence | exact Hl].
      - apply HasPrefix_app_split in E; [|exact Hl].
        apply HasPrefix_app_short in E; [|rewrite length_drop; lia].
        rewrite borderFree_spec in E; [discriminate | exact Hbf |].
        simpl in *. lia. }
    pose proof (lenZ_nonneg t).
    destruct (Z.ltb_spec (lenZ t) 0); lia.
Qed.

(** *** A file of zero bytes is read to its end *)

Lemma lenZ_zeros n : 0 <= n -> lenZ (zeros n) = n.
Proof. intros Hn. unfold zeros. rewrite lenZ_length, length_replicate. lia. Qed.

Lemma block_of_zeros n o len :
  takeZ len (dropZ o (zeros n)) =
  replicate (Z.to_nat len `min` (Z.to_nat n - Z.to_nat o)) x00.
Proof.
  unfold zeros. by rewrite takeZ_take, dropZ_drop, drop_replicate, take_replicate.
Qed.

Lemma scan_zeros n k : forall fuel o bdy,
  0 <= o <= n -> n - o <= Z.of_nat k * scanBlockSize -> (k < fuel)%nat ->
  exists bdy', scanLoop fuel (fileAt (zeros n) o) bdy
               = LoopBreak (fileAt (zeros n) n) bdy' true.
Proof.
  induction k as [|k IH]; intros fuel o bdy Ho Hk Hf;
    (destruct fuel as [|fuel]; [lia|]).
  - assert (o = n) as -> by lia. exists bdy.
    apply scan_step_eof. rewrite lenZ_zeros; lia.
  - destruct (Z.eq_dec o n) as [->|Hne].
    + exists bdy. apply scan_step_eof. rewrite lenZ_zeros; lia.
    + rewrite scan_step_miss.
      * rewrite lenZ_takeZ, lenZ_dropZ, lenZ_zeros by lia.
        destruct (Z.le_gt_cases scanBlockSize (n - o)) as [Hfull|Hpart].
        -- replace (o + _) with (o + scanBlockSize)
             by (rewrite scanBlockSize_val in *; lia).
           apply IH; [rewrite scanBlockSize_val in *; lia | lia | lia].
        -- replace (o + _) with n by (rewrite scanBlockSize_val in *; lia).
           apply IH; [lia | rewrite scanBlockSize_val; lia | lia].
      * rewrite lenZ_zeros; lia.
      * rewrite block_of_zeros.
        rewrite <- (app_nil_r (replicate _ x00)). apply Index_zeros. simpl. lia.
Qed.

Lemma parseSelf_zeros n :
  0 <= n -> parseSelf (openFile (zeros n)) = NoPayload (fileAt (zeros n) n).
Proof.
  intros Hn. unfold parseSelf.
  change (openFile (zeros n)) with (fileAt (zeros n) 0).
  destruct (scan_zeros n (S (Z.to_nat (n / scanBlockSize)))
              (scanFuel (fileAt (zeros n) 0)) 0 0) as [bdy' ->]; [lia | | | reflexivity].
  - rewrite scanBlockSize_val.
    pose proof (Z.div_mod n 131072 ltac:(lia)).
    pose proof (Z.mod_pos_bound n 131072 ltac:(lia)).
    pose proof (Z.div_pos n 131072 Hn ltac:(lia)). lia.
  - unfold scanFuel, fileAt. cbn [content]. rewrite lenZ_zeros by lia. lia.
Qed.

(** *** Slices of concatenations *)

Lemma takeZ_app {A} n (l k : list A) :
  takeZ n (l ++ k) = takeZ n l ++ takeZ (n - lenZ l) k.
Proof.
  rewrite !takeZ_take, take_app, lenZ_length. do 2 f_equal. lia.
Qed.

Lemma dropZ_app {A} n (l k : list A) :
  dropZ n (l ++ k) = dropZ n l ++ dropZ (n - lenZ l) k.
Proof.
  rewrite !dropZ_drop, drop_app, lenZ_length. do 2 f_equal. lia.
Qed.

Lemma takeZ_all {A} n (l : list A) : lenZ l <= n -> takeZ n l = l.
Proof. rewrite lenZ_length, takeZ_take. intros H. apply take_ge. lia. Qed.

Lemma takeZ_none {A} n (l : list A) : n <= 0 -> takeZ n l = [].
Proof. rewrite takeZ_take. intros H. by replace (Z.to_nat n) with 0%nat by lia. Qed.

Lemma dropZ_all {A} n (l : list A) : lenZ l <= n -> dropZ n l = [].
Proof. rewrite lenZ_length, dropZ_drop. intros H. apply drop_ge. lia. Qed.

Lemma dropZ_none {A} n (l : list A) : n <= 0 -> dropZ n l = l.
Proof. rewrite dropZ_drop. intros H. by replace (Z.to_nat n) with 0%nat by lia. Qed.

Lemma dropZ_app_past {A} n (l k : list A) :
  lenZ l <= n -> dropZ n (l ++ k) = dropZ (n - lenZ l) k.
Proof. intros H. by rewrite dropZ_app, dropZ_all. Qed.

Lemma takeZ_app_past {A} n (l k : list A) :
  lenZ l <= n -> takeZ n (l ++ k) = l ++ takeZ (n - lenZ l) k.
Proof. intros H. by rewrite takeZ_app, takeZ_all. Qed.

Lemma takeZ_app_within {A} n (l k : list A) :
  n <= lenZ l -> takeZ n (l ++ k) = takeZ n l.
Proof. intros H. rewrite takeZ_app, (takeZ_none _ k), app_nil_r by lia. done. Qed.

Lemma dropZ_app_within {A} n (l k : list A) :
  n <= lenZ l -> dropZ n (l ++ k) = dropZ n l ++ k.
Proof. intros H. rewrite dropZ_app, (dropZ_none _ k) by lia. done. Qed.

(** *** The length field *)

Lemma to_N_byteOfZ v : Z.of_N (Byte.to_N (byteOfZ v)) = v mod 256.
Proof.
  unfold byteOfZ. pose proof (Z.mod_pos_bound v 256 ltac:(lia)) as Hb.
  destruct (Byte.of_N (Z.to_N (v mod 256))) as [b|] eqn:E.
  - apply Byte.to_of_N in E. rewrite E. lia.
  - apply Byte.of_N_None_iff in E. lia.
Qed.

Lemma leValue_leBytes n : forall v,
  leValue (leBytes n v) = v mod 256 ^ Z.of_nat n.
Proof.
  induction n as [|n IH]; intros v.
  - simpl. by rewrite Z.mod_1_r.
  - cbn [leBytes leValue]. rewrite to_N_byteOfZ, IH.
    replace (Z.of_nat (S n)) with (1 + Z.of_nat n) by lia.
    rewrite Z.pow_add_r, Z.pow_1_r by lia.
    rewrite Z.rem_mul_r by lia. lia.
Qed.

Lemma lenZ_PutUint64 v : lenZ (PutUint64 v) = 8.
Proof. reflexivity. Qed.

Lemma Uint64_PutUint64 v more : Uint64 (PutUint64 v ++ more) = v mod 2 ^ 64.
Proof.
  unfold PutUint64. set (w := v mod 2 ^ 64).
  transitivity (leValue (leBytes 8 w)).
  - reflexivity.
  - rewrite leValue_leBytes. change (256 ^ Z.of_nat 8) with (2 ^ 64).
    unfold w. apply Z.mod_mod. lia.
Qed.

Lemma Uint64_PutUint64_exact v : Uint64 (PutUint64 v) = v mod 2 ^ 64.
Proof. rewrite <- (app_nil_r (PutUint64 v)). apply Uint64_PutUint64. Qed.

(** *** A marker that lies inside one block is found *)

Lemma scan_result_content fuel : forall c o bdy self' b full,
  scanLoop fuel (fileAt c o) bdy = LoopBreak self' b full ->
  exists o', self' = fileAt c o'.
Proof.
  induction fuel as [|fuel IH]; intros c o bdy self' b full H; [discriminate|].
  cbn [scanLoop] in H. unfold Read in H. cbn [fileAt offset content fault unreadable] in H.
  destruct (o <? 0); [discriminate|].
  destruct (lenZ c <=? o); [injection H as <- _ _; by eexists|].
  cbv zeta in H.
  destruct (0 <=? bytes_Index _ generateBoundary).
  - injection H as <- _ _. by eexists.
  - by apply IH in H.
Qed.

Lemma scan_archive_found tail stub fuel : forall o bdy fs bs,
  0 <= o <= lenZ stub ->
  scanLoop fuel (fileAt stub o) bdy = LoopBreak fs bs true ->
  (lenZ stub - o) mod scanBlockSize + 64 <= scanBlockSize ->
  exists self',
    scanLoop fuel (fileAt (stub ++ generateBoundary ++ tail) o) bdy
    = LoopBreak self' (bdy + (lenZ stub - o)) false.
Proof.
  assert (lenZ generateBoundary = 64) as Hb by reflexivity.
  induction fuel as [|fuel IH]; intros o bdy fs bs Ho Hstub Hfit; [discriminate|].
  assert (0 <= o < lenZ (stub ++ generateBoundary ++ tail)) as Ho'.
  { rewrite !lenZ_app, Hb. pose proof (lenZ_nonneg tail). lia. }
  destruct (Z.eq_dec o (lenZ stub)) as [->|Hne].
  - (* the stub ends on a block boundary *)
    eexists. rewrite (scan_step_hit _ _ _ _ 0); [do 2 f_equal; lia | exact Ho' | | lia].
    rewrite dropZ_app_past, Z.sub_diag, dropZ_none by lia.
    apply Index_hit0. rewrite takeZ_app_past by (rewrite Hb, scanBlockSize_val; lia).
    apply HasPrefix_self.
  - set (blk := takeZ scanBlockSize (dropZ o stub)).
    assert (bytes_Index blk generateBoundary = -1
            /\ scanLoop fuel (fileAt stub (o + lenZ blk)) (bdy + scanBlockSize)
               = LoopBreak fs bs true) as [Hmiss Hrest].
    { cbn [scanLoop] in Hstub. rewrite Read_fileAt in Hstub by lia.
      cbv zeta in Hstub. fold blk in Hstub.
      pose proof (Index_range blk generateBoundary).
      revert Hstub. destruct (Z.leb_spec 0 (bytes_Index blk generateBoundary));
        intros Hstub; [discriminate|]. split; [lia | exact Hstub]. }
    assert (lenZ blk = Z.min scanBlockSize (lenZ stub - o)) as Hblk.
    { unfold blk. rewrite lenZ_takeZ, lenZ_dropZ, scanBlockSize_val. lia. }
    destruct (Z.le_gt_cases scanBlockSize (lenZ stub - o)) as [Hfull|Hpart].
    + (* a full block of the stub: the same block in the archive *)
      rewrite scan_step_miss; [|exact Ho'|].
      * rewrite dropZ_app_within, takeZ_app_within by (rewrite ?lenZ_dropZ; lia).
        fold blk. destruct (IH (o + lenZ blk) (bdy + scanBlockSize) fs bs) as [self' Hs].
        -- rewrite scanBlockSize_val in *. lia.
        -- exact Hrest.
        -- replace (lenZ stub - (o + lenZ blk))
             with ((lenZ stub - o) + (-1) * scanBlockSize) by lia.
           rewrite Z.mod_add by (rewrite scanBlockSize_val; lia). exact Hfit.
        -- exists self'. rewrite Hs. f_equal. lia.
      * rewrite dropZ_app_within, takeZ_app_within by (rewrite ?lenZ_dropZ; lia).
        exact Hmiss.
    + (* the last, partial block of the stub: the marker follows in the block *)
      rewrite Z.mod_small in Hfit by lia.
      assert (blk = dropZ o stub) as Hb2.
      { unfold blk. apply takeZ_all. rewrite lenZ_dropZ. lia. }
      eexists. rewrite (scan_step_hit _ _ _ _ (lenZ stub - o)); [reflexivity | exact Ho' | | lia].
      rewrite dropZ_app_within by lia. rewrite <- Hb2.
      rewrite takeZ_app_past by lia.
      rewrite takeZ_app_past by (rewrite Hb; lia).
      rewrite Index_app_found; [lia | apply boundary_borderFree | simpl; lia | exact Hmiss].
Qed.

(** The archive envelope of the data model. *)
Lemma parseSelf_envelope stub key n payload fs :
  lenZ key = keyLength -> 0 <= n < 2 ^ 63 ->
  parseSelf (openFile stub) = NoPayload fs ->
  lenZ stub mod scanBlockSize + 64 <= scanBlockSize ->
  parseSelf (openFile (stub ++ generateBoundary ++ key ++ PutUint64 n ++ payload))
  = Payload (LimitReader
               (fileAt (stub ++ generateBoundary ++ key ++ PutUint64 n ++ payload)
                       (lenZ stub + 64 + 24)) n) key.
Proof.
  intros Hkey Hn Hstub Hfit.
  set (archive := stub ++ generateBoundary ++ key ++ PutUint64 n ++ payload).
  assert (exists fs' bs, scanLoop (scanFuel (openFile stub)) (fileAt stub 0) 0
                         = LoopBreak fs' bs true) as (fs' & bs & Hscan).
  { unfold parseSelf in Hstub. change (openFile stub) with (fileAt stub 0) in Hstub at 2.
    destruct (scanLoop _ (fileAt stub 0) 0) as [s b [|]| |]; try discriminate.
    - by eexists _, _.
    - exfalso. destruct (Read _ _); try discriminate.
      cbv zeta in Hstub. destruct (_ =? sentinelSize); discriminate. }
  pose proof (lenZ_nonneg stub) as Hs0.
  destruct (scan_archive_found (key ++ PutUint64 n ++ payload) stub _ 0 0 fs' bs
              ltac:(lia) Hscan) as [self' Hfound].
  { by rewrite Z.sub_0_r. }
  fold archive in Hfound.
  assert (scanLoop (scanFuel (openFile archive)) (fileAt archive 0) 0
          = LoopBreak self' (lenZ stub) false) as Hrun.
  { rewrite Z.add_0_l, Z.sub_0_r in Hfound. rewrite <- Hfound.
    apply scanLoop_fuel_irrelevant.
    - apply (scanLoop_total (openFile archive)).
    - rewrite Hfound. discriminate. }
  destruct (scan_result_content _ _ _ _ _ _ _ Hrun) as [o' ->].
  unfold parseSelf. change (openFile archive) with (fileAt archive 0) at 2.
  rewrite Hrun. cbv iota.
  change (lenZ generateBoundary) with 64.
  unfold Seek. destruct (Z.ltb_spec (lenZ stub + 64) 0); [lia|].
  change {| content := content (fileAt archive o'); offset := lenZ stub + 64;
            fault := fault (fileAt archive o') |}
    with (fileAt archive (lenZ stub + 64)).
  assert (dropZ (lenZ stub + 64) archive = key ++ PutUint64 n ++ payload) as Hdrop.
  { unfold archive. rewrite dropZ_app_past by lia.
    replace (lenZ stub + 64 - lenZ stub) with 64 by lia.
    rewrite dropZ_app_past by (change (lenZ generateBoundary) with 64; lia).
    by apply dropZ_none. }
  rewrite Read_fileAt.
  2:{ unfold archive. rewrite !lenZ_app, Hkey, lenZ_PutUint64.
      change (lenZ generateBoundary) with 64. unfold keyLength.
      pose proof (lenZ_nonneg payload). lia. }
  rewrite Hdrop.
  assert (takeZ (keyLength + 8) (key ++ PutUint64 n ++ payload) = key ++ PutUint64 n) as Htk.
  { rewrite takeZ_app_past by (unfold keyLength in *; lia).
    rewrite Hkey.
    replace (keyLength + 8 - keyLength) with (lenZ (PutUint64 n))
      by (rewrite lenZ_PutUint64; lia).
    rewrite takeZ_app_within by lia. by rewrite takeZ_all. }
  rewrite Htk. cbv zeta.
  assert (filled (keyLength + 8) (key ++ PutUint64 n) = key ++ PutUint64 n) as ->.
  { unfold filled. rewrite lenZ_app, Hkey, lenZ_PutUint64.
    replace (Z.to_nat (keyLength + 8 - (keyLength + 8))) with 0%nat by lia.
    simpl replicate. rewrite app_nil_r. apply takeZ_all.
    rewrite lenZ_app, Hkey, lenZ_PutUint64. lia. }
  rewrite (takeZ_app_within keyLength key) by lia.
  rewrite (takeZ_all keyLength key) by lia.
  rewrite (dropZ_app_past keyLength key) by lia.
  rewrite Hkey, Z.sub_diag, dropZ_none by lia.
  rewrite (takeZ_all 8) by (rewrite lenZ_PutUint64; lia).
  rewrite <- (app_nil_r (PutUint64 n)), Uint64_PutUint64.
  rewrite Z.mod_small by lia.
  assert ((n =? sentinelSize) = false) as ->.
  { apply Z.eqb_neq. unfold sentinelSize. lia. }
  unfold int64. destruct (Z.ltb_spec n (2 ^ 63)); [|lia].
  rewrite app_nil_r, lenZ_app, Hkey, lenZ_PutUint64. unfold keyLength.
  do 3 f_equal; lia.
Qed.

Lemma scan_result_bdy fuel : forall self bdy self' b full,
  scanLoop fuel self bdy = LoopBreak self' b full ->
  bdy <= b /\ content self' = content self /\ fault self' = fault self.
Proof.
  induction fuel as [|fuel IH]; intros self bdy self' b full H; [discriminate|].
  cbn [scanLoop] in H. unfold Read in H.
  destruct (offset self <? 0); [discriminate|].
  destruct (lenZ (content self) <=? offset self).
  { injection H as <- <- _. repeat split; lia. }
  destruct (unreadable self scanBlockSize); [discriminate|].
  cbv zeta in H.
  pose proof (Index_range (takeZ scanBlockSize (dropZ (offset self) (content self)))
                generateBoundary) as Hr.
  revert H. destruct (Z.leb_spec 0 (bytes_Index (takeZ scanBlockSize
                 (dropZ (offset self) (content self))) generateBoundary)) as [Hhit|Hno];
    intros H.
  - injection H as <- <- _. cbn [content fault]. repeat split; lia.
  - apply IH in H as (Hb & Hc & Hf). cbn [content fault] in *.
    rewrite scanBlockSize_val in Hb. repeat split; auto; lia.
Qed.

Lemma parseSelf_scan self r fuel :
  scanLoop fuel self 0 = r -> r <> LoopFuel ->
  scanLoop (scanFuel self) self 0 = r.
Proof.
  intros Hr Hne. rewrite <- Hr. apply scanLoop_fuel_irrelevant.
  - apply scanLoop_total.
  - rewrite Hr. exact Hne.
Qed.

(** *** The marker across two read blocks *)

(** A marker that starts less than 64 bytes before the end of the first
    read block, in a file that ends inside the second block less than 64
    bytes in: neither block holds the marker whole. *)
Lemma parseSelf_straddle n key len payload :
  scanBlockSize - 64 < n < scanBlockSize ->
  n + 64 + lenZ key + 8 + lenZ payload < scanBlockSize + 64 ->
  takeZ 64 (dropZ n (envelope (zeros n) key len payload)) = generateBoundary /\
  parseSelf (openFile (envelope (zeros n) key len payload))
  = NoPayload (fileAt (envelope (zeros n) key len payload)
                      (lenZ (envelope (zeros n) key len payload))).
Proof.
  intros Hn Hend. pose proof scanBlockSize_val as HB.
  unfold envelope.
  set (tail := generateBoundary ++ key ++ PutUint64 len ++ payload).
  assert (lenZ tail = 64 + lenZ key + 8 + lenZ payload) as Htail.
  { unfold tail. rewrite !lenZ_app, lenZ_PutUint64.
    change (lenZ generateBoundary) with 64. lia. }
  assert (lenZ (zeros n) = n) as Hz by (apply lenZ_zeros; lia).
  set (arch := zeros n ++ tail).
  assert (lenZ arch = n + lenZ tail) as Hlen by (unfold arch; rewrite lenZ_app, Hz; lia).
  pose proof (lenZ_nonneg key). pose proof (lenZ_nonneg payload).
  split.
  - unfold arch. rewrite dropZ_app_past, Hz, Z.sub_diag, dropZ_none by lia.
    unfold tail. rewrite takeZ_app_past by (change (lenZ generateBoundary) with 64; lia).
    change (lenZ generateBoundary) with 64. rewrite Z.sub_diag, takeZ_none by lia.
    apply app_nil_r.
  - unfold parseSelf.
    rewrite (parseSelf_scan _ (LoopBreak (fileAt arch (lenZ arch)) (0 + scanBlockSize + scanBlockSize) true) 3);
      [reflexivity | | discriminate].
    change (openFile arch) with (fileAt arch 0).
    (* first block: zeros and the head of the marker *)
    rewrite scan_step_miss; [| lia |].
    2:{ rewrite dropZ_none by lia. unfold arch. rewrite takeZ_app_past, Hz by lia.
        apply Index_zeros. apply Nat2Z.inj_lt.
        rewrite <- lenZ_length, lenZ_takeZ. lia. }
    rewrite lenZ_takeZ, lenZ_dropZ.
    replace (0 + Z.min _ _) with scanBlockSize by lia.
    (* second block: the rest of the marker, the trailer, the payload *)
    rewrite scan_step_miss; [| lia |].
    2:{ apply Index_short. rewrite boundary_length. apply Nat2Z.inj_lt.
        rewrite <- lenZ_length, lenZ_takeZ, lenZ_dropZ. lia. }
    rewrite lenZ_takeZ, lenZ_dropZ.
    replace (scanBlockSize + Z.min _ _) with (lenZ arch) by lia.
    rewrite scan_step_eof by lia. reflexivity.
Qed.

(** C1, at the archive [straddleArchive]: the 64 marker bytes stand at
    offset [scanBlockSize - 32], followed by a well-formed trailer and
    payload, and [parseSelf] reads the whole file, block by block, without
    finding them: it returns [nil, nil], the answer for a binary that
    carries no payload. *)
Theorem parseSelf_misses_straddling_marker :
  takeZ 64 (dropZ (scanBlockSize - 32) straddleArchive) = generateBoundary /\
  parseSelf (openFile straddleArchive)
  = NoPayload (fileAt straddleArchive (lenZ straddleArchive)).
Proof.
  unfold straddleArchive.
  apply (parseSelf_straddle (scanBlockSize - 32) sampleKey 3 samplePayload).
  - rewrite scanBlockSize_val. lia.
  - change (lenZ sampleKey) with 16. change (lenZ samplePayload) with 3. lia.
Qed.

(** *** The scan ceiling *)

(** A marker after any number [k] of full blocks of zeros is found. *)
Lemma parseSelf_after_blocks k key len payload :
  0 <= k -> lenZ key = keyLength -> 0 <= len < 2 ^ 63 ->
  parseSelf (openFile (envelope (zeros (k * scanBlockSize)) key len payload))
  = Payload (LimitReader
               (fileAt (envelope (zeros (k * scanBlockSize)) key len payload)
                       (k * scanBlockSize + 64 + 24)) len) key.
Proof.
  intros Hk Hkey Hlen. pose proof scanBlockSize_val as HB.
  assert (lenZ (zeros (k * scanBlockSize)) = k * scanBlockSize) as Hz
    by (apply lenZ_zeros; lia).
  unfold envelope.
  rewrite (parseSelf_envelope _ _ _ _ (fileAt (zeros (k * scanBlockSize)) (k * scanBlockSize)));
    try assumption.
  - by rewrite Hz.
  - apply parseSelf_zeros. lia.
  - rewrite Hz, Z.mod_mul by lia. lia.
Qed.

(** C2, at a file of 200,000,000 zero bytes, which holds no marker:
    [parseSelf] answers [nil, nil] only when the read cursor has reached the
    end of the file, 200,000,000 bytes in, far past [maxBoundaryOffset];
    and at [farArchive], whose marker starts past [maxBoundaryOffset], the
    marker is still found.  The constant is never consulted. *)
Theorem parseSelf_ignores_maxBoundaryOffset :
  maxBoundaryOffset + scanBlockSize < 200000000 /\
  parseSelf (openFile (zeros 200000000))
  = NoPayload (fileAt (zeros 200000000) 200000000) /\
  maxBoundaryOffset < 764 * scanBlockSize /\
  parseSelf (openFile farArchive)
  = Payload (LimitReader (fileAt farArchive (764 * scanBlockSize + 64 + 24)) 3) sampleKey.
Proof.
  split; [rewrite scanBlockSize_val; unfold maxBoundaryOffset; lia|].
  split; [apply (parseSelf_zeros 200000000); lia|].
  split; [rewrite scanBlockSize_val; unfold maxBoundaryOffset; lia|].
  unfold farArchive.
  apply (parseSelf_after_blocks 764 sampleKey 3 samplePayload); [lia | reflexivity | lia].
Qed.

(** *** The unpatched length field *)

Lemma dropZ_takeZ {A} m n (l : list A) :
  0 <= m <= n -> dropZ m (takeZ n l) = takeZ (n - m) (dropZ m l).
Proof.
  intros H. rewrite !dropZ_drop, !takeZ_take, take_drop_commute.
  do 2 f_equal. lia.
Qed.


Lemma dropZ_dropZ {A} n m (l : list A) :
  0 <= n -> 0 <= m -> dropZ n (dropZ m l) = dropZ (m + n) l.
Proof.
  intros Hn Hm. rewrite !dropZ_drop, drop_drop. f_equal. lia.
Qed.





(** ** The archive builder *)

Lemma writeAt_end c data : writeAt c (lenZ c) data = (c ++ data)%list.
Proof.
  unfold writeAt. pose proof (lenZ_nonneg data).
  rewrite takeZ_all, Z.sub_diag, dropZ_all by lia. simpl. by rewrite app_nil_r.
Qed.

Lemma writeAt_patch a old b new :
  lenZ new = lenZ old ->
  writeAt (a ++ old ++ b) (lenZ a) new = (a ++ new ++ b)%list.
Proof.
  intros Hlen. unfold writeAt.
  pose proof (lenZ_nonneg old). pose proof (lenZ_nonneg b). pose proof (lenZ_nonneg a).
  rewrite takeZ_app_past, Z.sub_diag, takeZ_none, app_nil_r by lia.
  rewrite !lenZ_app.
  replace (Z.to_nat (lenZ a - (lenZ a + (lenZ old + lenZ b)))) with 0%nat by lia.
  rewrite dropZ_app_past by lia.
  replace (lenZ a + lenZ new - lenZ a) with (lenZ old) by lia.
  rewrite dropZ_app_past, Z.sub_diag, dropZ_none by lia. reflexivity.
Qed.

Lemma f_Write_insert (fs : FS) p c m pos data :
  f_Write (<[p := Reg c m]> fs) (mkHandle p pos) data
  = (<[p := Reg (writeAt c pos data) m]> fs, mkHandle p (pos + lenZ data)).
Proof.
  unfold f_Write. cbn [hpath hpos].
  by rewrite lookup_insert_eq, insert_insert_eq.
Qed.

Lemma f_Chmod_insert (fs : FS) p c m pos mode :
  f_Chmod (<[p := Reg c m]> fs) (mkHandle p pos) mode = <[p := Reg c mode]> fs.
Proof.
  unfold f_Chmod. cbn [hpath].
  by rewrite lookup_insert_eq, insert_insert_eq.
Qed.

Lemma os_Create_some (fs fs1 : FS) out :
  os_Create fs out = Some fs1 ->
  resolve out <> [] /\ exists m, fs1 = <[resolve out := Reg [] m]> fs.
Proof.
  unfold os_Create. destruct (parentIsDir fs (resolve out)); [|discriminate].
  destruct (resolve out) as [|c p] eqn:E.
  - simpl. discriminate.
  - cbn [lookupNode]. intros H. split; [discriminate|].
    destruct (fs !! (c :: p)) as [[| d m |]|]; try discriminate.
    + injection H as <-. by exists m.
    + injection H as <-. by exists mode0666.
Qed.

Lemma lenZ_filled n got : 0 <= n -> lenZ (filled n got) = n.
Proof.
  intros Hn. unfold filled.
  rewrite lenZ_takeZ, lenZ_app, (lenZ_length (replicate _ _)), length_replicate.
  pose proof (lenZ_nonneg got). lia.
Qed.

Lemma Ok_inj {A} (a b : A) : Ok a = Ok b -> a = b.
Proof. congruence. Qed.

(** What a successful [create] leaves at the output path: the envelope. *)
Lemma create_envelope tarZstd entropy fs self key out files cd fs' :
  create tarZstd entropy fs self key out files cd = Ok fs' ->
  exists stub rkey payload,
    readRest self = Some stub /\
    generateRandomKey entropy = Some rkey /\
    lenZ rkey = keyLength /\
    lookupNode fs' (resolve out)
    = Some (Reg (envelope stub rkey (lenZ payload) payload) mode0755).
Proof.
  unfold create. intros H.
  destruct (lenZ files =? 0); [discriminate|].
  destruct (os_Create fs out) as [fs1|] eqn:Hc; [|discriminate].
  apply os_Create_some in Hc as [Hp [m ->]].
  destruct (readRest self) as [stub|]; [|discriminate].
  rewrite f_Write_insert in H. cbv beta match zeta in H.
  rewrite f_Write_insert in H. cbv beta match zeta in H.
  destruct (generateRandomKey entropy) as [rkey|] eqn:Hk; [|discriminate].
  rewrite f_Write_insert in H. cbv beta match zeta in H.
  rewrite f_Write_insert in H. cbv beta match zeta in H.
  unfold hpos, hpath in H. cbv beta match zeta in H.
  destruct (tarZstd _ cd files) as [payload died].
  rewrite f_Write_insert in H. cbv beta match zeta in H.
  destruct died as [msg|]; [discriminate|].
  unfold hpos, hpath in H. cbv beta match zeta in H.
  rewrite f_Write_insert in H. cbv beta match zeta in H.
  rewrite f_Chmod_insert in H. apply Ok_inj in H. subst fs'.
  assert (lenZ rkey = keyLength) as Hrk.
  { unfold generateRandomKey in Hk. destruct entropy; [|discriminate].
    injection Hk as <-. apply lenZ_filled. unfold keyLength. lia. }
  exists stub, rkey, payload. repeat split; auto.
  destruct (resolve out) as [|c p] eqn:E; [congruence|].
  unfold lookupNode. rewrite lookup_insert_eq. do 2 f_equal.
  (* the successive writes *)
  change 0 with (lenZ (@nil byte)) at 1 2 3 4 5 6.
  rewrite (writeAt_end [] stub). rewrite app_nil_l. change (lenZ (@nil byte)) with 0.
  rewrite Z.add_0_l.
  rewrite (writeAt_end stub).
  replace (lenZ stub + lenZ generateBoundary) with (lenZ (stub ++ generateBoundary))
    by (by rewrite lenZ_app).
  rewrite writeAt_end.
  replace (lenZ (stub ++ generateBoundary) + lenZ rkey)
    with (lenZ ((stub ++ generateBoundary) ++ rkey)) by (by rewrite lenZ_app).
  rewrite writeAt_end.
  set (head := ((stub ++ generateBoundary) ++ rkey)%list).
  replace (lenZ head + lenZ sizePlaceholder)
    with (lenZ (head ++ sizePlaceholder)) by (by rewrite lenZ_app).
  rewrite writeAt_end.
  replace (lenZ (head ++ sizePlaceholder) + lenZ payload - lenZ (head ++ sizePlaceholder))
    with (lenZ payload) by lia.
  replace (lenZ (head ++ sizePlaceholder) - 8) with (lenZ head)
    by (rewrite lenZ_app; change (lenZ sizePlaceholder) with 8; lia).
  rewrite <- (app_assoc head), writeAt_patch by reflexivity.
  unfold envelope, head. by rewrite <- !app_assoc.
Qed.




Lemma envelope_payload stub key n payload :
  lenZ key = keyLength ->
  dropZ (lenZ stub + 64 + 24) (envelope stub key n payload) = payload.
Proof.
  intros Hk. unfold envelope, keyLength in *.
  pose proof (lenZ_nonneg stub).
  rewrite dropZ_app_past by lia.
  replace (lenZ stub + 64 + 24 - lenZ stub) with (lenZ generateBoundary + 24)
    by (change (lenZ generateBoundary) with 64; lia).
  rewrite dropZ_app_past by lia.
  replace (lenZ generateBoundary + 24 - lenZ generateBoundary) with (lenZ key + 8) by lia.
  rewrite dropZ_app_past by lia.
  replace (lenZ key + 8 - lenZ key) with (lenZ (PutUint64 n))
    by (rewrite lenZ_PutUint64; lia).
  rewrite dropZ_app_past, Z.sub_diag by lia. by apply dropZ_none.
Qed.

(** Built from a stub in which [parseSelf] finds no marker (the builder
    mode in which [main] calls [create]), with the marker not across two
    read blocks, the archive is read back whole. *)
Lemma create_then_parseSelf tarZstd entropy fs self key out files cd fs' stubEnd :
  create tarZstd entropy fs self key out files cd = Ok fs' ->
  offset self = 0 -> fault self = None ->
  parseSelf (openFile (content self)) = NoPayload stubEnd ->
  lenZ (content self) mod scanBlockSize + 64 <= scanBlockSize ->
  exists rkey payload archive reader,
    lookupNode fs' (resolve out) = Some (Reg archive mode0755) /\
    (lenZ payload < 2 ^ 63 ->
     parseSelf (openFile archive) = Payload reader rkey /\
     ReadAllLimited reader = payload).
Proof.
  intros Hc Ho Hf Hstub Hfit.
  destruct (create_envelope _ _ _ _ _ _ _ _ _ Hc) as (stub & rkey & payload & Hr & _ & Hk & Hl).
  assert (stub = content self) as ->.
  { unfold readRest, unreadable in Hr. rewrite Ho, Hf in Hr. simpl in Hr.
    injection Hr as <-. by rewrite dropZ_none. }
  pose proof (lenZ_nonneg payload) as Hp. pose proof (lenZ_nonneg (content self)) as Hs.
  eexists rkey, payload, _, _. split; [exact Hl|]. intros Hsize.
  unfold envelope.
  rewrite (parseSelf_envelope (content self) rkey (lenZ payload) payload stubEnd
             Hk (conj Hp Hsize) Hstub Hfit).
  split; [reflexivity|].
  change (ReadAllLimited _)
    with (takeZ (lenZ payload)
            (dropZ (lenZ (content self) + 64 + 24)
                   (envelope (content self) rkey (lenZ payload) payload))).
  rewrite envelope_payload by exact Hk. by apply takeZ_all.
Qed.

(** C10: called with no input paths, [create] dies at once with "no files
    to archive"; the file system it leaves is the one it was given, so the
    output path has been neither created nor truncated nor written. *)
Theorem create_without_files_touches_nothing
    (tarZstd : FS -> string -> list string -> list byte * option string)
    (entropy : option (list byte)) (fs : gmap (list string) node)
    (self : File) (key : list byte) (out cd : string) :
  create tarZstd entropy fs self key out [] cd = Fatal "no files to archive" fs.
Proof. reflexivity. Qed.

(** ** The mount probe *)

Lemma test_probe_tmp :
  checkExecutable (ProcData sampleMounts) "/tmp/sub/dir" = Verdict false.
Proof. reflexivity. Qed.

Lemma test_probe_other :
  checkExecutable (ProcData sampleMounts) "/other" = Verdict true.
Proof. reflexivity. Qed.

Lemma test_probe_panic :
  checkExecutable (ProcData "none /mnt") "/mnt" = IndexPanic.
Proof. reflexivity. Qed.

Lemma lenS_append a b : lenS (a ++ b) = lenS a + lenS b.
Proof.
  unfold lenS. induction a as [|c a IH].
  - change (String.append "" b) with b. simpl. lia.
  - change (String.append (String c a) b) with (String c (String.append a b)).
    simpl String.length. lia.
Qed.

Lemma prefix_lenS p : forall s, String.prefix p s = true -> lenS p <= lenS s.
Proof.
  unfold lenS. induction p as [|c p IH]; intros [|d s] H; simpl in *; try lia;
    try discriminate.
  destruct (ascii_dec c d); [|discriminate]. specialize (IH _ H). lia.
Qed.

Lemma lenS_withSeparator mp :
  lenS mp <= lenS (withSeparator mp) /\ 1 <= lenS (withSeparator mp).
Proof.
  unfold withSeparator, strings_HasSuffix.
  destruct ((String.length "/" <=? String.length mp)%nat
            && String.eqb _ "/") eqn:E.
  - apply andb_true_iff in E as [E _]. apply Nat.leb_le in E.
    unfold lenS. simpl in E. lia.
  - rewrite lenS_append. unfold lenS. simpl. lia.
Qed.

Lemma entryMatches_length path entry :
  entryMatches path entry = true -> mountLength entry <= lenS path + 1.
Proof.
  unfold entryMatches, mountLength. destruct (entryMount entry) as [[mp o]|]; [|discriminate].
  intros H. apply orb_true_iff in H as [H|H].
  - apply String.eqb_eq in H. subst mp.
    unfold withSeparator. destruct (strings_HasSuffix path "/"); [lia|].
    rewrite lenS_append. unfold lenS. simpl. lia.
  - apply prefix_lenS in H. lia.
Qed.

(** An entry whose mount point is the candidate itself is as long as any
    matching entry. *)
Lemma exact_is_longest path o e e' :
  entryMount e = Some (path, o) -> entryMatches path e' = true ->
  mountLength e' <= mountLength e.
Proof.
  intros He. unfold entryMatches, mountLength. rewrite He.
  destruct (entryMount e') as [[mp' o']|]; [|discriminate].
  intros H. apply orb_true_iff in H as [H|H].
  - apply String.eqb_eq in H. subst mp'. lia.
  - apply prefix_lenS in H. pose proof (lenS_withSeparator path). lia.
Qed.

(** The four ways one turn of the loop can go on a usable line. *)
Lemma probeEntry_cases path mntp noexec entry :
  usableLine entry ->
  (entryMatches path entry = false /\
   probeEntry path mntp noexec entry = Continue mntp noexec)
  \/ (exists o, entryMount entry = Some (path, o) /\
      entryMatches path entry = true /\
      probeEntry path mntp noexec entry = Break path (entryNoexec entry))
  \/ (entryMatches path entry = true /\ lenS mntp < mountLength entry /\
      exists m, lenS m = mountLength entry /\
      probeEntry path mntp noexec entry = Continue m (entryNoexec entry))
  \/ (entryMatches path entry = true /\ mountLength entry <= lenS mntp /\
      probeEntry path mntp noexec entry = Continue mntp noexec).
Proof.
  intros Hu. unfold probeEntry, entryMatches, mountLength, entryNoexec, entryMount.
  set (fields := strings_Split entry " ") in *. unfold usableLine in Hu. fold fields in Hu.
  rewrite lenZ_length in Hu.
  destruct Hu as [Hshort|Hlong].
  - left. rewrite lenZ_length.
    destruct (Z.ltb_spec (Z.of_nat (length fields)) 2); [|lia].
    rewrite (lookup_ge_None_2 fields 1) by lia. auto.
  - rewrite lenZ_length.
    destruct (Z.ltb_spec (Z.of_nat (length fields)) 2); [lia|].
    destruct (lookup_lt_is_Some_2 fields 1 ltac:(lia)) as [mp ->].
    destruct (lookup_lt_is_Some_2 fields 3 ltac:(lia)) as [o ->].
    cbv zeta. pose proof (lenS_withSeparator mp) as [Hw1 Hw2].
    destruct (Z.ltb_spec (lenS path) (lenS mp)) as [Hlt|Hge].
    { left. split; [|reflexivity]. apply orb_false_iff. split.
      - apply String.eqb_neq. intros ->. lia.
      - destruct (strings_HasPrefix path (withSeparator mp)) eqn:E; [|reflexivity].
        apply prefix_lenS in E. lia. }
    destruct (String.eqb_spec mp path) as [->|Hne].
    { right; left. exists o. auto. }
    rewrite orb_false_l.
    destruct (strings_HasPrefix path (withSeparator mp)) eqn:E.
    + destruct (Z.ltb_spec (lenS mntp) (lenS (withSeparator mp))).
      * right; right; left. repeat split; auto. by eexists.
      * right; right; right. auto.
    + left. auto.
Qed.

(** The loop, from a state that stands for the lines [seen] so far. *)
Lemma probeLoop_selects path : forall entries seen mntp noexec,
  Forall usableLine entries ->
  ((mntp = ""%string /\ noexec = false /\
    forall e, e ∈ seen -> entryMatches path e = false)
   \/ (exists e, e ∈ seen /\ entryMatches path e = true /\
       lenS mntp = mountLength e /\ noexec = entryNoexec e /\
       forall e', e' ∈ seen -> entryMatches path e' = true ->
                  mountLength e' <= mountLength e)) ->
  exists m n,
    probeLoop path entries mntp noexec = Some (m, n) /\
    ((n = false /\
      forall e, e ∈ (seen ++ entries)%list -> entryMatches path e = false)
     \/ (exists e, e ∈ (seen ++ entries)%list /\ entryMatches path e = true /\
         n = entryNoexec e /\
         forall e', e' ∈ (seen ++ entries)%list -> entryMatches path e' = true ->
                    mountLength e' <= mountLength e)).
Proof.
  induction entries as [|entry rest IH]; intros seen mntp noexec Hwf Hinv.
  - exists mntp, noexec. split; [reflexivity|]. rewrite app_nil_r.
    destruct Hinv as [(-> & -> & Hno)|(e & He & Hm & _ & -> & Hmax)]; [left|right]; eauto.
  - apply Forall_cons in Hwf as [Hu Hwf].
    replace (seen ++ entry :: rest)%list with ((seen ++ [entry]) ++ rest)%list
      by (by rewrite <- app_assoc).
    cbn [probeLoop].
    destruct (probeEntry_cases path mntp noexec entry Hu)
      as [(Hno & ->)|[(o & Hex & Hm & ->)|[(Hm & Hlt & m & Hlen & ->)|(Hm & Hle & ->)]]].
    + (* the line does not match *)
      apply IH; [exact Hwf|].
      destruct Hinv as [(-> & -> & Hnone)|(e & He & Hme & Hl & -> & Hmax)]; [left|right].
      * repeat split; auto. intros e He. apply elem_of_app in He as [He|He]; auto.
        apply list_elem_of_singleton in He. by subst.
      * exists e. repeat split; auto; [apply elem_of_app; auto|].
        intros e' He' Hm'. apply elem_of_app in He' as [He'|He']; auto.
        apply list_elem_of_singleton in He'. subst e'. congruence.
    + (* the mount point is the candidate: the loop is left *)
      exists path, (entryNoexec entry). split; [reflexivity|]. right.
      exists entry. repeat split; auto.
      * apply elem_of_app. left. apply elem_of_app. right. by apply list_elem_of_singleton.
      * intros e' _ Hm'. by apply (exact_is_longest path o).
    + (* a longer match than the one held *)
      apply IH; [exact Hwf|]. right. exists entry. repeat split; auto.
      * apply elem_of_app. right. by apply list_elem_of_singleton.
      * intros e' He' Hm'. apply elem_of_app in He' as [He'|He'].
        -- destruct Hinv as [(_ & _ & Hnone)|(e & He & Hme & Hl & _ & Hmax)].
           ++ rewrite Hnone in Hm' by exact He'. discriminate.
           ++ specialize (Hmax e' He' Hm'). lia.
        -- apply list_elem_of_singleton in He'. subst e'. lia.
    + (* a match no longer than the one held *)
      apply IH; [exact Hwf|].
      destruct Hinv as [(-> & -> & Hnone)|(e & He & Hme & Hl & -> & Hmax)].
      * exfalso. unfold entryMatches, mountLength in *.
        destruct (entryMount entry) as [[mp o]|]; [|discriminate].
        pose proof (lenS_withSeparator mp). unfold lenS in Hle at 2. simpl in Hle. lia.
      * right. exists e. repeat split; auto; [apply elem_of_app; auto|].
        intros e' He' Hm'. apply elem_of_app in He' as [He'|He']; auto.
        apply list_elem_of_singleton in He'. subst e'. lia.
Qed.

Lemma mountLength_raw e :
  cleanMountPoint e -> entryMount e <> None ->
  (mountLength e = 1 /\ mountPointLength e = 1)
  \/ (mountLength e = mountPointLength e + 1 /\ 1 <= mountPointLength e).
Proof.
  unfold cleanMountPoint, mountLength, mountPointLength.
  destruct (entryMount e) as [[mp o]|]; [|congruence].
  intros Hc _. destruct (Hc mp o eq_refl) as [->|[Hne Hs]].
  - left. split; reflexivity.
  - right. unfold withSeparator. rewrite Hs, lenS_append. split; [reflexivity|].
    destruct mp; [congruence|]. unfold lenS. simpl. lia.
Qed.

(** C6: on a mount table whose lines are usable, the probe answers for an
    entry that matches the candidate and whose mount point (separator
    included) is at least as long as that of every matching entry; on
    tables with clean mount points it is also the longest as written.  The
    answer is "executable" exactly when that entry's options do not contain
    [noexec]; with no matching entry the answer is "executable".  A mount
    table that cannot be opened or read gives "not executable".  On the
    table with [/] and [/tmp], only [/tmp] being [noexec], [/tmp/sub/dir] is
    not executable and [/other] is. *)
Theorem checkExecutable_longest_prefix (data path : string) :
  Forall usableLine (strings_Split data newline) ->
  (((forall e, e ∈ strings_Split data newline -> entryMatches path e = false) /\
    checkExecutable (ProcData data) path = Verdict true)
   \/ (exists e,
         e ∈ strings_Split data newline /\ entryMatches path e = true /\
         (forall e', e' ∈ strings_Split data newline -> entryMatches path e' = true ->
                     mountLength e' <= mountLength e) /\
         (Forall cleanMountPoint (strings_Split data newline) ->
          forall e', e' ∈ strings_Split data newline -> entryMatches path e' = true ->
                     mountPointLength e' <= mountPointLength e) /\
         checkExecutable (ProcData data) path = Verdict (negb (entryNoexec e)))) /\
  checkExecutable ProcOpenError path = Verdict false /\
  checkExecutable ProcReadError path = Verdict false /\
  checkExecutable (ProcData sampleMounts) "/tmp/sub/dir" = Verdict false /\
  checkExecutable (ProcData sampleMounts) "/other" = Verdict true.
Proof.
  intros Hwf. split; [|repeat split; reflexivity].
  destruct (probeLoop_selects path (strings_Split data newline) [] "" false Hwf)
    as (m & n & Hrun & Hfin).
  { left. repeat split; auto. intros e He. by apply elem_of_nil in He. }
  rewrite app_nil_l in Hfin. unfold checkExecutable. rewrite Hrun.
  destruct Hfin as [(-> & Hnone)|(e & He & Hm & -> & Hmax)]; [left; auto|right].
  exists e. repeat split; auto.
  intros Hclean e' He' Hm'. specialize (Hmax e' He' Hm').
  rewrite Forall_forall in Hclean.
  assert (forall x, entryMatches path x = true -> entryMount x <> None) as Hsome.
  { intros x Hx. unfold entryMatches in Hx. destruct (entryMount x); [discriminate|discriminate]. }
  destruct (mountLength_raw e (Hclean e He) (Hsome e Hm)) as [[? ?]|[? ?]];
    destruct (mountLength_raw e' (Hclean e' He') (Hsome e' Hm')) as [[? ?]|[? ?]]; lia.
Qed.

Lemma checkExecutable_longest_prefix_witness :
  (((forall e, e ∈ strings_Split sampleMounts newline ->
               entryMatches "/tmp/sub/dir" e = false) /\
    checkExecutable (ProcData sampleMounts) "/tmp/sub/dir" = Verdict true)
   \/ (exists e,
         e ∈ strings_Split sampleMounts newline /\ entryMatches "/tmp/sub/dir" e = true /\
         (forall e', e' ∈ strings_Split sampleMounts newline ->
                     entryMatches "/tmp/sub/dir" e' = true ->
                     mountLength e' <= mountLength e) /\
         (Forall cleanMountPoint (strings_Split sampleMounts newline) ->
          forall e', e' ∈ strings_Split sampleMounts newline ->
                     entryMatches "/tmp/sub/dir" e' = true ->
                     mountPointLength e' <= mountPointLength e) /\
         checkExecutable (ProcData sampleMounts) "/tmp/sub/dir"
         = Verdict (negb (entryNoexec e)))) /\
  checkExecutable ProcOpenError "/tmp/sub/dir" = Verdict false /\
  checkExecutable ProcReadError "/tmp/sub/dir" = Verdict false /\
  checkExecutable (ProcData sampleMounts) "/tmp/sub/dir" = Verdict false /\
  checkExecutable (ProcData sampleMounts) "/other" = Verdict true.
Proof.
  apply (checkExecutable_longest_prefix sampleMounts "/tmp/sub/dir").
  repeat (apply Forall_cons; split; [unfold usableLine; simpl; lia|]).
  apply Forall_nil_2.
Defined.

(** ** Paths *)

Lemma strings_Split_nonempty s sep : strings_Split s sep <> [].
Proof.
  destruct s as [|c s]; simpl; [discriminate|].
  destruct (Ascii.eqb c sep); [discriminate|].
  destruct (strings_Split s sep); discriminate.
Qed.

Lemma strings_Split_app a b sep :
  strings_Split (a ++ String sep b) sep
  = (strings_Split a sep ++ strings_Split b sep)%list.
Proof.
  induction a as [|c a IH].
  - change (String.append "" (String sep b)) with (String sep b).
    simpl. by rewrite Ascii.eqb_refl.
  - change (String.append (String c a) (String sep b))
      with (String c (String.append a (String sep b))).
    cbn [strings_Split]. rewrite IH.
    destruct (Ascii.eqb c sep); [reflexivity|].
    pose proof (strings_Split_nonempty a sep).
    destruct (strings_Split a sep) as [|h t]; [congruence|]. reflexivity.
Qed.

Lemma cleanStep_valid st n : validName n -> cleanStep st n = n :: st.
Proof.
  intros (_ & H1 & H2 & H3). unfold cleanStep.
  apply String.eqb_neq in H1, H2, H3. by rewrite H1, H2, H3.
Qed.

(** Joining a proper name to a directory adds one component. *)
Lemma resolve_Join dir n :
  dir <> ""%string -> validName n ->
  resolve (filepath_Join dir n) = (resolve dir ++ [n])%list.
Proof.
  intros Hd Hn. unfold filepath_Join.
  apply String.eqb_neq in Hd. rewrite Hd.
  destruct Hn as (Hs & Hne & Hrest). pose proof Hne as Hne'.
  apply String.eqb_neq in Hne'. rewrite Hne'.
  unfold resolve.
  change (String.append "/" n) with (String "/"%char n).
  rewrite strings_Split_app, Hs, fold_left_app. cbn [fold_left].
  rewrite cleanStep_valid by (repeat split; tauto). reflexivity.
Qed.

Lemma keyFileName_valid : validName keyFileName.
Proof. repeat split; discriminate || reflexivity. Qed.

Lemma parentOf_snoc (p : list string) n : parentOf (p ++ [n]) = p.
Proof. unfold parentOf. apply removelast_last. Qed.

Lemma lookupNode_ne (fs : gmap (list string) node) p q nd :
  p <> q -> lookupNode (<[p := nd]> fs) q = lookupNode fs q.
Proof.
  intros Hne. destruct q as [|c q]; [reflexivity|].
  cbn [lookupNode]. by rewrite lookup_insert_ne.
Qed.

(** ** The key file *)

Lemma hexDigit_noSpace n : isSpace (hexDigit n) = false.
Proof.
  unfold hexDigit. generalize (N.to_nat n). intros k.
  do 16 (destruct k as [|k]; [reflexivity|]). reflexivity.
Qed.

Lemma hex_noSpace src : noSpace (hex_EncodeToString src) = true.
Proof.
  induction src as [|b src IH]; [reflexivity|].
  cbn [hex_EncodeToString noSpace]. by rewrite !hexDigit_noSpace, IH.
Qed.

Lemma TrimSpace_noSpace s : noSpace s = true -> strings_TrimSpace s = s.
Proof.
  intros H. unfold strings_TrimSpace.
  assert (trimLeft s = s) as ->.
  { destruct s as [|c s]; [reflexivity|]. simpl in *.
    apply andb_true_iff in H as [H _]. apply negb_true_iff in H. by rewrite H. }
  induction s as [|c s IH]; [reflexivity|].
  simpl in H. apply andb_true_iff in H as [Hc Hs]. apply negb_true_iff in Hc.
  cbn [trimRight]. rewrite (IH Hs). destruct s; [by rewrite Hc|reflexivity].
Qed.

(** The key file that [createKeyFile] writes is read back as the key. *)
Lemma key_file_matches k :
  String.eqb (hex_EncodeToString k)
    (strings_TrimSpace
       (string_of_list_byte (list_byte_of_string (hex_EncodeToString k)))) = true.
Proof.
  rewrite string_of_list_byte_of_string, TrimSpace_noSpace by apply hex_noSpace.
  apply String.eqb_refl.
Qed.

(** ** Directory listings *)

Lemma entryNames_elem (fs : gmap (list string) node) p x :
  x ∈ entryNames fs p <-> exists nd, fs !! (p ++ [x])%list = Some nd.
Proof.
  unfold entryNames. rewrite list_elem_of_omap. split.
  - intros ([q nd] & Hin & Hf). apply elem_of_map_to_list in Hin.
    destruct (bool_decide_reflect (q <> [] /\ parentOf q = p)) as [[Hq Hp]|]; [|discriminate].
    exists nd. destruct (exists_last Hq) as (q' & y & ->).
    rewrite parentOf_snoc in Hp. subst q'.
    rewrite last_snoc in Hf. by injection Hf as ->.
  - intros [nd Hnd]. exists ((p ++ [x])%list, nd). split.
    + by apply elem_of_map_to_list.
    + rewrite bool_decide_eq_true_2.
      * apply last_snoc.
      * split; [by destruct p | apply parentOf_snoc].
Qed.

Lemma os_Create_parent (fs fs1 : gmap (list string) node) name :
  os_Create fs name = Some fs1 ->
  lookupNode fs (parentOf (resolve name)) = Some Dir.
Proof.
  unfold os_Create, parentIsDir.
  destruct (lookupNode fs (parentOf (resolve name))) as [[| |]|]; try discriminate.
  reflexivity.
Qed.

(** ** Extracting twice *)

(** What [createKeyFile] leaves: the directory is still a directory, it
    lists the key file, and the key file holds the key in hexadecimal. *)
Lemma createKeyFile_leaves (se : selfExtractor) (fs fs' : gmap (list string) node) :
  extractDir se <> ""%string ->
  createKeyFile se fs = Ok fs' ->
  os_Stat fs' (extractDir se) = Some Dir /\
  keyFileName ∈ entryNames fs' (resolve (extractDir se)) /\
  readFile fs' (filepath_Join (extractDir se) keyFileName)
  = Data (list_byte_of_string (hex_EncodeToString (key se))).
Proof.
  intros Hdir. unfold createKeyFile.
  destruct (os_Create fs _) as [fs1|] eqn:Hc; [|discriminate].
  pose proof (os_Create_parent _ _ _ Hc) as Hpar.
  apply os_Create_some in Hc as [Hne [m ->]].
  rewrite f_Write_insert. unfold fst. intros H. apply Ok_inj in H. subst fs'.
  rewrite resolve_Join in * by (auto using keyFileName_valid).
  rewrite parentOf_snoc in Hpar.
  change (writeAt [] 0 ?d) with (writeAt [] (lenZ (@nil byte)) d).
  rewrite writeAt_end, app_nil_l.
  split; [|split].
  - unfold os_Stat. rewrite lookupNode_ne; [exact Hpar|].
    intros Heq. apply (f_equal length) in Heq. rewrite length_app in Heq. simpl in Heq. lia.
  - apply entryNames_elem. eexists. apply lookup_insert_eq.
  - unfold readFile. rewrite resolve_Join by (auto using keyFileName_valid).
    destruct (resolve (extractDir se) ++ [keyFileName])%list eqn:E.
    + by destruct (resolve (extractDir se)).
    + unfold lookupNode. by rewrite lookup_insert_eq.
Qed.

(** With a configured directory, [prepareExtractDir] records it, keeps key
    and payload, and sets [skipExtract] only where it leaves the file system
    as it found it, with a key file that holds the key. *)
Lemma prepareExtractDir_configured (env : Env) (se se' : selfExtractor)
    (fs fs' : gmap (list string) node) :
  envDir env <> ""%string ->
  prepareExtractDir env se fs = Ok (se', fs') ->
  extractDir se' = envDir env /\ key se' = key se /\ payload se' = payload se /\
  tempDir se' = tempDir se /\
  (skipExtract se = false -> skipExtract se' = true ->
   fs' = fs /\
   exists keyData,
     readFile fs (filepath_Join (envDir env) keyFileName) = Data keyData /\
     hex_EncodeToString (key se) = strings_TrimSpace (string_of_list_byte keyData)).
Proof.
  intros Hdir. unfold prepareExtractDir.
  apply String.eqb_neq in Hdir. rewrite Hdir.
  destruct (os_Stat fs (envDir env)) as [[| |]|]; try discriminate.
  - destruct (os_ReadDir fs (envDir env)) as [entries|]; [|discriminate].
    destruct (lenZ entries =? 0).
    { intros H. apply Ok_inj in H. injection H as <- <-. cbn. repeat split; congruence. }
    destruct (readFile fs _) as [keyData| |]; try discriminate.
    destruct (String.eqb_spec (hex_EncodeToString
                (key (withExtractDir se (envDir env) (tempDir se) (skipExtract se))))
                (strings_TrimSpace (string_of_list_byte keyData))) as [Heq|Hneq].
    + intros H. apply Ok_inj in H. injection H as <- <-. cbn. repeat split; eauto.
    + destruct (cleanupDir fs (envDir env)); [|discriminate].
      intros H. apply Ok_inj in H. injection H as <- <-. cbn. repeat split; congruence.
  - destruct (os_MkdirAll fs (envDir env)) as [fs1 [|]]; [|discriminate].
    intros H. apply Ok_inj in H. injection H as <- <-. cbn. repeat split; congruence.
Qed.

(** A run that finds [skipExtract] set writes nothing, whatever the
    payload holds. *)
Lemma extract_skipped (zstdTar : list byte -> option (list TarItem))
    (se : selfExtractor) (fs : gmap (list string) node) :
  skipExtract se = true -> extract zstdTar se fs = Ok fs.
Proof. intros H. unfold extract. by rewrite H. Qed.

(** C4: with a configured extraction directory, after a first run whose
    [prepareExtractDir] and [extract] both succeeded, the second run of the
    same archive (same payload reader, same key) on the file system the
    first one left finds a key file that holds the key in hexadecimal, sets
    [skipExtract], and its [extract] returns at once: the file-writing pass
    [extractAll] is not entered, whatever the payload decodes to, and the
    file system stays as the first run left it. *)
Theorem second_extraction_is_skipped
    (zstdTar : list byte -> option (list TarItem)) (env : Env)
    (reader : LimitedReader) (archiveKey : list byte)
    (fs0 fs1 fs2 : gmap (list string) node) (se1 : selfExtractor) :
  envDir env <> ""%string ->
  prepareExtractDir env (newExtractor reader archiveKey) fs0 = Ok (se1, fs1) ->
  extract zstdTar se1 fs1 = Ok fs2 ->
  exists se2 keyData,
    prepareExtractDir env (newExtractor reader archiveKey) fs2 = Ok (se2, fs2) /\
    skipExtract se2 = true /\
    extractDir se2 = envDir env /\
    readFile fs2 (filepath_Join (envDir env) keyFileName) = Data keyData /\
    hex_EncodeToString archiveKey = strings_TrimSpace (string_of_list_byte keyData) /\
    forall codec, extract codec se2 fs2 = Ok fs2.
Proof.
  intros Hdir Hprep Hext.
  destruct (prepareExtractDir_configured _ _ _ _ _ Hdir Hprep)
    as (Hd & Hk & Hp & Ht & Hskip).
  cbn [newExtractor key payload tempDir skipExtract] in Hk, Hp, Ht, Hskip.
  unfold extract in Hext. destruct (skipExtract se1) eqn:Hs.
  - (* the first run already found its key: nothing was written *)
    apply Ok_inj in Hext. subst fs2.
    destruct (Hskip eq_refl eq_refl) as (-> & keyData & Hread & Hhex).
    exists se1, keyData. repeat split; auto.
    intros codec. by apply extract_skipped.
  - (* the first run extracted, and wrote the key file last *)
    unfold extractAll in Hext.
    destruct (zstdTar _) as [items|]; [|discriminate].
    destruct (extractEntries (extractDir se1) items fs1) as [fsl| |]; try discriminate.
    destruct (createKeyFile_leaves se1 fsl fs2 ltac:(congruence) Hext)
      as (Hstat & Hlist & Hread).
    rewrite Hd in Hstat, Hlist, Hread. rewrite Hk in Hread.
    eexists _, _. split; [|split; [|split; [|split; [exact Hread|split]]]].
    + unfold prepareExtractDir.
      pose proof Hdir as Hdir'. apply String.eqb_neq in Hdir'. rewrite Hdir'.
      rewrite Hstat. unfold os_ReadDir. unfold os_Stat in Hstat. rewrite Hstat.
      assert ((lenZ (entryNames fs2 (resolve (envDir env))) =? 0) = false) as ->.
      { apply Z.eqb_neq. destruct (entryNames fs2 (resolve (envDir env))).
        - by apply elem_of_nil in Hlist.
        - cbn [lenZ]. pose proof (lenZ_nonneg l). lia. }
      rewrite Hread. cbn [withExtractDir key newExtractor].
      rewrite key_file_matches. reflexivity.
    + reflexivity.
    + reflexivity.
    + apply String.eqb_eq, key_file_matches.
    + intros codec. by apply extract_skipped.
Qed.

Lemma second_extraction_is_skipped_witness :
  exists se2 keyData,
    prepareExtractDir sampleEnv (newExtractor sampleReader sampleKey) sampleExtracted
    = Ok (se2, sampleExtracted) /\
    skipExtract se2 = true /\
    extractDir se2 = envDir sampleEnv /\
    readFile sampleExtracted (filepath_Join (envDir sampleEnv) keyFileName)
    = Data keyData /\
    hex_EncodeToString sampleKey = strings_TrimSpace (string_of_list_byte keyData) /\
    forall codec, extract codec se2 sampleExtracted = Ok sampleExtracted.
Proof.
  apply (second_extraction_is_skipped sampleTar sampleEnv sampleReader sampleKey
           ∅ (<[ ["cache"%string] := Dir ]> ∅) sampleExtracted
           (withExtractDir (newExtractor sampleReader sampleKey) "cache" false false)).
  - discriminate.
  - reflexivity.
  - reflexivity.
Defined.

(** ** A non-empty directory without a matching key *)

Lemma os_RemoveAll_lookup (fs : gmap (list string) node) (name : string)
    (q : list string) :
  os_RemoveAll fs name !! q
  = if decide (resolve name `prefix_of` q) then None else fs !! q.
Proof.
  unfold os_RemoveAll. destruct (decide (resolve name `prefix_of` q)) as [Hp|Hp].
  - apply map_lookup_filter_None. right. intros nd _ Hn. exact (Hn Hp).
  - destruct (fs !! q) as [nd|] eqn:E.
    + apply map_lookup_filter_Some. split; [exact E | exact Hp].
    + apply map_lookup_filter_None. by left.
Qed.

Lemma cleanup_fold_kept (dir : string) (names : list string) :
  forall (fs : gmap (list string) node) (q : list string),
  (forall n, n ∈ names -> ~ resolve (filepath_Join dir n) `prefix_of` q) ->
  fold_left (fun fs entry => os_RemoveAll fs (filepath_Join dir entry)) names fs !! q
  = fs !! q.
Proof.
  induction names as [|n names IH]; intros fs q Hno; [reflexivity|].
  cbn [fold_left]. rewrite IH.
  - rewrite os_RemoveAll_lookup. destruct (decide _) as [Hp|]; [|reflexivity].
    exfalso. apply (Hno n); [left | exact Hp].
  - intros m Hm. apply Hno. by right.
Qed.

Lemma cleanup_fold_sub (dir : string) (names : list string) :
  forall (fs : gmap (list string) node) (q : list string) (nd : node),
  fold_left (fun fs entry => os_RemoveAll fs (filepath_Join dir entry)) names fs !! q
  = Some nd -> fs !! q = Some nd.
Proof.
  induction names as [|n names IH]; intros fs q nd H; [exact H|].
  cbn [fold_left] in H. apply IH in H. rewrite os_RemoveAll_lookup in H.
  by destruct (decide _).
Qed.

Lemma cleanup_fold_gone (dir : string) (names : list string) :
  forall (fs : gmap (list string) node) (q : list string) (n : string),
  n ∈ names -> resolve (filepath_Join dir n) `prefix_of` q ->
  fold_left (fun fs entry => os_RemoveAll fs (filepath_Join dir entry)) names fs !! q
  = None.
Proof.
  induction names as [|m names IH]; intros fs q n Hn Hp.
  - by apply elem_of_nil in Hn.
  - cbn [fold_left]. apply elem_of_cons in Hn as [->|Hn].
    + destruct (fold_left _ names _ !! q) as [nd|] eqn:E; [|reflexivity].
      apply cleanup_fold_sub in E. rewrite os_RemoveAll_lookup in E.
      by destruct (decide _).
    + by apply (IH _ _ n).
Qed.



(** The stale directory of the example is wiped and the new archive is
    extracted into it. *)
Lemma test_stale_directory_is_replaced :
  match prepareExtractDir sampleEnv (newExtractor sampleReader sampleKey) staleExtracted with
  | Ok (se, fs) => extract sampleTar se fs
  | Fatal msg fs => Fatal msg fs
  | Panicked fs => Panicked fs
  end = Ok sampleExtracted.
Proof. reflexivity. Qed.

Lemma test_foreign_directory_is_refused :
  prepareExtractDir sampleEnv (newExtractor sampleReader sampleKey)
    (<[ ["cache"; "notes.txt"]%string := Reg [x6f] mode0666 ]>
     (<[ ["cache"%string] := Dir ]> ∅))
  = Fatal "opening key file (extraction dir must be empty or contain a valid key file):"
      (<[ ["cache"; "notes.txt"]%string := Reg [x6f] mode0666 ]>
       (<[ ["cache"%string] := Dir ]> ∅)).
Proof. reflexivity. Qed.

(** ** The command line *)

Lemma test_shlex :
  shlex_Split "a 'b c' d\'e f\ g # tail" = Some ["a"; "b c"; "d'e"; "f g"]%string.
Proof. reflexivity. Qed.

Lemma test_shlex_double_quotes :
  shlex_Split (String doubleQuote ("a b\" ++ String doubleQuote ("c" ++ String doubleQuote " d")))
  = Some [("a b" ++ String doubleQuote "c")%string; "d"%string].
Proof. reflexivity. Qed.

Lemma test_shlex_open_quote : shlex_Split "a 'b" = None.
Proof. reflexivity. Qed.

Lemma test_runCmdline_args :
  runCmdline (fun dir args =>
                if bool_decide (args = ["cache/run.sh"; "--fast"; "x"]%string)
                then Exited 7 else StartError)
             {| envDir := "cache"; envExtractOnly := ""; tempDirName := "/tmp";
                executableDir := None; procMounts := ProcOpenError;
                tempSuffix := ""; Args := ["app"; "x"]%string |}
             sampleExtractor sampleCmdline "cache/selfextract_cmdline"
  = Send 7.
Proof. reflexivity. Qed.

(** C9, at an archive whose command line file is empty, run without
    arguments: the tokenizer delivers no word, [os.Args[1:]] is empty, the
    argument vector is empty where [args[0]] is taken, and [runCmdline]
    panics.  The same happens for a file of blanks or of a comment. *)
Theorem runCmdline_empty_command_line_panics :
  shlex_Split (strings_ReplaceAll (strings_TrimSpace "") placeholder "cache") = Some [] /\
  runCmdline childExits7 sampleEnv sampleExtractor emptyCmdline "cache/selfextract_cmdline"
  = Panics /\
  startup childExits7 sampleEnv sampleExtractor emptyCmdline = Panics.
Proof. repeat split; reflexivity. Qed.


(** ** The race for the exit code *)

Lemma sends_app tr1 tr2 : sends (tr1 ++ tr2) = (sends tr1 ++ sends tr2)%list.
Proof.
  induction tr1 as [|e tr1 IH]; [reflexivity|].
  destruct e; cbn [app sends]; rewrite IH; reflexivity.
Qed.

Lemma before_later e1 e2 e tr : before e1 e2 tr -> before e1 e2 (tr ++ [e]).
Proof.
  intros (a & b & c & ->). exists a, b, (c ++ [e])%list.
  by rewrite <- !app_assoc, <- !app_comm_cons, <- app_assoc.
Qed.

Lemma before_now e1 e2 tr : In e1 tr -> before e1 e2 (tr ++ [e2]).
Proof.
  intros Hin. apply in_split in Hin as (a & b & ->). exists a, b, [].
  by rewrite <- app_assoc, <- app_comm_cons.
Qed.

Lemma In_snoc {A} (x e : A) tr : In x (tr ++ [e]) <-> In x tr \/ x = e.
Proof. rewrite in_app_iff. simpl. intuition. Qed.

Lemma head_app_keep {A} (l k : list A) x : head l = Some x -> head (l ++ k) = Some x.
Proof. destruct l; [discriminate|]. exact id. Qed.

Lemma raceInvariant_initial grace report : raceInvariant grace report [] initial.
Proof.
  unfold raceInvariant, initial. cbn [sigG startG sendq mainG sends].
  split; [intros _; split; [reflexivity | intros ? ? []]|].
  split; [intros ? ? []|]. split; [discriminate|]. split; [intros ? []|].
  split; [discriminate|]. split; [discriminate|]. split; intros ? [].
Qed.

Lemma raceInvariant_step grace report tr c e c' :
  raceInvariant grace report tr c -> step grace report c e c' ->
  raceInvariant grace report (tr ++ [e]) c'.
Proof.
  intros (I1 & I2 & I3 & I4 & I5 & I6 & I7 & I8) Hstep.
  assert (alive c) as Ha.
  { inversion Hstep; subst; try assumption;
      unfold alive, exited;
      match goal with H : mainG c = _ |- _ => by rewrite H end. }
  assert (forall v, ~ In (ExitWith v) tr) as Hnoexit.
  { intros v Hin. apply I4 in Hin as [Hm _]. unfold alive, exited in Ha.
    by rewrite Hm in Ha. }
  assert (forall v, In (SendBy SignalTask v) (tr ++ [e]) -> e <> SendBy SignalTask 2 ->
            v = 2 /\ before Signal (SendBy SignalTask 2) (tr ++ [e]) /\
            (grace <> 0 -> before GraceElapsed (SendBy SignalTask 2) (tr ++ [e]))) as Hold7.
  { intros v Hin Hne. apply In_snoc in Hin as [Hin|Hin].
    - destruct (I7 v Hin) as (-> & Hb1 & Hb2). repeat split; auto using before_later.
    - subst e. inversion Hstep; subst; congruence. }
  assert (forall v, In (SendBy StartupTask v) (tr ++ [e]) -> report = Send v) as Hnew8.
  { intros v Hin. apply In_snoc in Hin as [Hin|Hin]; [by apply I8|].
    subst e. inversion Hstep; subst; congruence. }
  assert (e <> Signal -> sigG c' = SigSleeping -> In Signal (tr ++ [e]) /\ grace <> 0) as Hnew5.
  { intros Hne Hs. assert (sigG c = SigSleeping) as Hs'
      by (inversion Hstep; subst; cbn [sigG withMain withSig] in Hs; congruence).
    destruct (I5 Hs'). split; [apply In_snoc; by left | assumption]. }
  assert (e <> Signal -> e <> GraceElapsed -> sigG c' = SigReady ->
          In Signal (tr ++ [e]) /\ (grace <> 0 -> In GraceElapsed (tr ++ [e]))) as Hnew6.
  { intros Hne1 Hne2 Hs. assert (sigG c = SigReady) as Hs'
      by (inversion Hstep; subst; cbn [sigG withMain withSig] in Hs; congruence).
    destruct (I6 Hs') as [? Hg]. split; [apply In_snoc; by left|].
    intros Hgr. apply In_snoc. left. by apply Hg. }
  assert (forall who v, In (Receive who v) (tr ++ [e]) ->
            head (sends (tr ++ [e])) = Some (who, v)) as Hnew2.
  { intros who v Hin. rewrite sends_app. apply In_snoc in Hin as [Hin|Hin].
    - apply head_app_keep. by apply I2.
    - subst e. inversion Hstep; subst. cbn [sends]. rewrite app_nil_r.
      destruct I1 as [Hq _]; [by right|]. rewrite <- Hq.
      match goal with H : sendq c = _ |- _ => by rewrite H end. }
  split; [|split; [exact Hnew2|split; [|split; [|split; [|split;
    [|split; [|exact Hnew8]]]]]]].
  - (* before the reception the queue holds the reports *)
    intros Hm.
    assert (mainG c = MainBusy \/ mainG c = MainReceiving) as Hm'.
    { inversion Hstep; subst; cbn [mainG withMain withSig] in Hm; auto;
        destruct Hm; discriminate. }
    destruct (I1 Hm') as [Hq Hno]. split.
    + rewrite sends_app.
      inversion Hstep; subst; cbn [sendq mainG withMain withSig sends] in *;
        rewrite ?app_nil_r; try congruence; destruct Hm; discriminate.
    + intros who v Hin. apply In_snoc in Hin as [Hin|Hin]; [by eapply Hno|].
      subst e. inversion Hstep; subst. cbn [mainG] in Hm. destruct Hm; discriminate.
  - (* in cleanup: with the value received *)
    intros v Hm.
    destruct (decide (e = Receive (match head (sendq c) with
                                   | Some (w, _) => w | None => SignalTask end) v))
      as [->|Hne].
    { eexists. apply In_snoc. by right. }
    assert (mainG c = MainCleaning v) as Hm'.
    { inversion Hstep; subst; cbn [mainG withMain withSig] in Hm; try congruence.
      exfalso. injection Hm as <-. apply Hne.
      match goal with H : sendq c = _ |- _ => by rewrite H end. }
    destruct (I3 v Hm') as [who Hin]. exists who. apply In_snoc. by left.
  - (* exited through os.Exit: with the value received *)
    intros v Hin. apply In_snoc in Hin as [Hin|Hin]; [by apply Hnoexit in Hin|].
    subst e. inversion Hstep; subst. cbn [mainG withMain]. split; [reflexivity|].
    match goal with H : mainG c = MainCleaning v |- _ => destruct (I3 v H) as [who Hw] end.
    exists who. apply In_snoc. by left.
  - (* asleep: signalled, with a grace period *)
    destruct (decide (e = Signal)) as [->|Hne]; [|by apply Hnew5].
    inversion Hstep; subst. cbn [sigG withSig].
    destruct (Z.eqb_spec grace 0); [discriminate|]. intros _.
    split; [apply In_snoc; by right | assumption].
  - (* ready to send: signalled, and the grace period is over *)
    destruct (decide (e = Signal)) as [->|Hne1].
    { inversion Hstep; subst. cbn [sigG withSig].
      destruct (Z.eqb_spec grace 0); [|discriminate]. intros _.
      split; [apply In_snoc; by right | intros; contradiction]. }
    destruct (decide (e = GraceElapsed)) as [->|Hne2]; [|by apply Hnew6].
    inversion Hstep; subst. intros _.
    match goal with H : sigG c = SigSleeping |- _ => destruct (I5 H) end.
    split; [apply In_snoc; by left | intros _; apply In_snoc; by right].
  - (* the report of the signal task is 2, after the signal and the grace period *)
    intros v Hin.
    destruct (decide (e = SendBy SignalTask 2)) as [->|Hne]; [|by apply Hold7].
    inversion Hstep; subst.
    match goal with H : sigG c = SigReady |- _ => destruct (I6 H) as [Hs Hg] end.
    assert (v = 2) as ->.
    { apply In_snoc in Hin as [Hin|Hin]; [by apply I7 | congruence]. }
    split; [reflexivity|]. split; [by apply before_now|].
    intros Hgr. by apply before_now, Hg.
Qed.

Lemma exec_invariant grace report tr c :
  exec grace report initial tr c -> raceInvariant grace report tr c.
Proof.
  intros Hexec. remember initial as c0 eqn:Hc0.
  induction Hexec as [c|c1 tr c2 e c3 Hexec IH Hstep].
  - subst c. apply raceInvariant_initial.
  - eapply raceInvariant_step; [by apply IH | exact Hstep].
Qed.

Lemma sends_In who v tr : In (who, v) (sends tr) -> In (SendBy who v) tr.
Proof.
  induction tr as [|e tr IH]; [tauto|].
  destruct e; cbn [sends]; intros H; try (right; by apply IH).
  destruct H as [H|H]; [left; congruence | right; by apply IH].
Qed.

Lemma head_In {A} (x : A) l : head l = Some x -> In x l.
Proof. destruct l; [discriminate|]. intros [= ->]. by left. Qed.


(** The child's end, as [startup] reports it. *)
Lemma startup_runs_child (runChild : string -> list string -> ChildResult)
    (env : Env) (se : selfExtractor) (fs : gmap (list string) node)
    (nd : node) (cmdbytes : list byte) (words : list string)
    (arg0 : string) (rest argv : list string) :
  isTruthy (envExtractOnly env) = false ->
  os_Stat fs (cmdlinePath se) = Some nd ->
  readFile fs (cmdlinePath se) = Data cmdbytes ->
  shlex_Split (substituted se cmdbytes) = Some words ->
  Args env = arg0 :: rest ->
  argv = (words ++ rest)%list -> argv <> [] ->
  startup runChild env se fs
  = match runChild (extractDir se) argv with
    | Exited code => Send code
    | Killed => Send (-1)
    | StartError => Send 1
    end.
Proof.
  intros Ht Hs Hr Hw Ha -> Hne. unfold startup. rewrite Ht.
  fold (cmdlinePath se). rewrite Hs. unfold runCmdline. rewrite Hr.
  fold (substituted se cmdbytes). rewrite Hw, Ha.
  destruct (words ++ rest)%list; [congruence|]. reflexivity.
Qed.



(** A signal that arrives during the extraction wins over a child that
    exits with status 7. *)
Lemma test_signal_wins :
  exec 10 (Send 7) initial
    [Signal; GraceElapsed; SendBy SignalTask 2; Spawn; SendBy StartupTask 7;
     Receive SignalTask 2; ExitWith 2]
    (mkConfig SigBlocked StartBlocked [(StartupTask, 7)] (MainExited 2)).
Proof.
  apply (exec_step _ _ _ [Signal; GraceElapsed; SendBy SignalTask 2; Spawn;
                          SendBy StartupTask 7; Receive SignalTask 2]
           (mkConfig SigBlocked StartBlocked [(StartupTask, 7)] (MainCleaning 2))).
  2:{ by apply (step_exit _ _
                  (mkConfig SigBlocked StartBlocked [(StartupTask, 7)] (MainCleaning 2)) 2). }
  apply (exec_step _ _ _ [Signal; GraceElapsed; SendBy SignalTask 2; Spawn;
                          SendBy StartupTask 7]
           (mkConfig SigBlocked StartBlocked [(SignalTask, 2); (StartupTask, 7)]
                     MainReceiving)).
  2:{ by apply (step_receive _ _
                  (mkConfig SigBlocked StartBlocked [(SignalTask, 2); (StartupTask, 7)]
                            MainReceiving) SignalTask 2 [(StartupTask, 7)]). }
  apply (exec_step _ _ _ [Signal; GraceElapsed; SendBy SignalTask 2; Spawn]
           (mkConfig SigBlocked StartRunning [(SignalTask, 2)] MainReceiving)).
  2:{ apply (step_startup_send _ _
               (mkConfig SigBlocked StartRunning [(SignalTask, 2)] MainReceiving) 7);
        reflexivity. }
  apply (exec_step _ _ _ [Signal; GraceElapsed; SendBy SignalTask 2]
           (mkConfig SigBlocked StartUnborn [(SignalTask, 2)] MainBusy)).
  2:{ by apply (step_spawn _ _ (mkConfig SigBlocked StartUnborn [(SignalTask, 2)] MainBusy)). }
  apply (exec_step _ _ _ [Signal; GraceElapsed]
           (mkConfig SigReady StartUnborn [] MainBusy)).
  2:{ apply (step_signal_send _ _ (mkConfig SigReady StartUnborn [] MainBusy));
        reflexivity. }
  apply (exec_step _ _ _ [Signal] (mkConfig SigSleeping StartUnborn [] MainBusy)).
  2:{ apply (step_grace _ _ (mkConfig SigSleeping StartUnborn [] MainBusy)); reflexivity. }
  apply (exec_step _ _ _ [] initial); [apply exec_nil|].
  apply (step_signal 10 _ initial); reflexivity.
Qed.

(** A [die] of the startup task during [main]'s cleanup ends the process
    with status 1, although the signal task's report was received. *)
Lemma test_die_during_cleanup :
  exec 0 (Dies "failed to find cmdline file, quitting...") initial
    [Signal; SendBy SignalTask 2; Spawn; Receive SignalTask 2; Down 1]
    (mkConfig SigBlocked StartRunning [] (MainExited 1)).
Proof.
  apply (exec_step _ _ _ [Signal; SendBy SignalTask 2; Spawn; Receive SignalTask 2]
           (mkConfig SigBlocked StartRunning [] (MainCleaning 2))).
  2:{ apply (step_startup_dies _ _
               (mkConfig SigBlocked StartRunning [] (MainCleaning 2))
               "failed to find cmdline file, quitting..."); reflexivity. }
  apply (exec_step _ _ _ [Signal; SendBy SignalTask 2; Spawn]
           (mkConfig SigBlocked StartRunning [(SignalTask, 2)] MainReceiving)).
  2:{ by apply (step_receive _ _
                  (mkConfig SigBlocked StartRunning [(SignalTask, 2)] MainReceiving)
                  SignalTask 2 []). }
  apply (exec_step _ _ _ [Signal; SendBy SignalTask 2]
           (mkConfig SigBlocked StartUnborn [(SignalTask, 2)] MainBusy)).
  2:{ by apply (step_spawn _ _ (mkConfig SigBlocked StartUnborn [(SignalTask, 2)] MainBusy)). }
  apply (exec_step _ _ _ [Signal] (mkConfig SigReady StartUnborn [] MainBusy)).
  2:{ apply (step_signal_send _ _ (mkConfig SigReady StartUnborn [] MainBusy));
        reflexivity. }
  apply (exec_step _ _ _ [] initial); [apply exec_nil|].
  apply (step_signal 0 _ initial); reflexivity.
Qed.

(* ------------------------------------------------------------------ *)
(** * Further properties of the scanner and of the two modes *)

(** ** Where the loop of [parseSelf] stops *)

Lemma Index_first s sep : forall i j,
  bytes_Index s sep = i -> (j < Z.to_nat i)%nat ->
  bytes_HasPrefix (drop j s) sep = false.
Proof.
  induction s as [|a s IH]; intros i j Hi Hj.
  - simpl in Hi. destruct (bytes_HasPrefix [] sep) eqn:Hp; [subst i; simpl in Hj; lia|].
    by destruct j.
  - cbn [bytes_Index] in Hi.
    destruct (bytes_HasPrefix (a :: s) sep) eqn:Hp; [subst i; simpl in Hj; lia|].
    destruct (Z.ltb_spec (bytes_Index s sep) 0) as [Hn|Hn]; [subst i; simpl in Hj; lia|].
    destruct j as [|j]; [exact Hp|].
    cbn [drop]. apply (IH (bytes_Index s sep)); [reflexivity|lia].
Qed.

Lemma HasPrefix_block (c sep : list byte) (o i len : Z) :
  0 <= i -> 0 <= o -> 0 < lenZ sep ->
  bytes_HasPrefix (dropZ i (takeZ len (dropZ o c))) sep = true ->
  bytes_HasPrefix (dropZ (o + i) c) sep = true
  /\ i + lenZ sep <= lenZ (takeZ len (dropZ o c)).
Proof.
  intros Hi Ho Hsep Hp.
  apply HasPrefix_true_iff in Hp as [more Hm].
  assert (lenZ (dropZ i (takeZ len (dropZ o c))) = lenZ sep + lenZ more) as Hl
    by (rewrite Hm, lenZ_app; lia).
  rewrite lenZ_dropZ in Hl. pose proof (lenZ_nonneg more).
  pose proof (lenZ_nonneg (takeZ len (dropZ o c))).
  split; [|lia].
  apply HasPrefix_true_iff.
  exists (more ++ dropZ len (dropZ o c))%list.
  rewrite <- dropZ_dropZ by lia.
  rewrite <- (take_drop (Z.to_nat len) (dropZ o c)) at 1.
  rewrite <- takeZ_take, <- dropZ_drop.
  rewrite dropZ_app_within by lia.
  rewrite Hm. by rewrite <- app_assoc.
Qed.

Lemma HasPrefix_in_block (c sep : list byte) (o i len : Z) :
  0 <= i -> 0 <= o -> i + lenZ sep <= len ->
  bytes_HasPrefix (dropZ (o + i) c) sep = true ->
  bytes_HasPrefix (dropZ i (takeZ len (dropZ o c))) sep = true.
Proof.
  intros Hi Ho Hlen Hp.
  apply HasPrefix_true_iff in Hp as [more Hm].
  pose proof (lenZ_nonneg sep).
  rewrite dropZ_takeZ by lia.
  rewrite dropZ_dropZ by lia. rewrite Hm.
  rewrite takeZ_app_past by lia.
  apply HasPrefix_self.
Qed.

Lemma lenZ_block (c : list byte) (o : Z) :
  0 <= o < lenZ c ->
  lenZ (takeZ scanBlockSize (dropZ o c)) = Z.min scanBlockSize (lenZ c - o).
Proof.
  intros Ho. rewrite lenZ_takeZ, lenZ_dropZ, scanBlockSize_val. lia.
Qed.

Lemma markerAt_past (c : list byte) (p : Z) : lenZ c <= p -> markerAt c p = false.
Proof. intros Hp. unfold markerAt. by rewrite dropZ_all. Qed.

Lemma scan_found fuel : forall (c : list byte) (o bdy : Z) (self' : File) (b : Z),
  0 <= o ->
  scanLoop fuel (fileAt c o) bdy = LoopBreak self' b false ->
  exists k i,
    0 <= k /\ 0 <= i /\ i + 64 <= scanBlockSize /\ b = bdy + k * scanBlockSize + i /\
    markerAt c (o + k * scanBlockSize + i) = true /\
    o + k * scanBlockSize + i + 64 <= lenZ c /\
    (forall k' i', 0 <= k' -> 0 <= i' -> i' + 64 <= scanBlockSize ->
                   k' < k \/ (k' = k /\ i' < i) ->
                   markerAt c (o + k' * scanBlockSize + i') = false) /\
    self' = fileAt c (Z.min (lenZ c) (o + (k + 1) * scanBlockSize)).
Proof.
  induction fuel as [|fuel IH]; intros c o bdy self' b Ho Hscan; [discriminate|].
  destruct (Z.le_gt_cases (lenZ c) o) as [Heof|Hin].
  { rewrite scan_step_eof in Hscan by lia. discriminate. }
  pose proof (Index_range (takeZ scanBlockSize (dropZ o c)) generateBoundary) as Hr.
  pose proof (lenZ_block c o ltac:(lia)) as Hblk.
  destruct (Z.le_gt_cases 0 (bytes_Index (takeZ scanBlockSize (dropZ o c)) generateBoundary))
    as [Hhit|Hmiss].
  - rewrite (scan_step_hit fuel c o bdy _ ltac:(lia) eq_refl Hhit) in Hscan.
    injection Hscan as <- <-.
    pose proof (Index_found _ _ _ eq_refl Hhit) as Hp.
    rewrite <- dropZ_drop in Hp.
    apply HasPrefix_block in Hp as [Hp Hl]; [|lia|lia|reflexivity].
    change (lenZ generateBoundary) with 64 in Hl.
    exists 0, (bytes_Index (takeZ scanBlockSize (dropZ o c)) generateBoundary).
    rewrite scanBlockSize_val in *.
    split; [lia|]. split; [lia|]. split; [lia|]. split; [lia|].
    split; [by rewrite Z.add_0_r|]. split; [lia|]. split.
    + intros k' i' Hk' Hi' Hi'' [Hlt|[-> Hlt]]; [lia|].
      destruct (markerAt c (o + 0 * 131072 + i')) eqn:Hm; [|reflexivity].
      unfold markerAt in Hm. rewrite Z.add_0_r in Hm.
      apply (HasPrefix_in_block c generateBoundary o i' 131072) in Hm;
        [|lia|lia|change (lenZ generateBoundary) with 64; lia].
      rewrite dropZ_drop in Hm.
      rewrite (Index_first _ _ _ (Z.to_nat i') eq_refl) in Hm by lia. discriminate.
    + f_equal. lia.
  - assert (bytes_Index (takeZ scanBlockSize (dropZ o c)) generateBoundary = -1) as Hnone
      by lia.
    rewrite (scan_step_miss fuel c o bdy ltac:(lia) Hnone) in Hscan.
    pose proof (lenZ_nonneg (takeZ scanBlockSize (dropZ o c))) as Hnn.
    apply IH in Hscan as (k & i & Hk & Hi & Hi' & -> & Hm & Hlen & Hmin & ->); [|lia].
    rewrite scanBlockSize_val in *.
    assert (lenZ (takeZ 131072 (dropZ o c)) = 131072) as Hfull by lia.
    rewrite Hfull in *.
    exists (k + 1), i.
    split; [lia|]. split; [lia|]. split; [lia|]. split; [lia|].
    split; [by replace (o + (k + 1) * 131072 + i) with (o + 131072 + k * 131072 + i) by lia|].
    split; [lia|]. split.
    + intros k' i' Hk' Hi0 Hi1 Hlt.
      destruct (Z.eq_dec k' 0) as [->|Hne].
      * destruct (markerAt c (o + 0 * 131072 + i')) eqn:Hm'; [|reflexivity].
        unfold markerAt in Hm'. rewrite Z.add_0_r in Hm'.
        apply (HasPrefix_in_block c generateBoundary o i' 131072) in Hm';
          [|lia|lia|change (lenZ generateBoundary) with 64; lia].
        rewrite dropZ_drop in Hm'.
        rewrite (Index_none _ _ (Z.to_nat i') Hnone) in Hm'. discriminate.
      * replace (o + k' * 131072 + i') with (o + 131072 + (k' - 1) * 131072 + i') by lia.
        apply Hmin; lia.
    + f_equal. lia.
Qed.

Lemma scan_eof fuel : forall (c : list byte) (o bdy : Z) (self' : File) (b : Z),
  0 <= o <= lenZ c ->
  scanLoop fuel (fileAt c o) bdy = LoopBreak self' b true ->
  self' = fileAt c (lenZ c) /\
  forall k i, 0 <= k -> 0 <= i -> i + 64 <= scanBlockSize ->
              markerAt c (o + k * scanBlockSize + i) = false.
Proof.
  induction fuel as [|fuel IH]; intros c o bdy self' b Ho Hscan; [discriminate|].
  destruct (Z.le_gt_cases (lenZ c) o) as [Heof|Hin].
  { rewrite scan_step_eof in Hscan by lia. injection Hscan as <- <-.
    split; [f_equal; lia|].
    intros k i Hk Hi Hi'. apply markerAt_past. rewrite scanBlockSize_val. lia. }
  pose proof (Index_range (takeZ scanBlockSize (dropZ o c)) generateBoundary) as Hr.
  pose proof (lenZ_block c o ltac:(lia)) as Hblk.
  destruct (Z.le_gt_cases 0 (bytes_Index (takeZ scanBlockSize (dropZ o c)) generateBoundary))
    as [Hhit|Hmiss].
  { rewrite (scan_step_hit fuel c o bdy _ ltac:(lia) eq_refl Hhit) in Hscan. discriminate. }
  assert (bytes_Index (takeZ scanBlockSize (dropZ o c)) generateBoundary = -1) as Hnone
    by lia.
  rewrite (scan_step_miss fuel c o bdy ltac:(lia) Hnone) in Hscan.
  apply IH in Hscan as [-> Hmin]; [|rewrite scanBlockSize_val in *; lia].
  split; [reflexivity|].
  intros k i Hk Hi Hi'. rewrite scanBlockSize_val in *.
  destruct (Z.eq_dec k 0) as [->|Hne].
  - destruct (markerAt c (o + 0 * 131072 + i)) eqn:Hm'; [|reflexivity].
    unfold markerAt in Hm'. rewrite Z.add_0_r in Hm'.
    apply (HasPrefix_in_block c generateBoundary o i 131072) in Hm';
      [|lia|lia|change (lenZ generateBoundary) with 64; lia].
    rewrite dropZ_drop in Hm'.
    rewrite (Index_none _ _ (Z.to_nat i) Hnone) in Hm'. discriminate.
  - destruct (Z.le_gt_cases (lenZ c) (o + k * 131072 + i)) as [Hpast|Hwithin];
      [by apply markerAt_past|].
    assert (lenZ (takeZ 131072 (dropZ o c)) = 131072) as Hfull by lia.
    rewrite Hfull in Hmin.
    replace (o + k * 131072 + i) with (o + 131072 + (k - 1) * 131072 + i) by lia.
    apply Hmin; lia.
Qed.

Lemma scan_no_die fuel : forall (c : list byte) (o bdy : Z) (self' : File),
  0 <= o -> scanLoop fuel (fileAt c o) bdy <> LoopDie self'.
Proof.
  induction fuel as [|fuel IH]; intros c o bdy self' Ho; [discriminate|].
  destruct (Z.le_gt_cases (lenZ c) o) as [Heof|Hin].
  { rewrite scan_step_eof by lia. discriminate. }
  pose proof (Index_range (takeZ scanBlockSize (dropZ o c)) generateBoundary) as Hr.
  destruct (Z.le_gt_cases 0 (bytes_Index (takeZ scanBlockSize (dropZ o c)) generateBoundary))
    as [Hhit|Hmiss].
  { rewrite (scan_step_hit fuel c o bdy _ ltac:(lia) eq_refl Hhit). discriminate. }
  rewrite (scan_step_miss fuel c o bdy ltac:(lia)) by lia.
  apply IH. pose proof (lenZ_nonneg (takeZ scanBlockSize (dropZ o c))). lia.
Qed.

(** What [parseSelf] does once the loop has found the marker at [b]. *)
Lemma parseSelf_found (data : list byte) (self' : File) (b : Z) :
  scanLoop (scanFuel (openFile data)) (openFile data) 0 = LoopBreak self' b false ->
  0 <= b ->
  parseSelf (openFile data)
  = if lenZ data <=? b + 64
    then Died "failed to read additional data from executable" (fileAt data (b + 64))
    else
      let got := takeZ 24 (dropZ (b + 64) data) in
      let buf := filled 24 got in
      let rawValue := Uint64 (takeZ 8 (dropZ 16 buf)) in
      if rawValue =? sentinelSize
      then Died "Invalid archive size." (fileAt data (b + 64 + lenZ got))
      else Payload (LimitReader (fileAt data (b + 64 + lenZ got)) (int64 rawValue))
                   (takeZ 16 buf).
Proof.
  intros Hscan Hb.
  destruct (scan_result_bdy _ _ _ _ _ _ Hscan) as (_ & Hc & Hf).
  destruct self' as [c' o' f']. unfold openFile, content in Hc. unfold openFile, fault in Hf.
  subst c' f'.
  unfold parseSelf. rewrite Hscan. cbv match.
  change (lenZ generateBoundary) with 64.
  change (keyLength + 8) with 24. change keyLength with 16.
  unfold Seek, content, fault, offset.
  destruct (Z.ltb_spec (b + 64) 0); [lia|].
  change (mkFile data (b + 64) None) with (fileAt data (b + 64)).
  destruct (Z.leb_spec (lenZ data) (b + 64)) as [Hend|Hmore].
  - by rewrite Read_fileAt_eof.
  - rewrite Read_fileAt by lia. reflexivity.
Qed.

(** The loop on a readable file from its start: it ends at the end of the
    file when no read block holds the marker, and otherwise at the first
    offset at which the marker lies within one read block. *)
Lemma scan_openFile (data : list byte) :
  (exists bdy,
     scanLoop (scanFuel (openFile data)) (openFile data) 0
     = LoopBreak (fileAt data (lenZ data)) bdy true /\
     forall p, 0 <= p -> inOneBlock p = true -> markerAt data p = false)
  \/ (exists b,
        scanLoop (scanFuel (openFile data)) (openFile data) 0
        = LoopBreak (fileAt data (Z.min (lenZ data) ((b / scanBlockSize + 1) * scanBlockSize)))
                    b false /\
        0 <= b /\ inOneBlock b = true /\ markerAt data b = true /\ b + 64 <= lenZ data /\
        forall p, 0 <= p < b -> inOneBlock p = true -> markerAt data p = false).
Proof.
  pose proof (scanLoop_total (openFile data) 0) as Htot.
  pose proof (lenZ_nonneg data) as Hnn.
  change (openFile data) with (fileAt data 0) in *.
  destruct (scanLoop (scanFuel (fileAt data 0)) (fileAt data 0) 0)
    as [self' b [|]|self'|] eqn:Hscan.
  - left. exists b. apply scan_eof in Hscan as [-> Hno]; [|lia]. split; [reflexivity|].
    intros p Hp Hblk. unfold inOneBlock in Hblk. apply Z.leb_le in Hblk.
    rewrite scanBlockSize_val in *.
    pose proof (Z.div_mod p 131072 ltac:(lia)) as Hdm.
    pose proof (Z.mod_pos_bound p 131072 ltac:(lia)).
    pose proof (Z.div_pos p 131072 Hp ltac:(lia)).
    replace p with (0 + p / 131072 * 131072 + p mod 131072) by lia.
    apply Hno; lia.
  - right. exists b.
    apply scan_found in Hscan as (k & i & Hk & Hi & Hi' & -> & Hm & Hlen & Hmin & ->); [|lia].
    rewrite scanBlockSize_val in *.
    assert ((0 + k * 131072 + i) / 131072 = k) as Hdiv.
    { symmetry. apply (Z.div_unique _ _ k i); lia. }
    assert ((0 + k * 131072 + i) mod 131072 = i) as Hmod.
    { symmetry. apply (Z.mod_unique _ _ k i); lia. }
    rewrite Hdiv. split; [reflexivity|]. split; [lia|].
    split; [unfold inOneBlock; rewrite scanBlockSize_val, Hmod; apply Z.leb_le; lia|].
    split; [exact Hm|]. split; [lia|].
    intros p Hp Hblk. unfold inOneBlock in Hblk. apply Z.leb_le in Hblk.
    rewrite scanBlockSize_val in Hblk.
    pose proof (Z.div_mod p 131072 ltac:(lia)) as Hdm.
    pose proof (Z.mod_pos_bound p 131072 ltac:(lia)).
    pose proof (Z.div_pos p 131072 ltac:(lia) ltac:(lia)).
    replace p with (0 + p / 131072 * 131072 + p mod 131072) by lia.
    apply Hmin; lia.
  - exfalso. by apply (scan_no_die (scanFuel (fileAt data 0)) data 0 0 self' ltac:(lia)).
  - contradiction.
Qed.

Lemma Payload_inj r1 k1 r2 k2 : Payload r1 k1 = Payload r2 k2 -> r1 = r2 /\ k1 = k2.
Proof. intros H. split; congruence. Qed.

Lemma markerAt_envelope (stub tail : list byte) :
  bytes_Index stub generateBoundary = -1 ->
  markerAt (stub ++ generateBoundary ++ tail) (lenZ stub) = true /\
  forall p, 0 <= p < lenZ stub -> markerAt (stub ++ generateBoundary ++ tail) p = false.
Proof.
  intros Hnone. split.
  - unfold markerAt. rewrite dropZ_app_past, Z.sub_diag, dropZ_none by lia.
    apply HasPrefix_self.
  - intros p Hp. unfold markerAt. rewrite dropZ_drop.
    apply (Index_first _ _ (lenZ stub)); [|lia].
    apply Index_app_found; [apply boundary_borderFree|rewrite boundary_length; lia|exact Hnone].
Qed.

(** The loop on an archive whose stub does not hold the marker and ends at
    least 64 bytes before the end of a read block. *)
Lemma scan_envelope (stub tail : list byte) :
  bytes_Index stub generateBoundary = -1 ->
  inOneBlock (lenZ stub) = true ->
  exists self',
    scanLoop (scanFuel (openFile (stub ++ generateBoundary ++ tail)))
             (openFile (stub ++ generateBoundary ++ tail)) 0
    = LoopBreak self' (lenZ stub) false.
Proof.
  intros Hnone Hblk.
  destruct (markerAt_envelope stub tail Hnone) as [Hat Hbefore].
  pose proof (lenZ_nonneg stub) as Hnn.
  destruct (scan_openFile (stub ++ generateBoundary ++ tail))
    as [(bdy & _ & Hno)|(b & Hscan & Hb & Hbb & Hm & _ & Hmin)].
  - rewrite Hno in Hat by (lia || assumption). discriminate.
  - destruct (Z.lt_trichotomy b (lenZ stub)) as [Hlt|[->|Hgt]].
    + rewrite Hbefore in Hm by lia. discriminate.
    + eexists. exact Hscan.
    + rewrite Hmin in Hat by (lia || assumption). discriminate.
Qed.

Lemma header_fields (key rest : list byte) (n : Z) :
  lenZ key = 16 ->
  takeZ 24 (key ++ PutUint64 n ++ rest) = (key ++ PutUint64 n)%list /\
  filled 24 (key ++ PutUint64 n) = (key ++ PutUint64 n)%list /\
  takeZ 16 (key ++ PutUint64 n) = key /\
  Uint64 (takeZ 8 (dropZ 16 (key ++ PutUint64 n))) = n mod 2 ^ 64.
Proof.
  intros Hkey. repeat split.
  - rewrite takeZ_app_past by lia. rewrite Hkey.
    replace (24 - 16) with (lenZ (PutUint64 n)) by (rewrite lenZ_PutUint64; lia).
    rewrite takeZ_app_within by lia. by rewrite takeZ_all.
  - unfold filled. rewrite lenZ_app, Hkey, lenZ_PutUint64.
    change (Z.to_nat (24 - (16 + 8))) with 0%nat.
    simpl replicate. rewrite app_nil_r. apply takeZ_all.
    rewrite lenZ_app, Hkey, lenZ_PutUint64. lia.
  - rewrite takeZ_app_within by lia. apply takeZ_all. lia.
  - rewrite dropZ_app_past by lia. rewrite Hkey, Z.sub_diag, dropZ_none by lia.
    rewrite takeZ_all by (rewrite lenZ_PutUint64; lia).
    apply Uint64_PutUint64_exact.
Qed.

Lemma int64_top_bit (n : Z) : 2 ^ 63 <= n < 2 ^ 64 -> int64 n = n - 2 ^ 64 /\ int64 n < 0.
Proof. intros Hn. unfold int64. destruct (Z.ltb_spec n (2 ^ 63)); lia. Qed.

Lemma dropZ_past_marker (stub tail : list byte) :
  dropZ (lenZ stub + 64) (stub ++ generateBoundary ++ tail) = tail.
Proof.
  pose proof (lenZ_nonneg stub).
  rewrite <- dropZ_dropZ by lia.
  rewrite dropZ_app_past, Z.sub_diag, (dropZ_none 0) by lia.
  change 64 with (lenZ generateBoundary).
  rewrite dropZ_app_past, Z.sub_diag by lia. by apply dropZ_none.
Qed.

(** X1: the scanning loop of [parseSelf] ends on every file, whatever its
    contents, its cursor and the place where reading fails: one iteration
    per read block of the file and two more are enough, further iterations
    change nothing, and [parseSelf] returns or dies. *)
Theorem parseSelf_scan_terminates (self : File) (bdy : Z) (extra : nat) :
  scanLoop (scanFuel self) self bdy <> LoopFuel /\
  scanLoop (scanFuel self + extra) self bdy = scanLoop (scanFuel self) self bdy /\
  parseSelf self <> Diverged.
Proof.
  pose proof (scanLoop_total self bdy) as Htot.
  split; [exact Htot|]. split; [|apply parseSelf_total].
  by apply scanLoop_more.
Qed.

(** X2: on a readable file, [parseSelf] returns no payload exactly when no
    read block holds the marker, that is, when the marker occurs at no
    offset that leaves it within one block of [scanBlockSize] bytes; the
    cursor is then at the end of the file. *)
Theorem parseSelf_no_payload_iff (data : list byte) :
  (parseSelf (openFile data) = NoPayload (fileAt data (lenZ data))
   <-> forall p, 0 <= p -> inOneBlock p = true -> markerAt data p = false) /\
  (forall self', parseSelf (openFile data) = NoPayload self' ->
                 self' = fileAt data (lenZ data)).
Proof.
  destruct (scan_openFile data) as [(bdy & Hscan & Hno)|(b & Hscan & Hb & Hbb & Hm & Hl & Hmin)].
  - assert (parseSelf (openFile data) = NoPayload (fileAt data (lenZ data))) as Hp
      by (unfold parseSelf; by rewrite Hscan).
    split; [split; [intros _; exact Hno | intros _; exact Hp]|].
    intros self' Hs. congruence.
  - pose proof (parseSelf_found data _ b Hscan Hb) as Hp. cbv zeta in Hp.
    assert (forall self', parseSelf (openFile data) <> NoPayload self') as Hne.
    { intros self'. rewrite Hp. destruct (_ <=? _); [discriminate|].
      destruct (_ =? _); discriminate. }
    split; [split|].
    + intros Hs. by apply Hne in Hs.
    + intros Hno. rewrite Hno in Hm by assumption. discriminate.
    + intros self' Hs. by apply Hne in Hs.
Qed.

(** X3: when [parseSelf] returns a payload from a readable file, the marker
    lies in the file at an offset [b] that leaves it within one read block,
    and at no earlier such offset; the key is the sixteen bytes after the
    marker, the limit of the reader is the next eight bytes read as a
    little-endian signed integer (both taken from a zeroed 24-byte buffer
    when the file ends early), and the reader yields the bytes from offset
    [b + 88] on, as many as the limit allows. *)
Theorem parseSelf_payload_follows_first_marker
    (data : list byte) (reader : LimitedReader) (key : list byte) :
  parseSelf (openFile data) = Payload reader key ->
  exists b,
    0 <= b /\ inOneBlock b = true /\ markerAt data b = true /\
    (forall p, 0 <= p < b -> inOneBlock p = true -> markerAt data p = false) /\
    key = takeZ 16 (filled 24 (takeZ 24 (dropZ (b + 64) data))) /\
    N reader = int64 (Uint64 (takeZ 8 (dropZ 16 (filled 24 (takeZ 24 (dropZ (b + 64) data)))))) /\
    ReadAllLimited reader = takeZ (N reader) (dropZ (b + 88) data).
Proof.
  intros Hp.
  destruct (scan_openFile data) as [(bdy & Hscan & Hno)|(b & Hscan & Hb & Hbb & Hm & Hl & Hmin)].
  { unfold parseSelf in Hp. rewrite Hscan in Hp. discriminate. }
  rewrite (parseSelf_found data _ b Hscan Hb) in Hp. cbv zeta in Hp.
  destruct (Z.leb_spec (lenZ data) (b + 64)) as [Hend|Hmore]; [discriminate|].
  destruct (_ =? sentinelSize); [discriminate|].
  apply Payload_inj in Hp as [<- <-].
  exists b. repeat (split; [assumption || reflexivity|]).
  unfold ReadAllLimited. cbn [R N content offset fileAt]. f_equal.
  pose proof (lenZ_takeZ 24 (dropZ (b + 64) data)) as Hgot.
  rewrite lenZ_dropZ in Hgot.
  destruct (Z.le_gt_cases (b + 88) (lenZ data)) as [Hfull|Hshort].
  - f_equal. lia.
  - rewrite !dropZ_all by lia. reflexivity.
Qed.

Lemma parseSelf_payload_follows_first_marker_witness :
  exists b,
    0 <= b /\ inOneBlock b = true /\
    markerAt (envelope (zeros 100) sampleKey 3 samplePayload) b = true /\
    (forall p, 0 <= p < b -> inOneBlock p = true ->
               markerAt (envelope (zeros 100) sampleKey 3 samplePayload) p = false) /\
    sampleKey
    = takeZ 16 (filled 24 (takeZ 24 (dropZ (b + 64)
                                           (envelope (zeros 100) sampleKey 3 samplePayload)))) /\
    N sampleReader
    = int64 (Uint64 (takeZ 8 (dropZ 16 (filled 24 (takeZ 24 (dropZ (b + 64)
               (envelope (zeros 100) sampleKey 3 samplePayload))))))) /\
    ReadAllLimited sampleReader
    = takeZ (N sampleReader) (dropZ (b + 88) (envelope (zeros 100) sampleKey 3 samplePayload)).
Proof.
  apply (parseSelf_payload_follows_first_marker
           (envelope (zeros 100) sampleKey 3 samplePayload) sampleReader sampleKey).
  vm_compute. reflexivity.
Defined.

(** X4: an archive whose stub does not hold the marker and ends at least
    64 bytes before the end of a read block: for every value of the length
    field but the placeholder, [parseSelf] returns the key and a reader
    limited to the field read as a signed integer.  The reader yields that
    many of the bytes after the field: bytes beyond are ignored, fewer are
    delivered when the file is shorter, and none when the field has its top
    bit set. *)
Theorem parseSelf_reads_declared_length (stub key rest : list byte) (n : Z) :
  bytes_Index stub generateBoundary = -1 ->
  inOneBlock (lenZ stub) = true ->
  lenZ key = keyLength ->
  0 <= n < 2 ^ 64 -> n <> sentinelSize ->
  exists reader,
    parseSelf (openFile (envelope stub key n rest)) = Payload reader key /\
    N reader = int64 n /\
    R reader = fileAt (envelope stub key n rest) (lenZ stub + 64 + keyLength + 8) /\
    ReadAllLimited reader = takeZ (int64 n) rest /\
    (2 ^ 63 <= n -> ReadAllLimited reader = []).
Proof.
  intros Hnone Hblk Hkey Hn Hsent. change keyLength with 16 in *.
  destruct (scan_envelope stub (key ++ PutUint64 n ++ rest) Hnone Hblk) as [self' Hscan].
  pose proof (lenZ_nonneg stub) as Hnn. pose proof (lenZ_nonneg rest) as Hnr.
  destruct (header_fields key rest n Hkey) as (Htake & Hfill & Hk & Hraw).
  assert (dropZ (lenZ stub + 64) (envelope stub key n rest)
          = (key ++ PutUint64 n ++ rest)%list) as Hdrop.
  { unfold envelope. apply dropZ_past_marker. }
  assert (lenZ (envelope stub key n rest) = lenZ stub + 64 + 16 + 8 + lenZ rest) as Hlen.
  { unfold envelope. rewrite !lenZ_app, Hkey, lenZ_PutUint64.
    change (lenZ generateBoundary) with 64. lia. }
  pose proof (parseSelf_found (envelope stub key n rest) self' (lenZ stub) Hscan Hnn) as Hp.
  cbv zeta in Hp. rewrite Hdrop, Htake, Hfill, Hk, Hraw in Hp.
  rewrite Z.mod_small in Hp by lia.
  destruct (Z.leb_spec (lenZ (envelope stub key n rest)) (lenZ stub + 64)); [lia|].
  destruct (Z.eqb_spec n sentinelSize); [contradiction|].
  rewrite lenZ_app, Hkey, lenZ_PutUint64 in Hp.
  replace (lenZ stub + 64 + (16 + 8)) with (lenZ stub + 64 + 16 + 8) in Hp by lia.
  eexists. split; [exact Hp|]. split; [reflexivity|]. split; [reflexivity|].
  assert (ReadAllLimited
            (LimitReader (fileAt (envelope stub key n rest) (lenZ stub + 64 + 16 + 8)) (int64 n))
          = takeZ (int64 n) rest) as Hread.
  { unfold ReadAllLimited. cbn [R N content offset fileAt]. f_equal.
    replace (lenZ stub + 64 + 16 + 8) with (lenZ stub + 64 + 24) by lia.
    rewrite <- dropZ_dropZ by lia. rewrite Hdrop.
    rewrite dropZ_app_past by lia. rewrite Hkey.
    replace (24 - 16) with (lenZ (PutUint64 n)) by (rewrite lenZ_PutUint64; lia).
    rewrite dropZ_app_past by lia. rewrite Z.sub_diag. by apply dropZ_none. }
  split; [exact Hread|].
  intros Htop. rewrite Hread. apply takeZ_none.
  pose proof (int64_top_bit n ltac:(lia)). lia.
Qed.

Lemma parseSelf_reads_declared_length_witness :
  exists reader,
    parseSelf (openFile (envelope (zeros 100) sampleKey (2 ^ 63 + 5) samplePayload))
    = Payload reader sampleKey /\
    N reader = int64 (2 ^ 63 + 5) /\
    R reader = fileAt (envelope (zeros 100) sampleKey (2 ^ 63 + 5) samplePayload)
                      (lenZ (zeros 100) + 64 + keyLength + 8) /\
    ReadAllLimited reader = takeZ (int64 (2 ^ 63 + 5)) samplePayload /\
    (2 ^ 63 <= 2 ^ 63 + 5 -> ReadAllLimited reader = []).
Proof.
  apply (parseSelf_reads_declared_length (zeros 100) sampleKey samplePayload (2 ^ 63 + 5)).
  - vm_compute. reflexivity.
  - reflexivity.
  - reflexivity.
  - lia.
  - unfold sentinelSize. lia.
Defined.

(** X5: an archive that ends inside its header.  When the file ends with
    the marker, [parseSelf] dies for want of additional data.  When one to
    sixteen bytes follow the marker, it does not fail: the key is those
    bytes completed with zeros, the length is zero and the reader yields
    nothing. *)
Theorem parseSelf_truncated_header (stub rest : list byte) :
  bytes_Index stub generateBoundary = -1 ->
  inOneBlock (lenZ stub) = true ->
  parseSelf (openFile (stub ++ generateBoundary))
  = Died "failed to read additional data from executable"
         (fileAt (stub ++ generateBoundary) (lenZ stub + 64)) /\
  (0 < lenZ rest <= keyLength ->
   parseSelf (openFile (stub ++ generateBoundary ++ rest))
   = Payload (LimitReader (fileAt (stub ++ generateBoundary ++ rest)
                                  (lenZ (stub ++ generateBoundary ++ rest))) 0)
             (rest ++ zeros (keyLength - lenZ rest)) /\
   ReadAllLimited (LimitReader (fileAt (stub ++ generateBoundary ++ rest)
                                       (lenZ (stub ++ generateBoundary ++ rest))) 0) = []).
Proof.
  intros Hnone Hblk. change keyLength with 16.
  pose proof (lenZ_nonneg stub) as Hnn. split.
  - destruct (scan_envelope stub [] Hnone Hblk) as [self' Hscan].
    rewrite app_nil_r in Hscan.
    rewrite (parseSelf_found _ self' (lenZ stub) Hscan Hnn).
    rewrite lenZ_app. change (lenZ generateBoundary) with 64.
    destruct (Z.leb_spec (lenZ stub + 64) (lenZ stub + 64)); [reflexivity|lia].
  - intros Hrest.
    destruct (scan_envelope stub rest Hnone Hblk) as [self' Hscan].
    rewrite (parseSelf_found _ self' (lenZ stub) Hscan Hnn). cbv zeta.
    assert (lenZ (stub ++ generateBoundary ++ rest) = lenZ stub + 64 + lenZ rest) as Hlen.
    { rewrite !lenZ_app. change (lenZ generateBoundary) with 64. lia. }
    assert (dropZ (lenZ stub + 64) (stub ++ generateBoundary ++ rest) = rest) as Hdrop.
    { apply dropZ_past_marker. }
    rewrite Hdrop, (takeZ_all 24 rest) by lia.
    assert (filled 24 rest = (rest ++ zeros (24 - lenZ rest))%list) as Hfill.
    { unfold filled. apply takeZ_all. rewrite lenZ_app.
      fold (zeros (24 - lenZ rest)). rewrite lenZ_zeros by lia. lia. }
    rewrite Hfill.
    assert (takeZ 16 (rest ++ zeros (24 - lenZ rest))
            = (rest ++ zeros (16 - lenZ rest))%list) as ->.
    { rewrite takeZ_app_past by lia. f_equal.
      rewrite <- (dropZ_none 0 (zeros (24 - lenZ rest))) by lia.
      rewrite block_of_zeros. unfold zeros. f_equal. lia. }
    assert (dropZ 16 (rest ++ zeros (24 - lenZ rest)) = zeros 8) as ->.
    { rewrite dropZ_app_past by lia.
      rewrite <- (takeZ_all 8 (dropZ _ _)) by (rewrite lenZ_dropZ, lenZ_zeros; lia).
      rewrite block_of_zeros. unfold zeros. f_equal. lia. }
    change (Uint64 (takeZ 8 (zeros 8)) =? sentinelSize) with false.
    change (int64 (Uint64 (takeZ 8 (zeros 8)))) with 0.
    destruct (Z.leb_spec (lenZ (stub ++ generateBoundary ++ rest)) (lenZ stub + 64)); [lia|].
    rewrite Hlen. split; [reflexivity|].
    unfold ReadAllLimited. by apply takeZ_none.
Qed.

Lemma parseSelf_truncated_header_witness :
  parseSelf (openFile (zeros 100 ++ generateBoundary))
  = Died "failed to read additional data from executable"
         (fileAt (zeros 100 ++ generateBoundary) (lenZ (zeros 100) + 64)) /\
  (0 < lenZ samplePayload <= keyLength ->
   parseSelf (openFile (zeros 100 ++ generateBoundary ++ samplePayload))
   = Payload (LimitReader (fileAt (zeros 100 ++ generateBoundary ++ samplePayload)
                                  (lenZ (zeros 100 ++ generateBoundary ++ samplePayload))) 0)
             (samplePayload ++ zeros (keyLength - lenZ samplePayload)) /\
   ReadAllLimited (LimitReader (fileAt (zeros 100 ++ generateBoundary ++ samplePayload)
                                       (lenZ (zeros 100 ++ generateBoundary ++ samplePayload))) 0)
   = []).
Proof.
  apply (parseSelf_truncated_header (zeros 100) samplePayload).
  - vm_compute. reflexivity.
  - reflexivity.
Defined.

(** ** The builder, and [main] *)

Lemma create_run
    (tarZstd : gmap (list string) node -> string -> list string -> list byte * option string)
    (entropy : option (list byte)) (fs fs1 : gmap (list string) node) (self : File)
    (key : list byte) (out : string) (files : list string) (cd : string)
    (stub rkey : list byte) :
  lenZ files <> 0 ->
  os_Create fs out = Some fs1 ->
  readRest self = Some stub ->
  generateRandomKey entropy = Some rkey ->
  exists m,
    fs1 = <[resolve out := Reg [] m]> fs /\
    create tarZstd entropy fs self key out files cd
    = match tarZstd (<[resolve out :=
                         Reg (stub ++ generateBoundary ++ rkey ++ sizePlaceholder) m]> fs)
                    cd files with
      | (zbytes, Some msg) =>
          Fatal msg (<[resolve out :=
                         Reg (stub ++ generateBoundary ++ rkey ++ sizePlaceholder ++ zbytes) m]>
                     fs)
      | (zbytes, None) =>
          Ok (<[resolve out := Reg (envelope stub rkey (lenZ zbytes) zbytes) mode0755]> fs)
      end.
Proof.
  intros Hfiles Hc Hr Hk.
  pose proof Hc as Hc'. apply os_Create_some in Hc' as [Hp [m ->]].
  exists m. split; [reflexivity|].
  unfold create. destruct (Z.eqb_spec (lenZ files) 0); [contradiction|].
  rewrite Hc, Hr.
  rewrite f_Write_insert. cbv beta match zeta.
  rewrite f_Write_insert. cbv beta match zeta.
  rewrite Hk.
  rewrite f_Write_insert. cbv beta match zeta.
  rewrite f_Write_insert. cbv beta match zeta.
  unfold hpos, hpath. cbv beta match zeta.
  (* the successive writes *)
  change 0 with (lenZ (@nil byte)) at 1 2 3 4 5 6.
  rewrite (writeAt_end [] stub). rewrite app_nil_l. change (lenZ (@nil byte)) with 0.
  rewrite Z.add_0_l.
  rewrite (writeAt_end stub).
  replace (lenZ stub + lenZ generateBoundary) with (lenZ (stub ++ generateBoundary))
    by (by rewrite lenZ_app).
  rewrite writeAt_end.
  replace (lenZ (stub ++ generateBoundary) + lenZ rkey)
    with (lenZ ((stub ++ generateBoundary) ++ rkey)) by (by rewrite lenZ_app).
  rewrite writeAt_end.
  set (head := ((stub ++ generateBoundary) ++ rkey)%list).
  replace (lenZ head + lenZ sizePlaceholder)
    with (lenZ (head ++ sizePlaceholder)) by (by rewrite lenZ_app).
  assert ((stub ++ generateBoundary ++ rkey ++ sizePlaceholder)%list
          = (head ++ sizePlaceholder)%list) as ->
    by (unfold head; by rewrite <- !app_assoc).
  destruct (tarZstd _ cd files) as [zbytes died].
  rewrite f_Write_insert. cbv beta match zeta.
  rewrite writeAt_end.
  destruct died as [msg|].
  - f_equal. f_equal. f_equal. unfold head. by rewrite <- !app_assoc.
  - unfold hpos, hpath. cbv beta match zeta.
    rewrite f_Write_insert. cbv beta match zeta.
    rewrite f_Chmod_insert. do 3 f_equal.
    replace (lenZ (head ++ sizePlaceholder) + lenZ zbytes - lenZ (head ++ sizePlaceholder))
      with (lenZ zbytes) by lia.
    replace (lenZ (head ++ sizePlaceholder) - 8) with (lenZ head)
      by (rewrite lenZ_app; change (lenZ sizePlaceholder) with 8; lia).
    rewrite <- (app_assoc head), writeAt_patch by reflexivity.
    unfold envelope, head. by rewrite <- !app_assoc.
Qed.

Lemma create_reaches_walk
    (tarZstd : gmap (list string) node -> string -> list string -> list byte * option string)
    (entropy : option (list byte)) (fs : gmap (list string) node) (self : File)
    (key : list byte) (out : string) (files : list string) (cd : string) :
  (exists msg fsx,
     create tarZstd entropy fs self key out files cd = Fatal msg fsx /\
     beforeWalk msg = true)
  \/ (lenZ files <> 0 /\
      exists fs1 stub rkey,
        os_Create fs out = Some fs1 /\ readRest self = Some stub /\
        generateRandomKey entropy = Some rkey /\ lenZ rkey = keyLength).
Proof.
  unfold create.
  destruct (Z.eqb_spec (lenZ files) 0) as [|Hfiles]; [left; by eexists _, _|].
  destruct (os_Create fs out) as [fs1|]; [|left; by eexists _, _].
  destruct (readRest self) as [stub|]; [|left; by eexists _, _].
  destruct (f_Write fs1 _ stub) as [fs2 f2].
  destruct (f_Write fs2 f2 generateBoundary) as [fs3 f3].
  destruct (generateRandomKey entropy) as [rkey|] eqn:Hk; [|left; by eexists _, _].
  right. split; [exact Hfiles|]. exists fs1, stub, rkey. repeat split.
  unfold generateRandomKey in Hk. destruct entropy; [|discriminate].
  injection Hk as <-. by apply lenZ_filled.
Qed.

Lemma NoPayload_end (data : list byte) (self' : File) :
  parseSelf (openFile data) = NoPayload self' -> self' = fileAt data (lenZ data).
Proof.
  intros Hp.
  destruct (scan_openFile data) as [(bdy & Hscan & _)|(b & Hscan & Hb & _)].
  - unfold parseSelf in Hp. rewrite Hscan in Hp. congruence.
  - rewrite (parseSelf_found data _ b Hscan Hb) in Hp. cbv zeta in Hp.
    destruct (_ <=? _); [discriminate|]. destruct (_ =? _); discriminate.
Qed.

Lemma readRest_rewound (data : list byte) (o : Z) :
  readRest (Seek (fileAt data o) 0) = Some data.
Proof.
  unfold Seek, readRest, unreadable. cbn [content offset fault fileAt].
  simpl (0 <? 0). cbv match. cbn [content offset fault]. simpl (0 <? 0). cbv match.
  by rewrite dropZ_none.
Qed.

(** X6: the round trip through [main].  Run from an executable in which it
    finds no payload, and whose length leaves the marker within one read
    block, a successful build leaves at the output path the whole
    executable, the marker, the random key, the length of what the codec
    sent and those bytes, with mode 0755; and [main] run from that file
    takes the extraction mode with that key and a reader that yields
    exactly those bytes. *)
Theorem main_builds_archive_that_runs
    (tarZstd : gmap (list string) node -> string -> list string -> list byte * option string)
    (entropy : option (list byte)) (fs fs' : gmap (list string) node)
    (exe : list byte) (out : string) (files : list string) (cd : string) :
  main tarZstd entropy fs (openFile exe) out files cd = Builds (Ok fs') ->
  inOneBlock (lenZ exe) = true ->
  exists rkey payload fsMid,
    generateRandomKey entropy = Some rkey /\
    tarZstd fsMid cd files = (payload, None) /\
    lookupNode fs' (resolve out)
    = Some (Reg (envelope exe rkey (lenZ payload) payload) mode0755) /\
    (lenZ payload < 2 ^ 63 ->
     forall tarZstd' entropy' fs2 out' files' cd',
     exists reader,
       main tarZstd' entropy' fs2 (openFile (envelope exe rkey (lenZ payload) payload))
            out' files' cd'
       = RunsArchive reader rkey /\
       ReadAllLimited reader = payload).
Proof.
  intros Hmain Hblk. unfold main in Hmain.
  destruct (parseSelf (openFile exe)) as [self'| | |] eqn:Hself; try discriminate.
  pose proof (NoPayload_end exe self' Hself) as ->.
  assert (create tarZstd entropy fs (Seek (fileAt exe (lenZ exe)) 0) [] out files cd = Ok fs')
    as Hc by congruence.
  destruct (create_reaches_walk tarZstd entropy fs (Seek (fileAt exe (lenZ exe)) 0) [] out
              files cd)
    as [(msg & fsx & Hf & _)|(Hfiles & fs1 & stub & rkey & Ho & Hr & Hk & Hlen)];
    [congruence|].
  rewrite readRest_rewound in Hr. injection Hr as <-.
  destruct (create_run tarZstd entropy fs fs1 _ [] out files cd exe rkey Hfiles Ho
              (readRest_rewound exe (lenZ exe)) Hk) as (m & _ & Hrun).
  rewrite Hc in Hrun.
  destruct (tarZstd _ cd files) as [payload [msg|]] eqn:Hcodec; [discriminate|].
  apply Ok_inj in Hrun. subst fs'.
  exists rkey, payload. eexists. split; [exact Hk|]. split; [exact Hcodec|].
  assert (resolve out <> []) as Hp by (by apply os_Create_some in Ho as [? _]).
  split.
  { destruct (resolve out) as [|c p]; [congruence|].
    unfold lookupNode. by rewrite lookup_insert_eq. }
  intros Hsize tarZstd' entropy' fs2 out' files' cd'.
  unfold main.
  unfold inOneBlock in Hblk. apply Z.leb_le in Hblk.
  pose proof (lenZ_nonneg payload) as Hnn.
  unfold envelope.
  rewrite (parseSelf_envelope exe rkey (lenZ payload) payload _ Hlen (conj Hnn Hsize)
             Hself Hblk).
  eexists. split; [reflexivity|].
  change (ReadAllLimited _)
    with (takeZ (lenZ payload)
            (dropZ (lenZ exe + 64 + 24) (envelope exe rkey (lenZ payload) payload))).
  rewrite envelope_payload by exact Hlen. by apply takeZ_all.
Qed.

Lemma main_builds_archive_that_runs_witness :
  exists rkey payload fsMid,
    generateRandomKey (Some sampleKey) = Some rkey /\
    sampleCodec fsMid "." ["app"%string] = (payload, None) /\
    lookupNode (<[ ["selfextract.out"%string] :=
                     Reg (envelope (zeros 100) sampleKey 3 samplePayload) mode0755 ]> ∅)
               (resolve "selfextract.out")
    = Some (Reg (envelope (zeros 100) rkey (lenZ payload) payload) mode0755) /\
    (lenZ payload < 2 ^ 63 ->
     forall tarZstd' entropy' fs2 out' files' cd',
     exists reader,
       main tarZstd' entropy' fs2 (openFile (envelope (zeros 100) rkey (lenZ payload) payload))
            out' files' cd'
       = RunsArchive reader rkey /\
       ReadAllLimited reader = payload).
Proof.
  apply (main_builds_archive_that_runs sampleCodec (Some sampleKey) ∅ _ (zeros 100)
           "selfextract.out" ["app"%string] ".").
  - reflexivity.
  - reflexivity.
Defined.



(** ** The mount probe: which line decides, and short lines *)

Lemma probeLoop_app_continue (path : string) (pre : list string) :
  forall (rest : list string) (mntp : string) (noexec : bool) (L : Z),
  Forall usableLine pre ->
  (forall e', e' ∈ pre -> entryMatches path e' = true -> mountLength e' < L) ->
  (forall e' o, e' ∈ pre -> entryMount e' <> Some (path, o)) ->
  lenS mntp < L ->
  exists mntp' noexec',
    lenS mntp' < L /\
    probeLoop path (pre ++ rest) mntp noexec = probeLoop path rest mntp' noexec'.
Proof.
  induction pre as [|e pre IH]; intros rest mntp noexec L Hus Hshort Hnex Hm.
  - exists mntp, noexec. by split.
  - apply Forall_cons in Hus as [Hu Hus].
    assert (forall e', e' ∈ pre -> entryMatches path e' = true -> mountLength e' < L) as Hshort'
      by (intros e' He'; apply Hshort; by right).
    assert (forall e' o, e' ∈ pre -> entryMount e' <> Some (path, o)) as Hnex'
      by (intros e' o He'; apply Hnex; by right).
    cbn [app probeLoop].
    destruct (probeEntry_cases path mntp noexec e Hu)
      as [[_ ->]|[(o & Hex & _)|[(Hmatch & _ & m & Hlen & ->)|(_ & _ & ->)]]].
    + by apply IH.
    + exfalso. apply (Hnex e o); [by left|exact Hex].
    + apply IH; try assumption. rewrite Hlen. apply Hshort; [by left|exact Hmatch].
    + by apply IH.
Qed.

Lemma probeLoop_keeps (path : string) (post : list string) :
  forall (mntp : string) (noexec : bool),
  Forall usableLine post ->
  (forall e', e' ∈ post -> entryMatches path e' = true ->
              mountLength e' <= lenS mntp /\ forall o, entryMount e' <> Some (path, o)) ->
  probeLoop path post mntp noexec = Some (mntp, noexec).
Proof.
  induction post as [|e post IH]; intros mntp noexec Hus Hle; [reflexivity|].
  apply Forall_cons in Hus as [Hu Hus].
  cbn [probeLoop].
  assert (e ∈ e :: post) as Hin by (by left).
  destruct (probeEntry_cases path mntp noexec e Hu)
    as [[_ ->]|[(o & Hex & Hmatch & _)|[(Hmatch & Hlt & _)|(_ & _ & ->)]]].
  - apply IH; [exact Hus|]. intros e' He'. apply Hle. by right.
  - exfalso. destruct (Hle e Hin Hmatch) as [_ Hno]. by apply (Hno o).
  - destruct (Hle e Hin Hmatch) as [Hl _]. lia.
  - apply IH; [exact Hus|]. intros e' He'. apply Hle. by right.
Qed.

Lemma exact_not_shorter (path e e' o : string) :
  entryMount e' = Some (path, o) -> entryMatches path e = true ->
  ~ mountLength e' < mountLength e.
Proof.
  intros Hex Hm Hlt. pose proof (exact_is_longest path o e' e Hex Hm). lia.
Qed.

Lemma probeEntry_exact (path mntp : string) (noexec : bool) (e o : string) :
  entryMount e = Some (path, o) ->
  probeEntry path mntp noexec e = Break path (entryNoexec e).
Proof.
  unfold probeEntry, entryMount, entryNoexec, entryMount.
  destruct (strings_Split e " ") as [|f0 [|f1 [|f2 [|f3 l]]]]; try discriminate.
  cbn [lookup list_lookup]. intros [= -> ->].
  pose proof (lenZ_nonneg l). cbn [lenZ].
  destruct (Z.ltb_spec (1 + (1 + (1 + (1 + lenZ l)))) 2); [lia|].
  destruct (Z.ltb_spec (lenS path) (lenS path)); [lia|].
  by rewrite String.eqb_refl.
Qed.

Lemma exact_matches (path e o : string) :
  entryMount e = Some (path, o) -> entryMatches path e = true.
Proof. intros H. unfold entryMatches. rewrite H. by rewrite String.eqb_refl. Qed.

(** X8: a line of the mount table with two or three fields makes the probe
    panic with an index out of range, whatever the candidate path, when
    the lines before it are usable and none of them names the candidate
    itself: the guard asks for two fields and the code reads the fourth. *)
Theorem checkExecutable_short_line_panics
    (data path : string) (pre post : list string) (entry : string) :
  strings_Split data newline = (pre ++ entry :: post)%list ->
  Forall usableLine pre ->
  (forall e' o, e' ∈ pre -> entryMount e' <> Some (path, o)) ->
  2 <= lenZ (strings_Split entry " ") < 4 ->
  checkExecutable (ProcData data) path = IndexPanic.
Proof.
  intros Hlines Hus Hnex Hshort.
  unfold checkExecutable. rewrite Hlines.
  destruct (probeLoop_app_continue path pre (entry :: post) "" false
              (lenS path + 2) Hus) as (m & n & _ & ->).
  - intros e' _ Hm. pose proof (entryMatches_length path e' Hm). lia.
  - exact Hnex.
  - unfold lenS. simpl. lia.
  - cbn [probeLoop]. unfold probeEntry.
    destruct (Z.ltb_spec (lenZ (strings_Split entry " ")) 2); [lia|].
    destruct (strings_Split entry " ") as [|f0 [|f1 [|f2 [|f3 l]]]]; try reflexivity.
    exfalso. cbn [lenZ] in Hshort. pose proof (lenZ_nonneg l). lia.
Qed.

Lemma checkExecutable_short_line_panics_witness :
  checkExecutable (ProcData ("/dev/sda1 / ext4 rw 0 0" ++ String newline "none /mnt")) "/tmp" = IndexPanic.
Proof.
  apply (checkExecutable_short_line_panics _ "/tmp" ["/dev/sda1 / ext4 rw 0 0"%string] []
           "none /mnt").
  - reflexivity.
  - apply Forall_singleton. right. vm_compute. discriminate.
  - intros e' o He'. apply list_elem_of_singleton in He'. subst e'. discriminate.
  - vm_compute. split; [discriminate|reflexivity].
Defined.

(** X9: which line of the mount table decides.  A matching line decides
    when every matching line before it has a strictly shorter mount point
    and either it names the candidate itself, in which case the lines after
    it are not examined at all, or no later line names the candidate or
    has a longer matching mount point.  So of two lines with the same
    mount point the earlier one decides. *)
Theorem checkExecutable_first_longest_line_decides
    (data path : string) (pre post : list string) (e : string) :
  strings_Split data newline = (pre ++ e :: post)%list ->
  Forall usableLine pre -> usableLine e ->
  entryMatches path e = true ->
  (forall e', e' ∈ pre -> entryMatches path e' = true -> mountLength e' < mountLength e) ->
  ((exists o, entryMount e = Some (path, o))
   \/ (Forall usableLine post /\
       forall e', e' ∈ post -> entryMatches path e' = true ->
                  mountLength e' <= mountLength e /\
                  forall o, entryMount e' <> Some (path, o))) ->
  checkExecutable (ProcData data) path = Verdict (negb (entryNoexec e)).
Proof.
  intros Hlines Hus Hu Hmatch Hshort Hpost.
  unfold checkExecutable. rewrite Hlines.
  destruct (probeLoop_app_continue path pre (e :: post) "" false (mountLength e) Hus Hshort)
    as (m & n & Hm & ->).
  - intros e' o He' Hex.
    apply (exact_not_shorter path e e' o Hex Hmatch).
    apply Hshort; [exact He'|]. by apply (exact_matches path e' o).
  - destruct (lenS_withSeparator "") as [_ H1].
    unfold entryMatches in Hmatch. unfold mountLength.
    destruct (entryMount e) as [[mp o]|]; [|discriminate].
    destruct (lenS_withSeparator mp) as [_ H2]. unfold lenS at 1. simpl. lia.
  - cbn [probeLoop].
    destruct Hpost as [(o & Hex)|[Hpu Hpl]].
    + by rewrite (probeEntry_exact path m n e o Hex).
    + destruct (probeEntry_cases path m n e Hu)
        as [[Hno _]|[(o & Hex & _ & ->)|[(_ & _ & m' & Hlen & ->)|(_ & Hle & _)]]].
      * congruence.
      * reflexivity.
      * rewrite (probeLoop_keeps path post m' (entryNoexec e) Hpu); [reflexivity|].
        intros e' He' Hm'. rewrite Hlen. by apply Hpl.
      * lia.
Qed.

Lemma checkExecutable_first_longest_line_decides_witness :
  checkExecutable (ProcData ("tmpfs /tmp tmpfs rw,noexec 0 0"
                             ++ String newline "tmpfs /tmp tmpfs rw 0 0")) "/tmp/run"
  = Verdict (negb (entryNoexec "tmpfs /tmp tmpfs rw,noexec 0 0")).
Proof.
  apply (checkExecutable_first_longest_line_decides _ "/tmp/run" []
           ["tmpfs /tmp tmpfs rw 0 0"%string] "tmpfs /tmp tmpfs rw,noexec 0 0").
  - reflexivity.
  - constructor.
  - right. vm_compute. discriminate.
  - reflexivity.
  - intros e' He'. by apply elem_of_nil in He'.
  - right. split.
    + apply Forall_singleton. right. vm_compute. discriminate.
    + intros e' He' _. apply list_elem_of_singleton in He'. subst e'.
      split; [vm_compute; discriminate|]. intros o. discriminate.
Defined.

(** ** The extraction directory: creation, key check, removal *)



Lemma trimLeft_allSpace_app (a t : string) :
  allSpace a = true -> trimLeft (a ++ t) = trimLeft t.
Proof.
  induction a as [|c a IH]; intros Ha; [reflexivity|].
  cbn [allSpace] in Ha. apply andb_true_iff in Ha as [Hc Ha].
  change (String c a ++ t)%string with (String c (a ++ t)).
  cbn [trimLeft]. rewrite Hc. by apply IH.
Qed.

Lemma trimRight_allSpace (b : string) : allSpace b = true -> trimRight b = ""%string.
Proof.
  induction b as [|c b IH]; intros Hb; [reflexivity|].
  cbn [allSpace] in Hb. apply andb_true_iff in Hb as [Hc Hb].
  cbn [trimRight]. rewrite (IH Hb). by rewrite Hc.
Qed.

Lemma trimRight_app_allSpace (s b : string) :
  allSpace b = true -> trimRight (s ++ b) = trimRight s.
Proof.
  intros Hb. induction s as [|c s IH].
  - change ("" ++ b)%string with b. by apply trimRight_allSpace.
  - change (String c s ++ b)%string with (String c (s ++ b)).
    cbn [trimRight]. by rewrite IH.
Qed.

Lemma TrimSpace_padded (a s b : string) :
  allSpace a = true -> allSpace b = true -> noSpace s = true ->
  strings_TrimSpace (a ++ s ++ b) = s.
Proof.
  intros Ha Hb Hs. unfold strings_TrimSpace.
  rewrite trimLeft_allSpace_app by exact Ha.
  assert (trimLeft (s ++ b) = if String.eqb s "" then ""%string else (s ++ b)%string) as ->.
  { destruct s as [|c s].
    - change ("" ++ b)%string with b. simpl String.eqb. cbv match.
      clear Hs. induction b as [|c b IH]; [reflexivity|].
      cbn [allSpace] in Hb. apply andb_true_iff in Hb as [Hc Hb].
      cbn [trimLeft]. rewrite Hc. by apply IH.
    - cbn [noSpace] in Hs. apply andb_true_iff in Hs as [Hc _].
      apply negb_true_iff in Hc.
      change (String c s ++ b)%string with (String c (s ++ b)).
      cbn [trimLeft]. rewrite Hc. reflexivity. }
  destruct s as [|c s]; [reflexivity|].
  simpl String.eqb. cbv match.
  rewrite trimRight_app_allSpace by exact Hb.
  pose proof (TrimSpace_noSpace (String c s) Hs) as Ht.
  unfold strings_TrimSpace in Ht.
  cbn [noSpace] in Hs. apply andb_true_iff in Hs as [Hc _]. apply negb_true_iff in Hc.
  cbn [trimLeft] in Ht. rewrite Hc in Ht. exact Ht.
Qed.

Lemma hexDigit_inj (n m : BinNums.N) :
  (n < 16)%N -> (m < 16)%N -> hexDigit n = hexDigit m -> n = m.
Proof.
  intros Hn Hm H. apply N2Nat.inj.
  assert (N.to_nat n < 16)%nat as Hn' by lia.
  assert (N.to_nat m < 16)%nat as Hm' by lia.
  unfold hexDigit in H. revert H Hn' Hm'.
  generalize (N.to_nat n) (N.to_nat m). clear. intros k j H Hk Hj.
  do 16 (destruct k as [|k];
         [do 16 (destruct j as [|j]; [first [reflexivity|discriminate H]|]); lia|]).
  lia.
Qed.

Lemma hex_byte_inj (b1 b2 : byte) :
  hexDigit (Byte.to_N b1 / 16) = hexDigit (Byte.to_N b2 / 16) ->
  hexDigit (Byte.to_N b1 mod 16) = hexDigit (Byte.to_N b2 mod 16) ->
  b1 = b2.
Proof.
  intros Hhi Hlo.
  pose proof (Byte.to_N_bounded b1) as B1. pose proof (Byte.to_N_bounded b2) as B2.
  apply hexDigit_inj in Hhi;
    [|apply N.Div0.div_lt_upper_bound; lia|apply N.Div0.div_lt_upper_bound; lia].
  apply hexDigit_inj in Hlo; [|apply N.mod_lt; lia|apply N.mod_lt; lia].
  assert (Byte.to_N b1 = Byte.to_N b2) as Heq.
  { rewrite (N.div_mod (Byte.to_N b1) 16), (N.div_mod (Byte.to_N b2) 16) by lia.
    by rewrite Hhi, Hlo. }
  pose proof (Byte.of_to_N b1) as H1. pose proof (Byte.of_to_N b2) as H2.
  rewrite Heq in H1. congruence.
Qed.

Lemma hex_EncodeToString_inj (k1 : list byte) :
  forall k2, hex_EncodeToString k1 = hex_EncodeToString k2 -> k1 = k2.
Proof.
  induction k1 as [|b1 k1 IH]; intros [|b2 k2] H; try discriminate; [reflexivity|].
  cbn [hex_EncodeToString] in H. injection H as Hhi Hlo Hrest.
  f_equal; [by apply hex_byte_inj | by apply IH].
Qed.

(** What [cleanupDir] leaves of a directory whose nodes have proper names. *)
Lemma cleanup_fold_empties (fs : gmap (list string) node) (dir : string) :
  dir <> ""%string ->
  lookupNode fs (resolve dir) = Some Dir ->
  cleanupDir fs dir
  = Some (fold_left (fun fs entry => os_RemoveAll fs (filepath_Join dir entry))
                    (entryNames fs (resolve dir)) fs) /\
  (forall fs', cleanupDir fs dir = Some fs' ->
     (forall q nd, fs' !! q = Some nd -> fs !! q = Some nd) /\
     (properNames fs ->
      (forall q, ~ resolve dir `prefix_of` q -> fs' !! q = fs !! q) /\
      lookupNode fs' (resolve dir) = Some Dir /\
      os_ReadDir fs' dir = Some [])).
Proof.
  intros Hdir Hstat.
  assert (cleanupDir fs dir
          = Some (fold_left (fun fs entry => os_RemoveAll fs (filepath_Join dir entry))
                            (entryNames fs (resolve dir)) fs)) as Hc.
  { unfold cleanupDir, os_ReadDir. by rewrite Hstat. }
  split; [exact Hc|]. intros fs' Hfs'. rewrite Hc in Hfs'. injection Hfs' as <-.
  set (entries := entryNames fs (resolve dir)).
  split; [intros q nd; apply cleanup_fold_sub|].
  intros Hp.
  assert (forall n, n ∈ entries ->
            resolve (filepath_Join dir n) = (resolve dir ++ [n])%list) as Hjoin.
  { intros n Hn. apply resolve_Join; [exact Hdir|].
    apply entryNames_elem in Hn as [nd Hnd].
    apply Hp in Hnd. apply Forall_app in Hnd as [_ Hnd].
    exact (Forall_inv Hnd). }
  assert (lookupNode
            (fold_left (fun fs entry => os_RemoveAll fs (filepath_Join dir entry)) entries fs)
            (resolve dir) = Some Dir) as Hstill.
  { destruct (resolve dir) as [|c p] eqn:E; [reflexivity|].
    unfold lookupNode in *. rewrite <- Hstat.
    apply cleanup_fold_kept. intros n Hn Hpre. rewrite Hjoin in Hpre by exact Hn.
    apply prefix_length in Hpre. rewrite length_app in Hpre. simpl in Hpre. lia. }
  split; [|split; [exact Hstill|]].
  - intros q Hq. apply cleanup_fold_kept. intros n Hn Hpre. apply Hq.
    rewrite Hjoin in Hpre by exact Hn.
    etransitivity; [|exact Hpre]. by apply prefix_app_r.
  - unfold os_ReadDir. rewrite Hstill. f_equal.
    apply elem_of_nil_inv. intros x Hx.
    apply entryNames_elem in Hx as [nd Hnd].
    pose proof (cleanup_fold_sub _ _ _ _ _ Hnd) as Hin.
    assert (x ∈ entries) as Hxe by (apply entryNames_elem; eauto).
    rewrite (cleanup_fold_gone _ _ _ _ x Hxe) in Hnd; [discriminate|].
    by rewrite Hjoin.
Qed.

(** [prepareExtractDir] on a configured directory that holds a key file. *)
Lemma prepare_existing (env : Env) (se : selfExtractor) (fs : gmap (list string) node)
    (keyData : list byte) :
  envDir env <> ""%string ->
  os_Stat fs (envDir env) = Some Dir ->
  readFile fs (filepath_Join (envDir env) keyFileName) = Data keyData ->
  prepareExtractDir env se fs
  = if String.eqb (hex_EncodeToString (key se))
                  (strings_TrimSpace (string_of_list_byte keyData))
    then Ok (withExtractDir se (envDir env) (tempDir se) true, fs)
    else
      match cleanupDir fs (envDir env) with
      | None => Fatal "cleaning extraction dir:" fs
      | Some fs' => Ok (withExtractDir se (envDir env) (tempDir se) (skipExtract se), fs')
      end.
Proof.
  intros Hdir Hstat Hkey.
  pose proof Hdir as Hdir'. apply String.eqb_neq in Hdir'.
  assert (keyFileName ∈ entryNames fs (resolve (envDir env))) as Hin.
  { apply entryNames_elem. unfold readFile in Hkey.
    rewrite resolve_Join in Hkey by (auto using keyFileName_valid).
    destruct (resolve (envDir env) ++ [keyFileName])%list as [|c p] eqn:E;
      [by destruct (resolve (envDir env))|].
    unfold lookupNode in Hkey. destruct (fs !! (c :: p)) as [nd|]; [eauto|discriminate]. }
  unfold prepareExtractDir. rewrite Hdir', Hstat.
  unfold os_ReadDir. unfold os_Stat in Hstat. rewrite Hstat.
  destruct (entryNames fs (resolve (envDir env))) as [|n l] eqn:He;
    [by apply elem_of_nil in Hin|].
  assert ((lenZ (n :: l) =? 0) = false) as ->.
  { apply Z.eqb_neq. cbn [lenZ]. pose proof (lenZ_nonneg l). lia. }
  rewrite Hkey. cbn [withExtractDir key tempDir skipExtract]. reflexivity.
Qed.

Lemma os_Mkdir_some (fs fs' : gmap (list string) node) (name : string) :
  os_Mkdir fs name = Some fs' ->
  lookupNode fs (resolve name) = None /\ fs' = <[resolve name := Dir]> fs.
Proof.
  unfold os_Mkdir. destruct (lookupNode fs (resolve name)); [discriminate|].
  destruct (parentIsDir fs (resolve name)); [|discriminate].
  intros [= <-]. by split.
Qed.

Lemma generateExtractDir_ok (env : Env) (fs fs' : gmap (list string) node) (dir : string) :
  generateExtractDir env fs = Ok (dir, fs') ->
  lookupNode fs (resolve dir) = None /\ fs' = <[resolve dir := Dir]> fs.
Proof.
  unfold generateExtractDir.
  destruct (executableDir env) as [pwd|]; [|discriminate].
  destruct (checkExecutable (procMounts env) (tempDirName env)) as [[|]|]; try discriminate.
  - unfold os_MkdirTemp. destruct (os_Mkdir fs _) as [fs1|] eqn:Hm; [|discriminate].
    intros H. apply Ok_inj in H. injection H as <- <-. by apply os_Mkdir_some.
  - destruct (checkExecutable (procMounts env) pwd) as [[|]|]; try discriminate.
    unfold os_MkdirTemp. destruct (os_Mkdir fs _) as [fs1|] eqn:Hm; [|discriminate].
    intros H. apply Ok_inj in H. injection H as <- <-. by apply os_Mkdir_some.
Qed.

(** X10: white space around the key does not matter.  When the configured
    directory holds a key file whose contents are the hexadecimal key of
    the archive with white space before and after it (a final line feed,
    say), [prepareExtractDir] marks the extraction as to be skipped and
    leaves the file system as it is. *)
Theorem prepareExtractDir_key_file_tolerates_white_space
    (env : Env) (se : selfExtractor) (fs : gmap (list string) node) (a b : string) :
  envDir env <> ""%string ->
  os_Stat fs (envDir env) = Some Dir ->
  allSpace a = true -> allSpace b = true ->
  readFile fs (filepath_Join (envDir env) keyFileName)
  = Data (list_byte_of_string (a ++ hex_EncodeToString (key se) ++ b)) ->
  prepareExtractDir env se fs = Ok (withExtractDir se (envDir env) (tempDir se) true, fs).
Proof.
  intros Hdir Hstat Ha Hb Hkey.
  rewrite (prepare_existing env se fs _ Hdir Hstat Hkey).
  rewrite string_of_list_byte_of_string.
  rewrite TrimSpace_padded by (assumption || apply hex_noSpace).
  by rewrite String.eqb_refl.
Qed.

Lemma prepareExtractDir_key_file_tolerates_white_space_witness :
  prepareExtractDir sampleEnv (newExtractor sampleReader sampleKey)
    (<[ ["cache"; ".selfextract.key"]%string :=
          Reg (list_byte_of_string
                 (" " ++ hex_EncodeToString (key (newExtractor sampleReader sampleKey))
                      ++ String newline "")) mode0666 ]>
     (<[ ["cache"%string] := Dir ]> ∅))
  = Ok (withExtractDir (newExtractor sampleReader sampleKey) (envDir sampleEnv)
          (tempDir (newExtractor sampleReader sampleKey)) true,
        <[ ["cache"; ".selfextract.key"]%string :=
             Reg (list_byte_of_string
                    (" " ++ hex_EncodeToString (key (newExtractor sampleReader sampleKey))
                         ++ String newline "")) mode0666 ]>
        (<[ ["cache"%string] := Dir ]> ∅)).
Proof.
  apply (prepareExtractDir_key_file_tolerates_white_space sampleEnv
           (newExtractor sampleReader sampleKey) _ " " (String newline "")).
  - discriminate.
  - reflexivity.
  - reflexivity.
  - reflexivity.
  - reflexivity.
Defined.

(** X11: the key file written by an extraction with key [k1] makes a later
    run with key [k2] skip the extraction exactly when the keys are equal:
    the hexadecimal encoding loses nothing.  With equal keys the file
    system is left as it is; with different keys nothing is added to it,
    and, when its nodes have proper names, the directory is emptied and
    nothing outside it changes. *)
Theorem prepareExtractDir_skips_exactly_for_the_same_key
    (env : Env) (reader : LimitedReader) (k1 k2 : list byte)
    (fs : gmap (list string) node) :
  envDir env <> ""%string ->
  os_Stat fs (envDir env) = Some Dir ->
  readFile fs (filepath_Join (envDir env) keyFileName)
  = Data (list_byte_of_string (hex_EncodeToString k1)) ->
  exists se' fs',
    prepareExtractDir env (newExtractor reader k2) fs = Ok (se', fs') /\
    (skipExtract se' = true <-> k2 = k1) /\
    (k2 = k1 -> fs' = fs) /\
    (k2 <> k1 ->
     (forall q nd, fs' !! q = Some nd -> fs !! q = Some nd) /\
     (properNames fs ->
      os_ReadDir fs' (envDir env) = Some [] /\
      forall q, ~ resolve (envDir env) `prefix_of` q -> fs' !! q = fs !! q)).
Proof.
  intros Hdir Hstat Hkey.
  rewrite (prepare_existing env _ fs _ Hdir Hstat Hkey).
  rewrite string_of_list_byte_of_string, TrimSpace_noSpace by apply hex_noSpace.
  cbn [key newExtractor tempDir skipExtract].
  destruct (String.eqb_spec (hex_EncodeToString k2) (hex_EncodeToString k1)) as [Heq|Hne].
  - apply hex_EncodeToString_inj in Heq. subst k2.
    eexists _, _. split; [reflexivity|]. cbn [skipExtract withExtractDir].
    split; [tauto|]. split; [reflexivity|]. intros Hc. contradiction.
  - assert (k2 <> k1) as Hk by congruence.
    destruct (cleanup_fold_empties fs (envDir env) Hdir Hstat) as [Hc Hprops].
    rewrite Hc. eexists _, _. split; [reflexivity|]. cbn [skipExtract withExtractDir].
    split; [split; [discriminate|contradiction]|]. split; [contradiction|].
    intros _. destruct (Hprops _ Hc) as [Hsub Hproper].
    split; [exact Hsub|]. intros Hp. destruct (Hproper Hp) as (Hout & _ & Hempty).
    by split.
Qed.

Lemma prepareExtractDir_skips_exactly_for_the_same_key_witness :
  exists se' fs',
    prepareExtractDir sampleEnv (newExtractor sampleReader sampleKey) staleExtracted
    = Ok (se', fs') /\
    (skipExtract se' = true <-> sampleKey = replicate 16 x02) /\
    (sampleKey = replicate 16 x02 -> fs' = staleExtracted) /\
    (sampleKey <> replicate 16 x02 ->
     (forall q nd, fs' !! q = Some nd -> staleExtracted !! q = Some nd) /\
     (properNames staleExtracted ->
      os_ReadDir fs' (envDir sampleEnv) = Some [] /\
      forall q, ~ resolve (envDir sampleEnv) `prefix_of` q ->
                fs' !! q = staleExtracted !! q)).
Proof.
  apply (prepareExtractDir_skips_exactly_for_the_same_key sampleEnv sampleReader
           (replicate 16 x02) sampleKey staleExtracted).
  - discriminate.
  - reflexivity.
  - reflexivity.
Defined.



(** X13: [cleanup] removes the extraction directory exactly when
    [prepareExtractDir] generated it.  A configured directory is kept, with
    all it holds, for the next run.  A generated one did not exist before,
    and [cleanup] removes it with everything at or below its path and
    nothing else; right after its creation, that gives back the file
    system as it was. *)
Theorem cleanup_removes_only_a_generated_directory
    (env : Env) (reader : LimitedReader) (archiveKey : list byte)
    (fs fs' : gmap (list string) node) (se' : selfExtractor) :
  prepareExtractDir env (newExtractor reader archiveKey) fs = Ok (se', fs') ->
  (envDir env <> ""%string ->
   extractDir se' = envDir env /\ tempDir se' = false /\
   forall fsx, cleanup se' fsx = fsx) /\
  (envDir env = ""%string ->
   tempDir se' = true /\
   os_Stat fs (extractDir se') = None /\
   fs' = <[resolve (extractDir se') := Dir]> fs /\
   (forall (fsx : gmap (list string) node) (q : list string),
      cleanup se' fsx !! q
      = if decide (resolve (extractDir se') `prefix_of` q) then None else fsx !! q) /\
   ((forall q, resolve (extractDir se') `prefix_of` q -> fs !! q = None) ->
    cleanup se' fs' = fs)).
Proof.
  intros Hprep. split.
  - intros Hdir.
    destruct (prepareExtractDir_configured env _ se' fs fs' Hdir Hprep)
      as (He & _ & _ & Ht & _).
    cbn [tempDir newExtractor] in Ht.
    split; [exact He|]. split; [exact Ht|].
    intros fsx. unfold cleanup. by rewrite Ht.
  - intros Hdir. unfold prepareExtractDir in Hprep. rewrite Hdir in Hprep.
    simpl String.eqb in Hprep. cbv match in Hprep.
    destruct (generateExtractDir env fs) as [[dir fs1]| |] eqn:Hgen; try discriminate.
    apply Ok_inj in Hprep. injection Hprep as <- <-.
    apply generateExtractDir_ok in Hgen as [Hnone ->].
    cbn [tempDir extractDir withExtractDir].
    assert (forall (fsx : gmap (list string) node) (q : list string),
              cleanup (withExtractDir (newExtractor reader archiveKey) dir true
                         (skipExtract (newExtractor reader archiveKey))) fsx !! q
              = if decide (resolve dir `prefix_of` q) then None else fsx !! q) as Hclean.
    { intros fsx q. unfold cleanup. cbn [tempDir extractDir withExtractDir].
      apply os_RemoveAll_lookup. }
    split; [reflexivity|]. split; [exact Hnone|]. split; [reflexivity|].
    split; [exact Hclean|].
    intros Hbelow. apply map_eq. intros q. rewrite Hclean.
    destruct (decide (resolve dir `prefix_of` q)) as [Hpre|Hpre].
    + symmetry. by apply Hbelow.
    + apply lookup_insert_ne. intros Heq. apply Hpre. by rewrite Heq.
Qed.

Lemma cleanup_removes_only_a_generated_directory_witness :
  (envDir tempEnv <> ""%string ->
   extractDir (withExtractDir (newExtractor sampleReader sampleKey) "/opt/selfextract1"
                 true false) = envDir tempEnv /\
   tempDir (withExtractDir (newExtractor sampleReader sampleKey) "/opt/selfextract1"
              true false) = false /\
   forall fsx,
     cleanup (withExtractDir (newExtractor sampleReader sampleKey) "/opt/selfextract1"
                true false) fsx = fsx) /\
  (envDir tempEnv = ""%string ->
   tempDir (withExtractDir (newExtractor sampleReader sampleKey) "/opt/selfextract1"
              true false) = true /\
   os_Stat (<[ ["opt"%string] := Dir ]> ∅)
           (extractDir (withExtractDir (newExtractor sampleReader sampleKey)
                          "/opt/selfextract1" true false)) = None /\
   (<[ ["opt"; "selfextract1"]%string := Dir ]> (<[ ["opt"%string] := Dir ]> ∅)
    : gmap (list string) node)
   = <[resolve (extractDir (withExtractDir (newExtractor sampleReader sampleKey)
                              "/opt/selfextract1" true false)) := Dir]>
       (<[ ["opt"%string] := Dir ]> ∅) /\
   (forall (fsx : gmap (list string) node) (q : list string),
      cleanup (withExtractDir (newExtractor sampleReader sampleKey) "/opt/selfextract1"
                 true false) fsx !! q
      = if decide (resolve (extractDir (withExtractDir (newExtractor sampleReader sampleKey)
                                          "/opt/selfextract1" true false)) `prefix_of` q)
        then None else fsx !! q) /\
   ((forall q,
       resolve (extractDir (withExtractDir (newExtractor sampleReader sampleKey)
                              "/opt/selfextract1" true false)) `prefix_of` q ->
       (<[ ["opt"%string] := Dir ]> ∅ : gmap (list string) node) !! q = None) ->
    cleanup (withExtractDir (newExtractor sampleReader sampleKey) "/opt/selfextract1"
               true false)
            (<[ ["opt"; "selfextract1"]%string := Dir ]> (<[ ["opt"%string] := Dir ]> ∅))
    = <[ ["opt"%string] := Dir ]> ∅)).
Proof.
  apply (cleanup_removes_only_a_generated_directory tempEnv sampleReader sampleKey
           (<[ ["opt"%string] := Dir ]> ∅)).
  reflexivity.
Defined.

(** ** The extraction engine: what the loop of [extract] leaves *)






Lemma writeAt_fresh (data : list byte) : writeAt [] 0 data = data.
Proof.
  change 0 with (lenZ (@nil byte)). by rewrite writeAt_end.
Qed.








Lemma targets_app (dir : string) (a b : list TarItem) :
  targets dir (a ++ b) = (targets dir a ++ targets dir b)%list.
Proof. unfold targets. apply omap_app. Qed.












Lemma mkdirAll_existing (todo : list string) :
  forall (fs : gmap (list string) node) (done : list string),
  (forall q, q `prefix_of` (done ++ todo)%list -> lookupNode fs q = Some Dir) ->
  mkdirAll fs done todo = (fs, true).
Proof.
  induction todo as [|c todo IH]; intros fs done Hd; [reflexivity|].
  cbn [mkdirAll]. rewrite Hd.
  - apply IH. intros q Hq. apply Hd. by rewrite <- app_assoc in Hq.
  - exists todo. by rewrite <- app_assoc.
Qed.

Lemma Clean_dot_dot (n : string) :
  validName n -> filepath_Clean ("../" ++ n) = ("../" ++ n)%string.
Proof.
  intros (Hs & H1 & H2 & H3). unfold filepath_Clean.
  change ("../" ++ n)%string with (".." ++ String "/" n)%string.
  rewrite strings_Split_app, Hs.
  change (".." ++ String "/" n)%string with (String "." (String "." (String "/" n))).
  cbn [strings_HasPrefix String.prefix Ascii.eqb Bool.eqb strings_Split app fold_left].
  unfold strings_HasPrefix. cbn [String.prefix].
  change (strings_Split ".." "/") with [".."%string]. cbn [app fold_left].
  change (cleanRelStep false [] "..") with [".."%string].
  unfold cleanRelStep.
  apply String.eqb_neq in H1, H2, H3. rewrite H1, H2, H3. cbn [orb rev app joinSlash].
  destruct (Ascii.eqb "/" "."); reflexivity.
Qed.

Lemma resolve_dot_dot (dir n x : string) (d : list string) :
  dir <> ""%string -> validName n -> resolve dir = (d ++ [x])%list ->
  resolve (filepath_Join dir ("../" ++ n)) = (d ++ [n])%list.
Proof.
  intros Hdir (Hs & H1 & H2 & H3) Hres. unfold filepath_Join.
  apply String.eqb_neq in Hdir. rewrite Hdir.
  change (String.eqb ("../" ++ n) "") with false. cbv match.
  unfold resolve in *.
  change ("/" ++ "../" ++ n)%string with (String "/" (".." ++ String "/" n))%string.
  rewrite !strings_Split_app, Hs, !fold_left_app.
  change (strings_Split ".." "/") with [".."%string]. cbn [fold_left].
  set (S := fold_left cleanStep (strings_Split dir "/") []) in *.
  change (cleanStep S "..") with (tail S).
  rewrite cleanStep_valid by (by repeat split).
  assert (S = x :: rev d) as ->.
  { apply (f_equal (@rev string)) in Hres. rewrite rev_involutive, rev_app_distr in Hres.
    exact Hres. }
  cbn [tail rev]. by rewrite rev_involutive.
Qed.










(** X18: the path of an entry is the lexical join of the extraction
    directory and the cleaned name, with no check that it stays inside.
    A regular entry named [../n] is written to the directory above the
    extraction directory, at a path outside it. *)
Theorem extract_follows_dot_dot_out_of_directory
    (dir x n : string) (d : list string) (hdr : Header) (data : list byte)
    (fs : gmap (list string) node) (rest : list TarItem) :
  dir <> ""%string -> resolve dir = (d ++ [x])%list ->
  validName n -> n <> x ->
  Name hdr = ("../" ++ n)%string -> Typeflag hdr = TypeReg ->
  dirsDownTo fs d -> fs !! (d ++ [n])%list = None ->
  entryTarget dir hdr = Some (d ++ [n])%list /\
  ~ resolve dir `prefix_of` (d ++ [n])%list /\
  extractEntries dir (Entry hdr data :: rest) fs
  = extractEntries dir rest (<[(d ++ [n])%list := Reg data (Mode hdr)]> fs).
Proof.
  intros Hdir Hres Hn Hnx Hname Hreg Hdirs Hfree.
  assert (String.eqb (filepath_Clean (Name hdr)) "." = false) as Hdot.
  { rewrite Hname, Clean_dot_dot by exact Hn. reflexivity. }
  assert (resolve (filepath_Join dir (filepath_Clean (Name hdr))) = (d ++ [n])%list) as Hp.
  { rewrite Hname, Clean_dot_dot by exact Hn. by apply (resolve_dot_dot dir n x d). }
  split; [|split].
  - unfold entryTarget. by rewrite Hdot, Hp.
  - rewrite Hres. intros Hpre. apply prefix_length_eq in Hpre.
    + apply app_inj_tail in Hpre as [_ Heq]. congruence.
    + rewrite !length_app. simpl. lia.
  - cbn [extractEntries]. cbv zeta. rewrite Hdot, Hreg.
    change (Ascii.eqb TypeReg TypeReg) with true. cbv match.
    unfold createFile. rewrite Hp, parentOf_snoc.
    rewrite (mkdirAll_existing d fs []) by exact Hdirs.
    unfold os_Create. rewrite Hp. unfold parentIsDir. rewrite parentOf_snoc.
    rewrite (Hdirs d) by reflexivity.
    assert (lookupNode fs (d ++ [n]) = None) as -> by (by destruct d).
    rewrite f_Write_insert. cbv beta match zeta. rewrite f_Chmod_insert.
    by rewrite writeAt_fresh.
Qed.

Lemma extract_follows_dot_dot_out_of_directory_witness :
  entryTarget "cache" {| Name := "../evil"; Typeflag := TypeReg; Mode := mode0755;
                         Size := 1; Linkname := "" |}
  = Some ([] ++ ["evil"%string])%list /\
  ~ resolve "cache" `prefix_of` ([] ++ ["evil"%string])%list /\
  extractEntries "cache"
    (Entry {| Name := "../evil"; Typeflag := TypeReg; Mode := mode0755;
              Size := 1; Linkname := "" |} [x21] :: [])
    (<[ ["cache"%string] := Dir ]> ∅)
  = extractEntries "cache" []
      (<[([] ++ ["evil"%string])%list :=
           Reg [x21] (Mode {| Name := "../evil"; Typeflag := TypeReg; Mode := mode0755;
                              Size := 1; Linkname := "" |})]>
       (<[ ["cache"%string] := Dir ]> ∅)).
Proof.
  apply (extract_follows_dot_dot_out_of_directory "cache" "cache" "evil" []).
  - discriminate.
  - reflexivity.
  - repeat split; discriminate || reflexivity.
  - discriminate.
  - reflexivity.
  - reflexivity.
  - intros q Hq. apply prefix_nil_inv in Hq. by subst q.
  - reflexivity.
Defined.

(** ** The lifecycle: order of events, the grace period, the command line *)

Lemma exec_spawned (grace : Z) (report : Report) (tr : list Event) (c : Config) :
  exec grace report initial tr c ->
  (mainG c = MainReceiving \/ (exists v, mainG c = MainCleaning v) -> In Spawn tr) /\
  (forall w v, In (Receive w v) tr -> before Spawn (Receive w v) tr) /\
  (forall v, In (ExitWith v) tr -> exists w, before (Receive w v) (ExitWith v) tr).
Proof.
  intros Hexec. remember initial as c0 eqn:Hc0.
  induction Hexec as [c|c1 tr c2 e c3 Hexec IH Hstep].
  - subst c. split; [intros [H|[v H]]; discriminate|]. split; [intros w v []|intros v []].
  - specialize (IH Hc0). destruct IH as (J1 & J2 & J3).
    pose proof (exec_invariant grace report tr c2 ltac:(by subst c1)) as Hinv.
    destruct Hinv as (_ & _ & I3 & _).
    split; [|split].
    + intros Hm. apply In_snoc.
      destruct (decide (e = Spawn)) as [->|Hne]; [by right|left]. apply J1.
      inversion Hstep; subst; cbn [mainG withMain withSig] in Hm |- *;
        try (exact Hm); try congruence;
        try (destruct Hm as [Hm|[v' Hm]]; discriminate).
      left. assumption.
    + intros w v Hin. apply In_snoc in Hin as [Hin|Hin]; [by apply before_later, J2|].
      subst e. apply before_now. apply J1. inversion Hstep; subst. by left.
    + intros v Hin. apply In_snoc in Hin as [Hin|Hin].
      * destruct (J3 v Hin) as [w Hb]. exists w. by apply before_later.
      * subst e. inversion Hstep; subst.
        match goal with H : mainG c2 = MainCleaning v |- _ => destruct (I3 v H) as [w Hw] end.
        exists w. by apply before_now.
Qed.

(** X19: the exit code is received only after the extraction.  In every
    run, [main] receives from the channel after it has started the startup
    task, that is, after [prepareExtractDir] and [extract] have returned,
    and it leaves by its own [os.Exit] after the reception: a signal that
    arrives during the extraction is acted upon when the extraction is
    over. *)
Theorem exit_code_is_received_after_extraction
    (grace : Z) (report : Report) (tr : list Event) (c : Config) :
  exec grace report initial tr c ->
  (forall w v, In (Receive w v) tr -> before Spawn (Receive w v) tr) /\
  (forall v, In (ExitWith v) tr -> exists w, before (Receive w v) (ExitWith v) tr).
Proof.
  intros Hexec. by destruct (exec_spawned grace report tr c Hexec) as (_ & H2 & H3).
Qed.

Lemma exit_code_is_received_after_extraction_witness :
  (forall w v,
     In (Receive w v) [Signal; SendBy SignalTask 2; Spawn; Receive SignalTask 2; ExitWith 2] ->
     before Spawn (Receive w v)
            [Signal; SendBy SignalTask 2; Spawn; Receive SignalTask 2; ExitWith 2]) /\
  (forall v,
     In (ExitWith v) [Signal; SendBy SignalTask 2; Spawn; Receive SignalTask 2; ExitWith 2] ->
     exists w,
       before (Receive w v) (ExitWith v)
              [Signal; SendBy SignalTask 2; Spawn; Receive SignalTask 2; ExitWith 2]).
Proof.
  apply (exit_code_is_received_after_extraction 0 (Send 7) _
           (mkConfig SigBlocked StartRunning [] (MainExited 2))).
  apply (exec_step _ _ _ [Signal; SendBy SignalTask 2; Spawn; Receive SignalTask 2]
           (mkConfig SigBlocked StartRunning [] (MainCleaning 2))).
  2:{ by apply (step_exit _ _ (mkConfig SigBlocked StartRunning [] (MainCleaning 2)) 2). }
  apply (exec_step _ _ _ [Signal; SendBy SignalTask 2; Spawn]
           (mkConfig SigBlocked StartRunning [(SignalTask, 2)] MainReceiving)).
  2:{ by apply (step_receive _ _
                  (mkConfig SigBlocked StartRunning [(SignalTask, 2)] MainReceiving)
                  SignalTask 2 []). }
  apply (exec_step _ _ _ [Signal; SendBy SignalTask 2]
           (mkConfig SigBlocked StartUnborn [(SignalTask, 2)] MainBusy)).
  2:{ by apply (step_spawn _ _ (mkConfig SigBlocked StartUnborn [(SignalTask, 2)] MainBusy)). }
  apply (exec_step _ _ _ [Signal] (mkConfig SigReady StartUnborn [] MainBusy)).
  2:{ apply (step_signal_send _ _ (mkConfig SigReady StartUnborn [] MainBusy));
        reflexivity. }
  apply (exec_step _ _ _ [] initial); [apply exec_nil|].
  apply (step_signal 0 _ initial); reflexivity.
Defined.

(** X20: without a command line file, and not in extract-only mode, the
    startup task dies before any child is run.  It never reports on the
    channel; a value that [main] receives is the 2 of the signal task; and
    a [die] ends the process with status 1. *)
Theorem missing_cmdline_file_is_fatal
    (runChild : string -> list string -> ChildResult)
    (env : Env) (se : selfExtractor) (fs : gmap (list string) node)
    (grace : Z) (tr : list Event) (c : Config) :
  isTruthy (envExtractOnly env) = false ->
  os_Stat fs (cmdlinePath se) = None ->
  exec grace (startup runChild env se fs) initial tr c ->
  startup runChild env se fs = Dies "failed to find cmdline file, quitting..." /\
  (forall runChild', startup runChild' env se fs = startup runChild env se fs) /\
  (forall v, ~ In (SendBy StartupTask v) tr) /\
  (forall w v, In (Receive w v) tr -> w = SignalTask /\ v = 2) /\
  (forall code, In (Down code) tr -> code = 1).
Proof.
  intros Htruthy Hstat Hexec.
  assert (forall rc, startup rc env se fs = Dies "failed to find cmdline file, quitting...")
    as Hdies.
  { intros rc. unfold startup. rewrite Htruthy. unfold cmdlinePath in Hstat.
    by rewrite Hstat. }
  split; [apply Hdies|]. split; [intros rc; by rewrite !Hdies|].
  pose proof (exec_invariant _ _ _ _ Hexec) as (_ & I2 & _ & _ & _ & _ & I7 & I8).
  assert (forall v, ~ In (SendBy StartupTask v) tr) as Hnosend.
  { intros v Hin. apply I8 in Hin. rewrite Hdies in Hin. discriminate. }
  split; [exact Hnosend|]. split.
  - intros w v Hin. apply I2 in Hin. apply head_In, sends_In in Hin.
    destruct w; [|by apply Hnosend in Hin].
    split; [reflexivity|]. by apply I7 in Hin as [-> _].
  - rewrite Hdies in Hexec. clear -Hexec.
    remember initial as c0 eqn:Hc0. remember (Dies _) as report eqn:Hrep.
    induction Hexec as [c|c1 tr c2 e c3 Hexec IH Hstep]; [intros code []|].
    intros code Hin. apply In_snoc in Hin as [Hin|Hin]; [by apply IH|].
    subst e. inversion Hstep; subst; try reflexivity. discriminate.
Qed.

Lemma missing_cmdline_file_is_fatal_witness :
  startup childExits7 sampleEnv sampleExtractor sampleExtracted
  = Dies "failed to find cmdline file, quitting..." /\
  (forall runChild',
     startup runChild' sampleEnv sampleExtractor sampleExtracted
     = startup childExits7 sampleEnv sampleExtractor sampleExtracted) /\
  (forall v, ~ In (SendBy StartupTask v) [Spawn; Down 1]) /\
  (forall w v, In (Receive w v) [Spawn; Down 1] -> w = SignalTask /\ v = 2) /\
  (forall code, In (Down code) [Spawn; Down 1] -> code = 1).
Proof.
  apply (missing_cmdline_file_is_fatal childExits7 sampleEnv sampleExtractor sampleExtracted
           10 [Spawn; Down 1] (mkConfig SigWaiting StartRunning [] (MainExited 1))).
  - reflexivity.
  - reflexivity.
  - apply (exec_step _ _ _ [Spawn] (mkConfig SigWaiting StartRunning [] MainReceiving)).
    2:{ apply (step_startup_dies _ _ (mkConfig SigWaiting StartRunning [] MainReceiving)
                 "failed to find cmdline file, quitting..."); reflexivity. }
    apply (exec_step _ _ _ [] initial); [apply exec_nil|].
    by apply (step_spawn _ _ initial).
Defined.

(** X21: the grace period is a whole number of seconds.  The value of
    [SELFEXTRACT_GRACE_TIMEOUT] is converted to a duration before it is
    multiplied by a second, so its fraction is lost: a value of at least 0
    and less than 1 gives no grace at all, and the signal task then reports
    with no sleep in any run.  An empty or unreadable value, a negative
    one and NaN give the ten seconds of the default. *)
Theorem grace_period_loses_its_fraction
    (graceStr : string) (num : Z) (den : positive) :
  graceStr <> ""%string ->
  0 <= num < Z.pos den ->
  graceOf graceStr (Finite num den) = Some 0 /\
  (forall report tr c, exec 0 report initial tr c -> ~ In GraceElapsed tr) /\
  (forall parsed, graceOf "" parsed = Some (10 * Second)) /\
  graceOf graceStr ParseError = Some (10 * Second) /\
  graceOf graceStr NotANumber = Some (10 * Second) /\
  (forall n d, n < 0 -> graceOf graceStr (Finite n d) = Some (10 * Second)) /\
  (forall n, 0 <= n < 9223372036 -> graceOf graceStr (Finite n 1) = Some (n * Second)).
Proof.
  intros Hstr Hq. apply String.eqb_neq in Hstr.
  split; [|split; [|split; [|split; [|split; [|split]]]]].
  - unfold graceOf. rewrite Hstr.
    destruct (Z.leb_spec 0 num); [|lia].
    unfold durationOf. rewrite Z.quot_small by lia. reflexivity.
  - intros report tr c Hexec. remember initial as c0 eqn:Hc0.
    induction Hexec as [c|c1 tr c2 e c3 Hexec IH Hstep]; [intros []|].
    intros Hin. apply In_snoc in Hin as [Hin|Hin]; [by apply IH|].
    subst e. inversion Hstep; subst.
    pose proof (exec_invariant 0 report tr c2 Hexec) as (_ & _ & _ & _ & I5 & _).
    match goal with H : sigG c2 = SigSleeping |- _ => apply I5 in H as [_ H]; by apply H end.
  - reflexivity.
  - unfold graceOf. by rewrite Hstr.
  - unfold graceOf. by rewrite Hstr.
  - intros n d Hn. unfold graceOf. rewrite Hstr.
    destruct (Z.leb_spec 0 n); [lia|reflexivity].
  - intros n Hn. unfold graceOf. rewrite Hstr.
    destruct (Z.leb_spec 0 n); [|lia].
    unfold durationOf. rewrite Z.quot_1_r.
    destruct (Z.leb_spec (- 2 ^ 63) n); [|lia].
    destruct (Z.ltb_spec n (2 ^ 63)); [|lia]. cbn [andb].
    unfold mul64, int64, Second. rewrite Z.mod_small by lia.
    destruct (Z.ltb_spec (n * 1000000000) (2 ^ 63)); [reflexivity|lia].
Qed.

Lemma grace_period_loses_its_fraction_witness :
  graceOf "0.5" (Finite 1 2) = Some 0 /\
  (forall report tr c, exec 0 report initial tr c -> ~ In GraceElapsed tr) /\
  (forall parsed, graceOf "" parsed = Some (10 * Second)) /\
  graceOf "0.5" ParseError = Some (10 * Second) /\
  graceOf "0.5" NotANumber = Some (10 * Second) /\
  (forall n d, n < 0 -> graceOf "0.5" (Finite n d) = Some (10 * Second)) /\
  (forall n, 0 <= n < 9223372036 -> graceOf "0.5" (Finite n 1) = Some (n * Second)).
Proof.
  apply (grace_period_loses_its_fraction "0.5" 1 2).
  - discriminate.
  - lia.
Defined.

Lemma lowerAscii_flipCase (c : ascii) : lowerAscii (flipCase c) = lowerAscii c.
Proof. destruct c as [[] [] [] [] [] [] [] []]; reflexivity. Qed.

Lemma ToLower_recase (mask : list bool) :
  forall s, strings_ToLower (recase mask s) = strings_ToLower s.
Proof.
  induction mask as [|b mask IH]; intros [|c s]; try reflexivity.
  destruct b; cbn [recase strings_ToLower]; rewrite IH; [|reflexivity].
  by rewrite lowerAscii_flipCase.
Qed.


Lemma snoc_append (value : string) (c : ascii) (w : string) :
  (snoc value c ++ w)%string = (value ++ String c w)%string.
Proof.
  unfold snoc. induction value as [|a value IH]; [reflexivity|].
  change (String a value ++ String c "")%string with (String a (value ++ String c "")).
  change (String a (value ++ String c "") ++ w)%string
    with (String a ((value ++ String c "") ++ w)).
  change (String a value ++ String c w)%string with (String a (value ++ String c w)).
  by rewrite IH.
Qed.

Lemma append_nil_r (s : string) : (s ++ "")%string = s.
Proof.
  induction s as [|a s IH]; [reflexivity|].
  change (String a s ++ "")%string with (String a (s ++ "")). by rewrite IH.
Qed.

(** Inside a word, plain characters are added to the token under way. *)
Lemma lex_plain (w : string) :
  forall (rest value : string) (words : list string),
  plainChars w = true ->
  lex (w ++ rest) inWordState value words = lex rest inWordState (value ++ w) words.
Proof.
  induction w as [|c w IH]; intros rest value words Hw.
  - change ("" ++ rest)%string with rest. by rewrite append_nil_r.
  - cbn [plainChars] in Hw. apply andb_true_iff in Hw as [Hc Hw].
    unfold plainChar in Hc.
    apply andb_true_iff in Hc as [Hc H5]. apply andb_true_iff in Hc as [Hc H4].
    apply andb_true_iff in Hc as [Hc H3]. apply andb_true_iff in Hc as [H1 H2].
    apply negb_true_iff in H1, H2, H3, H4.
    change (String c w ++ rest)%string with (String c (w ++ rest)).
    cbn [lex]. rewrite H1, H2, H3, H4.
    rewrite IH by exact Hw. by rewrite snoc_append.
Qed.

Lemma lex_word_from_start (w rest : string) (value : string) (words : list string) :
  plainWord w = true ->
  lex (w ++ rest) startState value words = lex rest inWordState w words.
Proof.
  unfold plainWord. intros Hw. apply andb_true_iff in Hw as [Hne Hw].
  destruct w as [|c w]; [discriminate|].
  cbn [plainChars] in Hw. apply andb_true_iff in Hw as [Hc Hw].
  unfold plainChar in Hc.
  apply andb_true_iff in Hc as [Hc H5]. apply andb_true_iff in Hc as [Hc H4].
  apply andb_true_iff in Hc as [Hc H3]. apply andb_true_iff in Hc as [H1 H2].
  apply negb_true_iff in H1, H2, H3, H4, H5.
  change (String c w ++ rest)%string with (String c (w ++ rest)).
  cbn [lex]. rewrite H1, H2, H3, H4, H5.
  by rewrite lex_plain.
Qed.

Lemma shlex_two_words (a b : string) :
  plainWord a = true -> plainWord b = true ->
  shlex_Split (a ++ String " " b) = Some [a; b].
Proof.
  intros Ha Hb. unfold shlex_Split.
  rewrite lex_word_from_start by exact Ha.
  cbn [lex]. change (isBlank " ") with true. cbv match.
  rewrite <- (append_nil_r b) at 1.
  rewrite lex_word_from_start by exact Hb. reflexivity.
Qed.

Lemma ReplaceAll_placeholder (dir : string) :
  strings_ReplaceAll (strings_TrimSpace "__EXTRACT_DIR__") placeholder dir = dir.
Proof.
  change (strings_TrimSpace "__EXTRACT_DIR__") with "__EXTRACT_DIR__"%string.
  unfold strings_ReplaceAll, placeholder.
  change (String.eqb "__EXTRACT_DIR__" "") with false. cbv match.
  cbn [replaceFrom String.prefix Ascii.eqb Bool.eqb String.length Nat.sub].
  apply append_nil_r.
Qed.

(** X22: [isTruthy] does not depend on the case of letters: changing the
    case of any of the characters of a string does not change the
    answer. *)
Theorem isTruthy_ignores_case (mask : list bool) (s : string) :
  isTruthy (recase mask s) = isTruthy s.
Proof. unfold isTruthy. by rewrite ToLower_recase. Qed.



(** X24: the placeholder is replaced before the command line is
    tokenized.  When the command line is the placeholder alone and the path
    of the extraction directory is two plain words with a blank between
    them, the child is started with the two words as its argument vector:
    the path does not arrive as one argument. *)
Theorem extraction_directory_with_a_blank_is_split
    (runChild : string -> list string -> ChildResult)
    (env : Env) (se : selfExtractor) (fs : gmap (list string) node)
    (a b arg0 : string) :
  isTruthy (envExtractOnly env) = false ->
  readFile fs (cmdlinePath se) = Data (list_byte_of_string "__EXTRACT_DIR__") ->
  extractDir se = (a ++ String " " b)%string ->
  plainWord a = true -> plainWord b = true ->
  Args env = [arg0] ->
  shlex_Split (substituted se (list_byte_of_string "__EXTRACT_DIR__")) = Some [a; b] /\
  startup runChild env se fs
  = match runChild (extractDir se) [a; b] with
    | Exited code => Send code
    | Killed => Send (-1)
    | StartError => Send 1
    end.
Proof.
  intros Htruthy Hread Hdir Ha Hb Hargs.
  assert (shlex_Split (substituted se (list_byte_of_string "__EXTRACT_DIR__"))
          = Some [a; b]) as Hwords.
  { unfold substituted. rewrite string_of_list_byte_of_string, ReplaceAll_placeholder, Hdir.
    by apply shlex_two_words. }
  split; [exact Hwords|].
  assert (exists nd, os_Stat fs (cmdlinePath se) = Some nd) as [nd Hstat].
  { unfold readFile in Hread. unfold os_Stat.
    destruct (lookupNode fs (resolve (cmdlinePath se))) as [nd|]; [eauto|discriminate]. }
  apply (startup_runs_child runChild env se fs nd _ [a; b] arg0 [] [a; b]
           Htruthy Hstat Hread Hwords Hargs); [reflexivity|discriminate].
Qed.

Lemma extraction_directory_with_a_blank_is_split_witness :
  shlex_Split (substituted (withExtractDir (newExtractor sampleReader sampleKey) "my dir"
                              false false)
                 (list_byte_of_string "__EXTRACT_DIR__"))
  = Some ["my"; "dir"]%string /\
  startup childExits7 sampleEnv
    (withExtractDir (newExtractor sampleReader sampleKey) "my dir" false false)
    (<[ ["my dir"; "selfextract_cmdline"]%string :=
          Reg (list_byte_of_string "__EXTRACT_DIR__") mode0666 ]>
     (<[ ["my dir"%string] := Dir ]> ∅))
  = match childExits7 (extractDir (withExtractDir (newExtractor sampleReader sampleKey)
                                     "my dir" false false)) ["my"; "dir"]%string with
    | Exited code => Send code
    | Killed => Send (-1)
    | StartError => Send 1
    end.
Proof.
  apply (extraction_directory_with_a_blank_is_split childExits7 sampleEnv
           (withExtractDir (newExtractor sampleReader sampleKey) "my dir" false false)
           (<[ ["my dir"; "selfextract_cmdline"]%string :=
                 Reg (list_byte_of_string "__EXTRACT_DIR__") mode0666 ]>
            (<[ ["my dir"%string] := Dir ]> ∅))
           "my" "dir" "app").
  - reflexivity.
  - reflexivity.
  - reflexivity.
  - reflexivity.
  - reflexivity.
  - reflexivity.
Defined.

(** ** Where a generated directory is made *)

(** X25: a generated extraction directory lies where the mount probe
    allows execution.  It is made in the temporary directory when the probe
    accepts that one, and otherwise in the directory of the executable,
    when the probe accepts that one; in both cases its name is
    [selfextract] followed by the random part.  A configured directory is
    not probed: with [SELFEXTRACT_DIR] set, the mount table, the temporary
    directory and the place of the executable play no part. *)
Theorem generated_directory_is_on_an_executable_mount
    (env : Env) (se : selfExtractor) (fs fs' : gmap (list string) node)
    (se' : selfExtractor) :
  envDir env = ""%string ->
  executableDir env <> Some ""%string ->
  prepareExtractDir env se fs = Ok (se', fs') ->
  (exists base,
     checkExecutable (procMounts env) base = Verdict true /\
     (base = tempDirName env
      \/ (executableDir env = Some base /\
          checkExecutable (procMounts env) (tempDirName env) = Verdict false)) /\
     extractDir se' = filepath_Join base ("selfextract" ++ tempSuffix env)) /\
  forall (env1 env2 : Env) (se0 : selfExtractor) (fs0 : gmap (list string) node),
    envDir env1 <> ""%string -> envDir env2 = envDir env1 ->
    prepareExtractDir env1 se0 fs0 = prepareExtractDir env2 se0 fs0.
Proof.
  intros Hdir Hexe Hprep. split.
  - unfold prepareExtractDir in Hprep. rewrite Hdir in Hprep.
    simpl String.eqb in Hprep. cbv match in Hprep.
    destruct (generateExtractDir env fs) as [[dir fs1]| |] eqn:Hgen; try discriminate.
    apply Ok_inj in Hprep. injection Hprep as <- <-. cbn [extractDir withExtractDir].
    unfold generateExtractDir in Hgen.
    destruct (executableDir env) as [pwd|]; [|discriminate].
    destruct (checkExecutable (procMounts env) (tempDirName env)) as [[|]|] eqn:Htmp;
      try discriminate.
    + exists (tempDirName env). split; [exact Htmp|]. split; [by left|].
      unfold os_MkdirTemp in Hgen. simpl String.eqb in Hgen. cbv match beta zeta in Hgen.
      destruct (os_Mkdir fs _); [|discriminate]. apply Ok_inj in Hgen. by injection Hgen.
    + destruct (checkExecutable (procMounts env) pwd) as [[|]|] eqn:Hpwd; try discriminate.
      unfold os_MkdirTemp in Hgen.
      destruct (String.eqb_spec pwd "") as [->|Hne]; [congruence|].
      exists pwd. split; [exact Hpwd|]. split; [right; by split|].
      cbv match beta zeta in Hgen.
      destruct (os_Mkdir fs _); [|discriminate]. apply Ok_inj in Hgen. by injection Hgen.
  - intros env1 env2 se0 fs0 Hne Heq. unfold prepareExtractDir. rewrite Heq.
    apply String.eqb_neq in Hne. by rewrite Hne.
Qed.

Lemma generated_directory_is_on_an_executable_mount_witness :
  (exists base,
     checkExecutable (procMounts tempEnv) base = Verdict true /\
     (base = tempDirName tempEnv
      \/ (executableDir tempEnv = Some base /\
          checkExecutable (procMounts tempEnv) (tempDirName tempEnv) = Verdict false)) /\
     extractDir (withExtractDir (newExtractor sampleReader sampleKey) "/opt/selfextract1"
                   true false)
     = filepath_Join base ("selfextract" ++ tempSuffix tempEnv)) /\
  forall (env1 env2 : Env) (se0 : selfExtractor) (fs0 : gmap (list string) node),
    envDir env1 <> ""%string -> envDir env2 = envDir env1 ->
    prepareExtractDir env1 se0 fs0 = prepareExtractDir env2 se0 fs0.
Proof.
  apply (generated_directory_is_on_an_executable_mount tempEnv
           (newExtractor sampleReader sampleKey) (<[ ["opt"%string] := Dir ]> ∅)
           (<[ ["opt"; "selfextract1"]%string := Dir ]> (<[ ["opt"%string] := Dir ]> ∅))).
  - reflexivity.
  - discriminate.
  - reflexivity.
Defined.
